(** * SecureSteg: pointer-chain steganography engine

    A shallow embedding of [src/steg]: [StegHelpers], [StegPointer],
    [StegPixel], [StegImage], [StegEncoder] and [StegDecoder], with the
    properties of the engine proved over it.

    Conventions.
    - A JavaScript number that is always an integer in the code is a [Z];
      values that may also be [NaN], [-0] or an infinity (results of
      [parseInt] and of divisions) are a [jsnum].
    - A typed array ([Uint8Array], [Uint8ClampedArray]) is a [list Z] of
      bytes; a string is a [list ascii] (the keys are ASCII).
    - Code that may throw returns an [outcome]; the two [while] loops that
      draw from the generator take a fuel bound and report [OutOfFuel] when
      it is exhausted.
    - crypto-es (AES, HMAC-SHA256, UTF-8) and the ISAAC generator are the
      program's external libraries: they are the fields of [CryptoES] and
      [Isaac], never defined here. *)

From Stdlib Require Import String Ascii ZArith List Lia Bool QArith Qround.
From Stdlib Require Import Permutation.
Import ListNotations.
Local Open Scope Z_scope.

(* ================================================================== *)
(** * JavaScript numbers and 32-bit operators *)

Module JS.

(** The number values the engine can meet. *)
Inductive jsnum : Type :=
  | JInt (z : Z)
  | JNegZero
  | JNaN
  | JPosInf
  | JNegInf.

Definition jsnum_eqb (a b : jsnum) : bool :=
  match a, b with
  | JInt x, JInt y => x =? y
  | JInt 0, JNegZero | JNegZero, JInt 0 | JNegZero, JNegZero => true
  | JPosInf, JPosInf | JNegInf, JNegInf => true
  | _, _ => false
  end.

(** [a < b] *)
Definition js_lt (a b : jsnum) : bool :=
  match a, b with
  | JNaN, _ | _, JNaN => false
  | JPosInf, _ | _, JNegInf => false
  | _, JPosInf | JNegInf, _ => true
  | JInt x, JInt y => x <? y
  | JInt x, JNegZero => x <? 0
  | JNegZero, JInt y => 0 <? y
  | JNegZero, JNegZero => false
  end.

(** [Math.floor(n / d)] for an integer [n > 0]. *)
Definition floor_div (n : Z) (d : jsnum) : jsnum :=
  match d with
  | JInt 0 => JPosInf
  | JInt z => JInt (n / z)
  | JNegZero => JNegInf
  | JNaN => JNaN
  | JPosInf => JInt 0
  | JNegInf => JNegZero
  end.

(** [Math.max(1, b)] *)
Definition js_max1 (b : jsnum) : jsnum :=
  match b with
  | JInt z => JInt (Z.max 1 z)
  | JNegZero | JNegInf => JInt 1
  | JNaN => JNaN
  | JPosInf => JPosInf
  end.

(** [Math.min(a, b)] for an integer [b]. *)
Definition js_min (a : jsnum) (b : Z) : jsnum :=
  match a with
  | JInt z => JInt (Z.min z b)
  | JNegZero => if 0 <=? b then JNegZero else JInt b
  | JNaN => JNaN
  | JPosInf => JInt b
  | JNegInf => JNegInf
  end.

(** ToUint32 and ToInt32 of an integer: the low 32 bits, read unsigned or
    in two's complement. *)
Definition two31 : Z := 2147483648.
Definition two32 : Z := 4294967296.
Definition to_uint32 (z : Z) : Z := Z.land z (two32 - 1).
Definition to_int32 (z : Z) : Z :=
  let u := to_uint32 z in
  if u <? two31 then u else u - two32.

(** ToInt32 of a number: [NaN], zeros and infinities give 0. *)
Definition num_to_int32 (n : jsnum) : Z :=
  match n with
  | JInt z => to_int32 z
  | _ => 0
  end.

(** [a << k], [a >>> k], [a >> k], [a | b], [a & b] on integers. *)
Definition shl (a k : Z) : Z := to_int32 (Z.shiftl (to_int32 a) (k mod 32)).
Definition ushr (a k : Z) : Z := Z.shiftr (to_uint32 a) (k mod 32).
Definition sar (a k : Z) : Z := Z.shiftr (to_int32 a) (k mod 32).
Definition bor (a b : Z) : Z := to_int32 (Z.lor (to_int32 a) (to_int32 b)).
Definition band (a b : Z) : Z := to_int32 (Z.land (to_int32 a) (to_int32 b)).

(** [arr[j] = v] on an ordinary array: replaces, appends, or leaves holes.
    Every read of such an array in the code goes through [|| 0], [|=] or
    [>>>], which turn a hole into 0, so a hole is stored as 0. *)
Fixpoint array_set (arr : list Z) (j : nat) (v : Z) : list Z :=
  match j, arr with
  | O, [] => [v]
  | O, _ :: rest => v :: rest
  | S j', [] => 0 :: array_set [] j' v
  | S j', x :: rest => x :: array_set rest j' v
  end.

(** [arr[j] || 0] *)
Definition array_get (arr : list Z) (j : nat) : Z := nth j arr 0.

End JS.
Import JS.

(* ================================================================== *)
(** * crypto-es word arrays and the conversions of [StegHelpers] *)

Record WordArray : Type := mkWordArray { words : list Z; sigBytes : Z }.

(** The byte the code extracts at offset [i]:
    [(words[i >>> 2] >>> (24 - (i % 4) * 8)) & 0xff]. *)
Definition word_byte (ws : list Z) (i : nat) : Z :=
  band (ushr (array_get ws (i / 4)) (24 - Z.of_nat (i mod 4) * 8)) 255.

(** [StegHelpers.wordArrayToUint8Array] *)
Definition wordArrayToUint8Array (wa : WordArray) : list Z :=
  map (word_byte (words wa)) (seq 0 (Z.to_nat (sigBytes wa))).

(** The loop of [StegHelpers.uint8ArrayToWordArray], from index [i] on:
    [words[i >>> 2] = (words[i >>> 2] || 0) | (u8[i] << (24 - (i % 4) * 8))]. *)
Fixpoint pack_bytes_from (i : nat) (u8 : list Z) (ws : list Z) : list Z :=
  match u8 with
  | [] => ws
  | b :: rest =>
      pack_bytes_from (S i) rest
        (array_set ws (i / 4)
           (bor (array_get ws (i / 4)) (shl b (24 - Z.of_nat (i mod 4) * 8))))
  end.

(** [StegHelpers.uint8ArrayToWordArray] *)
Definition uint8ArrayToWordArray (u8 : list Z) : WordArray :=
  mkWordArray (pack_bytes_from 0 u8 []) (Z.of_nat (length u8)).

Definition is_byte (b : Z) : Prop := 0 <= b <= 255.

(* ================================================================== *)
(** * Results of code that may throw *)

Inductive error : Type :=
  | KeyTooShort           (* RangeError("Packed key is too short.") *)
  | PixelIndexOutOfRange  (* RangeError of getPixelAt and setPixelAt *)
  | InvalidArrayLength    (* RangeError of new Uint8Array(n) *)
  | UndefinedAccess       (* TypeError: a property of undefined is read *)
  | MessageTooLong        (* Error("Message too long for this image: ...") *)
  | InvariantViolated.    (* Error("Invariant violated: bestPixel ...") *)

Inductive outcome (A : Type) : Type :=
  | Returned (a : A)
  | Thrown (e : error)
  | OutOfFuel.
Arguments Returned {A} a.
Arguments Thrown {A} e.
Arguments OutOfFuel {A}.

Definition bind {A B : Type} (m : outcome A) (f : A -> outcome B) : outcome B :=
  match m with
  | Returned a => f a
  | Thrown e => Thrown e
  | OutOfFuel => OutOfFuel
  end.

Notation "x <- m ;; k" := (bind m (fun x => k))
  (at level 61, m at next level, right associativity).

(* ================================================================== *)
(** * Strings: the built-ins the key format uses *)

Definition jsstring : Type := list ascii.

Definition str (s : string) : jsstring := list_ascii_of_string s.

(** The digit [d] (0..15) as [toString(16)] prints it. *)
Definition hex_char (d : Z) : ascii :=
  if d <? 10 then ascii_of_nat (48 + Z.to_nat d) else ascii_of_nat (87 + Z.to_nat d).

(** The value of a hexadecimal digit, either case. *)
Definition hex_value (c : ascii) : option Z :=
  let n := Z.of_nat (nat_of_ascii c) in
  if (48 <=? n) && (n <=? 57) then Some (n - 48)
  else if (97 <=? n) && (n <=? 102) then Some (n - 87)
  else if (65 <=? n) && (n <=? 70) then Some (n - 55)
  else None.

Fixpoint hex_digits (fuel : nat) (n : Z) (acc : jsstring) : jsstring :=
  match fuel with
  | O => acc
  | S f =>
      if n <? 16 then hex_char n :: acc
      else hex_digits f (n / 16) (hex_char (n mod 16) :: acc)
  end.

(** [n.toString(16)] for an integer [n >= 0]. *)
Definition nat_toString16 (n : Z) : jsstring :=
  hex_digits (S (Z.to_nat (Z.log2 n))) n [].

(** [n.toString(16)] *)
Definition toString16 (n : jsnum) : jsstring :=
  match n with
  | JInt z => if z <? 0 then "-"%char :: nat_toString16 (- z) else nat_toString16 z
  | JNegZero => str "0"
  | JNaN => str "NaN"
  | JPosInf => str "Infinity"
  | JNegInf => str "-Infinity"
  end.

(** [s.padStart(4, "0")] *)
Definition padStart4 (s : jsstring) : jsstring :=
  repeat "0"%char (4 - length s) ++ s.

(** White space of [trim] and [parseInt] (the ASCII part). *)
Definition is_space (c : ascii) : bool :=
  let n := nat_of_ascii c in
  ((9 <=? n) && (n <=? 13) || (n =? 32))%nat.

Fixpoint trim_start (s : jsstring) : jsstring :=
  match s with
  | [] => []
  | c :: rest => if is_space c then trim_start rest else s
  end.

(** [s.trim()] *)
Definition trim (s : jsstring) : jsstring := rev (trim_start (rev (trim_start s))).

(** [s.slice(a, b)] and [s.slice(a)] for constants [0 <= a <= b]. *)
Definition slice (a b : nat) (s : jsstring) : jsstring := firstn (b - a) (skipn a s).
Definition slice_from (a : nat) (s : jsstring) : jsstring := skipn a s.

(** The longest prefix of hexadecimal digits, as values. *)
Fixpoint hex_prefix (s : jsstring) : list Z :=
  match s with
  | [] => []
  | c :: rest =>
      match hex_value c with
      | Some d => d :: hex_prefix rest
      | None => []
      end
  end.

Definition hex_number (ds : list Z) : Z := fold_left (fun a d => 16 * a + d) ds 0.

(** [parseInt(s, 16)]: leading white space, a sign, an optional [0x], then
    the longest run of digits; [NaN] when there is none. (The result is
    exact here; JavaScript rounds above 2^53.) *)
Definition parseInt16 (s : jsstring) : jsnum :=
  let s1 := trim_start s in
  let '(neg, s2) :=
    match s1 with
    | c :: r =>
        if Ascii.eqb c "-" then (true, r)
        else if Ascii.eqb c "+" then (false, r)
        else (false, s1)
    | [] => (false, s1)
    end in
  let s3 :=
    match s2 with
    | c0 :: c1 :: r =>
        if Ascii.eqb c0 "0" && (Ascii.eqb c1 "x" || Ascii.eqb c1 "X") then r else s2
    | _ => s2
    end in
  match hex_prefix s3 with
  | [] => JNaN
  | ds =>
      let v := hex_number ds in
      if neg then (if v =? 0 then JNegZero else JInt (- v)) else JInt v
  end.

(** crypto-es [Hex.stringify], which [WordArray.toString()] calls: two
    digits per significant byte. *)
Definition Hex_stringify (wa : WordArray) : jsstring :=
  flat_map
    (fun i =>
       let bite := word_byte (words wa) i in
       nat_toString16 (ushr bite 4) ++ nat_toString16 (band bite 15))
    (seq 0 (Z.to_nat (sigBytes wa))).

(** crypto-es [Hex.parse]: for [i = 0, 2, 4, ...] below the length,
    [words[i >>> 3] |= parseInt(hexStr.substr(i, 2), 16) << (24 - (i % 8) * 4)];
    the word array has [length / 2] significant bytes (the engine passes 64
    characters). *)
Definition Hex_parse (s : jsstring) : WordArray :=
  mkWordArray
    (fold_left
       (fun ws k =>
          let i := (2 * k)%nat in
          array_set ws (i / 8)
            (bor (array_get ws (i / 8))
               (shl (num_to_int32 (parseInt16 (firstn 2 (skipn i s))))
                  (24 - Z.of_nat (i mod 8) * 4))))
       (seq 0 ((length s + 1) / 2)) [])
    (Z.of_nat (length s) / 2).

(* ================================================================== *)
(** * [StegHelpers]: the serialised key *)

Record StegKey : Type := mkStegKey {
  key : WordArray;
  firstPixelIndex : jsnum;
  aliasCount : jsnum;
  msgLength : jsnum
}.

(** [StegHelpers.packageKey] *)
Definition packageKey (keyObj : StegKey) : jsstring :=
  Hex_stringify (key keyObj)
  ++ padStart4 (toString16 (aliasCount keyObj))
  ++ padStart4 (toString16 (msgLength keyObj))
  ++ toString16 (firstPixelIndex keyObj).

(** [StegHelpers.unpackageKey] *)
Definition unpackageKey (packed : jsstring) : outcome StegKey :=
  let s := trim packed in
  if (length s <? 72)%nat then Thrown KeyTooShort
  else
    let keyHex := slice 0 64 s in
    let aliasHex := slice 64 68 s in
    let lenHex := slice 68 72 s in
    let firstHex := slice_from 72 s in
    Returned (mkStegKey (Hex_parse keyHex)
                (parseInt16 firstHex)
                (parseInt16 aliasHex)
                (parseInt16 lenHex)).

(* ================================================================== *)
(** * The external libraries *)

(** crypto-es. [HmacSHA256 message key] is the 32-byte tag;
    [AES_encrypt K data] stands for
    [AESAlgo.createEncryptor(K)] followed by
    [aes.process(data).concat(aes.finalize())], and [AES_decrypt] for the
    same with [createDecryptor]. *)
Class CryptoES : Type := {
  HmacSHA256 : WordArray -> WordArray -> WordArray;
  Utf8_parse : jsstring -> WordArray;
  AES_encrypt : WordArray -> WordArray -> WordArray;
  AES_decrypt : WordArray -> WordArray -> WordArray
}.

(** The ISAAC generator: [isaac.seed(s)] resets its state, [isaac.random()]
    returns a number and advances it. The number is kept as a rational. *)
Class Isaac : Type := {
  rng_state : Type;
  isaac_seed : jsstring -> rng_state;
  isaac_random : rng_state -> Q * rng_state
}.

(** [isaac.random()] lies in [0, 1). *)
Class IsaacUnit (I : Isaac) : Prop :=
  isaac_random_unit : forall g : rng_state, (0 <= fst (isaac_random g) /\ fst (isaac_random g) < 1)%Q.

(** [WordArray.create(bytes)] on a typed array runs the loop of
    [uint8ArrayToWordArray]. *)
Definition WordArray_create (bytes : list Z) : WordArray := uint8ArrayToWordArray bytes.

(* ================================================================== *)
(** * [StegPointer] and [StegPixel] *)

Definition POINTER_CHANNEL_COUNT : Z := 2.

(** The two bytes of a pointer ([Uint8ClampedArray] of length 2). *)
Record StegPointer : Type := mkStegPointer { ptr_hi : Z; ptr_lo : Z }.

(** The four channels of a pixel ([Uint8ClampedArray] of length 4). *)
Record Pixel : Type := mkPixel { chR : Z; chG : Z; chB : Z; chA : Z }.

Inductive PixelChannels : Type := RED | GREEN | BLUE | ALPHA.

(** [new StegPointer(pixel)]: channels 1 and 2. *)
Definition StegPointer_of_pixel (px : Pixel) : StegPointer :=
  mkStegPointer (chG px) (chB px).

Definition pointer_bytes (p : StegPointer) : list Z := [ptr_hi p; ptr_lo p].

(** [StegPointer.wordArray] *)
Definition wordArray (p : StegPointer) : WordArray := WordArray_create (pointer_bytes p).

(** [StegPointer.equals] *)
Definition StegPointer_equals (a b : StegPointer) : bool :=
  (ptr_hi a =? ptr_hi b) && (ptr_lo a =? ptr_lo b).

Record StegPixel : Type := mkStegPixel {
  bytes : Pixel;
  originalBytes : Pixel;
  index : Z;
  pointer : StegPointer
}.

(** [new StegPixel(pixel, index)] *)
Definition new_StegPixel (pixel : Pixel) (idx : Z) : StegPixel :=
  mkStegPixel pixel pixel idx (StegPointer_of_pixel pixel).

(** A store into a [Uint8ClampedArray]. *)
Definition clamp8 (v : Z) : Z := Z.max 0 (Z.min 255 v).

Definition set_channel (px : Pixel) (c : PixelChannels) (v : Z) : Pixel :=
  match c with
  | RED => mkPixel (clamp8 v) (chG px) (chB px) (chA px)
  | GREEN => mkPixel (chR px) (clamp8 v) (chB px) (chA px)
  | BLUE => mkPixel (chR px) (chG px) (clamp8 v) (chA px)
  | ALPHA => mkPixel (chR px) (chG px) (chB px) (clamp8 v)
  end.

(** [StegPixel.setChannel] *)
Definition setChannel (p : StegPixel) (channel : PixelChannels) (value : Z) : StegPixel :=
  let b := set_channel (bytes p) channel value in
  mkStegPixel b (originalBytes p) (index p) (StegPointer_of_pixel b).

(** [StegPixel.setPointer]: writes channels 1 and 2 only. *)
Definition setPointer (p : StegPixel) (ptr : StegPointer) : StegPixel :=
  let b := set_channel (set_channel (bytes p) GREEN (ptr_hi ptr)) BLUE (ptr_lo ptr) in
  mkStegPixel b (originalBytes p) (index p) ptr.

(** The sum under the square root of [StegPixel.similarity]. The code
    compares [Math.sqrt] of these sums; the square root is strictly
    increasing, so the comparisons are those of the sums. *)
Definition similarity_sq (a b : StegPixel) : Z :=
  (chR (bytes a) - chR (bytes b)) ^ 2 + (chG (bytes a) - chG (bytes b)) ^ 2
  + (chB (bytes a) - chB (bytes b)) ^ 2 + (chA (bytes a) - chA (bytes b)) ^ 2.

(* ================================================================== *)
(** * [StegImage] *)

Record StegImage : Type := mkStegImage {
  width : Z;
  height : Z;
  channels : list Z
}.

(** A store into a typed array: ignored out of range. *)
Fixpoint typed_set (arr : list Z) (j : nat) (v : Z) : list Z :=
  match arr, j with
  | [], _ => []
  | _ :: rest, O => v :: rest
  | x :: rest, S j' => x :: typed_set rest j' v
  end.

(** A read of a typed array, then stored in a pixel: 0 out of range. *)
Definition typed_get (arr : list Z) (j : nat) : Z := nth j arr 0.

(** [StegImage.getPixelAt] *)
Definition getPixelAt (img : StegImage) (idx : Z) : outcome StegPixel :=
  let pixelCount := width img * height img in
  if (idx <? 0) || (idx >=? pixelCount) then Thrown PixelIndexOutOfRange
  else
    let channelIndex := Z.to_nat (idx * 4) in
    Returned (new_StegPixel
                (mkPixel (typed_get (channels img) (channelIndex + 0))
                         (typed_get (channels img) (channelIndex + 1))
                         (typed_get (channels img) (channelIndex + 2))
                         (typed_get (channels img) (channelIndex + 3)))
                idx).

(** [StegImage.setPixelAt] *)
Definition setPixelAt (img : StegImage) (pixel : StegPixel) : outcome StegImage :=
  let pixelCount := width img * height img in
  if (index pixel <? 0) || (index pixel >=? pixelCount) then Thrown PixelIndexOutOfRange
  else
    let channelIndex := Z.to_nat (index pixel * 4) in
    let c0 := typed_set (channels img) (channelIndex + 0) (chR (bytes pixel)) in
    let c1 := typed_set c0 (channelIndex + 1) (chG (bytes pixel)) in
    let c2 := typed_set c1 (channelIndex + 2) (chB (bytes pixel)) in
    let c3 := typed_set c2 (channelIndex + 3) (chA (bytes pixel)) in
    Returned (mkStegImage (width img) (height img) c3).

(** The alpha byte of pixel [idx]. *)
Definition alpha_at (img : StegImage) (idx : nat) : Z := typed_get (channels img) (4 * idx + 3).

(* ================================================================== *)
(** * Candidate selection, shared by encoder and decoder *)

(** [Set.add]: a JavaScript [Set] keeps insertion order. *)
Definition set_add (x : Z) (s : list Z) : list Z :=
  if existsb (Z.eqb x) s then s else s ++ [x].

(** [Array.from(xs, f)] for an [f] that may throw. *)
Fixpoint map_outcome {A B : Type} (f : A -> outcome B) (xs : list A) : outcome (list B) :=
  match xs with
  | [] => Returned []
  | x :: rest =>
      y <- f x ;;
      ys <- map_outcome f rest ;;
      Returned (y :: ys)
  end.

Section Selection.
Context {I : Isaac}.

(** [while (uniqueIndices.size < target)
       uniqueIndices.add(Math.floor(isaac.random() * pixelCount))] *)
Fixpoint select_indices (fuel : nat) (target : jsnum) (pixelCount : Z)
    (g : rng_state) (uniqueIndices : list Z) : outcome (list Z) :=
  if js_lt (JInt (Z.of_nat (length uniqueIndices))) target then
    match fuel with
    | O => OutOfFuel
    | S fuel' =>
        let '(r, g') := isaac_random g in
        select_indices fuel' target pixelCount g'
          (set_add (Qfloor (r * inject_Z pixelCount)) uniqueIndices)
    end
  else Returned uniqueIndices.

End Selection.

(* ================================================================== *)
(** * [StegHelpers]: cryptographic helpers *)

Section Helpers.
Context {C : CryptoES}.

(** [StegHelpers.aes_encrypt] *)
Definition aes_encrypt (K : WordArray) (msg : jsstring) : list Z :=
  wordArrayToUint8Array (AES_encrypt K (Utf8_parse msg)).

(** [StegHelpers.aes_decrypt] *)
Definition aes_decrypt (K : WordArray) (ciphertextBytes : list Z) : WordArray :=
  AES_decrypt K (uint8ArrayToWordArray ciphertextBytes).

(** [StegHelpers.next_pixel_idx]; [%] by zero is [NaN]. *)
Definition next_pixel_idx (K p : WordArray) (S_len : Z) : jsnum :=
  let mac := HmacSHA256 p K in
  let word := array_get (words mac) 0 in
  let first_16_bits := band (ushr word 16) 65535 in
  if S_len =? 0 then JNaN else JInt (Z.rem first_16_bits S_len).

End Helpers.

(* ================================================================== *)
(** * [StegEncoder] *)

Definition DEFAULT_TOTAL_POINTERS : Z := 2 ^ (8 * POINTER_CHANNEL_COUNT).
Definition DEFAULT_POINTER_ALIASES : jsnum := JInt 32.

(** The encoder object; its image is already prepared (decoded to RGBA). *)
Record StegEncoder : Type := mkStegEncoder {
  enc_image : StegImage;
  enc_message : jsstring;
  enc_key : WordArray;
  enc_aliasCount : jsnum
}.

(** Every pointer value, in increasing order:
    [new StegPointer(new Uint8ClampedArray([(p >> 8) & 0xFF, p & 0xFF]))]. *)
Definition pointer_of_value (p : Z) : StegPointer :=
  mkStegPointer (band (sar p 8) 255) (band p 255).

(** [start], [start + 1], ..., [count] values. *)
Fixpoint zrange (start : Z) (count : nat) : list Z :=
  match count with
  | O => []
  | S c => start :: zrange (start + 1) c
  end.

Definition allPointers : list StegPointer :=
  map pointer_of_value (zrange 0 (Z.to_nat DEFAULT_TOTAL_POINTERS)).

(** Lines 124-130: the alias count and the number of encodable positions
    that encode goes on with. *)
Definition renegotiate (aliasCount : jsnum) (L : Z) : jsnum * jsnum :=
  let effectiveEncodingPixelsCount := floor_div DEFAULT_TOTAL_POINTERS aliasCount in
  if js_lt effectiveEncodingPixelsCount (JInt L) then
    let effectiveAliasCount := js_max1 (floor_div DEFAULT_TOTAL_POINTERS (JInt L)) in
    (effectiveAliasCount, floor_div DEFAULT_TOTAL_POINTERS effectiveAliasCount)
  else (aliasCount, effectiveEncodingPixelsCount).

(** [pixels.findIndex(p => p.index === idx)], -1 when there is none. *)
Fixpoint findIndex_from (i : Z) (pixels : list StegPixel) (idx : Z) : Z :=
  match pixels with
  | [] => -1
  | p :: rest => if index p =? idx then i else findIndex_from (i + 1) rest idx
  end.
Definition findIndex (pixels : list StegPixel) (idx : Z) : Z := findIndex_from 0 pixels idx.

(** [Array.prototype.sort] is stable; with a comparator [key(a) - key(b)]
    it is the stable sort by [key]. *)
Fixpoint insert_by {A : Type} (k : A -> Z) (x : A) (l : list A) : list A :=
  match l with
  | [] => [x]
  | y :: rest => if k x <=? k y then x :: l else y :: insert_by k x rest
  end.
Definition stable_sort_by {A : Type} (k : A -> Z) (l : list A) : list A :=
  fold_right (insert_by k) [] l.

(** [Math.abs(px.bytes[RED] - byte)]; with [byte] undefined every
    comparison is [NaN], which [sort] reads as "equal". *)
Definition red_distance (byte : option Z) (px : StegPixel) : Z :=
  match byte with
  | Some b => Z.abs (chR (bytes px) - b)
  | None => 0
  end.

(** Two entries of [encodablePixels] are the same object exactly when they
    carry the same image index: there is one object per selected index. *)
Definition same_object (p q : StegPixel) : bool := index p =? index q.

(** Lines 183-191. *)
Definition candidatePixels (encodablePixels : list StegPixel) (byte : Z) : list StegPixel :=
  let exactMatchPixels := filter (fun pixel => chR (bytes pixel) =? byte) encodablePixels in
  let fallbackPixels :=
    stable_sort_by (red_distance (Some byte))
      (filter (fun p => negb (existsb (same_object p) exactMatchPixels)) encodablePixels) in
  exactMatchPixels ++ fallbackPixels.

(** [bestPixel], [bestPixelDistance] (squared) and [bestPos]; [None] is the
    initial [null], [Infinity], [null]. *)
Definition best : Type := option (StegPixel * Z * Z).

Definition improves (d : Z) (b : best) : bool :=
  match b with
  | None => true
  | Some (_, bd, _) => d <? bd
  end.

Inductive loop_ctl : Type :=
  | Continue (b : best)
  | BreakOuter (b : best).

(** Lines 218-243: the pointers tried on one candidate. *)
Fixpoint try_pointers (byte : Z) (original : StegPixel) (pos : Z)
    (ptrs : list StegPointer) (b : best) : loop_ctl :=
  match ptrs with
  | [] => Continue b
  | possiblePtr :: rest =>
      if (chR (bytes original) =? byte) && StegPointer_equals (pointer original) possiblePtr
      then BreakOuter (Some (original, 0, pos))
      else
        let modifiedPixel :=
          setPointer (setChannel (new_StegPixel (bytes original) (index original)) RED byte)
            possiblePtr in
        let modifiedPixelDistance := similarity_sq original modifiedPixel in
        try_pointers byte original pos rest
          (if improves modifiedPixelDistance b
           then Some (modifiedPixel, modifiedPixelDistance, pos) else b)
  end.

(** Lines 208-245: the candidates in order, used positions skipped. *)
Fixpoint scan_candidates (encodablePixels : list StegPixel) (usedPositions : list Z)
    (byte : Z) (ptrs : list StegPointer) (cands : list StegPixel) (b : best) : best :=
  match cands with
  | [] => b
  | pixel :: rest =>
      let pos := findIndex encodablePixels (index pixel) in
      if (pos =? -1) || existsb (Z.eqb pos) usedPositions
      then scan_candidates encodablePixels usedPositions byte ptrs rest b
      else
        match try_pointers byte pixel pos ptrs b with
        | BreakOuter b' => b'
        | Continue b' => scan_candidates encodablePixels usedPositions byte ptrs rest b'
        end
  end.

Section Encoder.
Context {C : CryptoES} {I : Isaac}.

(** Lines 195-201. *)
Definition possiblePreviousPointers (K : WordArray) (S_len : Z) (currentPos : Z)
    : list StegPointer :=
  filter (fun p => jsnum_eqb (next_pixel_idx K (wordArray p) S_len) (JInt currentPos))
    allPointers.

(** One pass of the backward loop (lines 179-250), before the commit. *)
Definition encode_step (K : WordArray) (encodablePixels : list StegPixel)
    (usedPositions : list Z) (currentPos : Z) (byte : Z) : best :=
  scan_candidates encodablePixels usedPositions byte
    (possiblePreviousPointers K (Z.of_nat (length encodablePixels)) currentPos)
    (candidatePixels encodablePixels byte) None.

(** Lines 175-261, over the bytes [msg_e[L-2]], ..., [msg_e[0]]. *)
Fixpoint chain_loop (K : WordArray) (encodablePixels : list StegPixel)
    (bytes_back : list Z) (currentPos : Z) (usedPositions : list Z)
    (encodedPixels : list StegPixel) : outcome (Z * list StegPixel) :=
  match bytes_back with
  | [] => Returned (currentPos, encodedPixels)
  | byte :: rest =>
      match encode_step K encodablePixels usedPositions currentPos byte with
      | None => Thrown InvariantViolated
      | Some (bestPixel, _, bestPos) =>
          chain_loop K encodablePixels rest bestPos (bestPos :: usedPositions)
            (encodedPixels ++ [bestPixel])
      end
  end.

(** Lines 119-145: the effective alias count and the selected image
    indices, in the order the generator gave them. *)
Definition encoder_selection (fuel : nat) (enc : StegEncoder) : outcome (jsnum * list Z) :=
  let K := enc_key enc in
  let msg_e := aes_encrypt K (enc_message enc) in
  let L := Z.of_nat (length msg_e) in
  let '(effectiveAliasCount, effectiveEncodingPixelsCount) :=
    renegotiate (enc_aliasCount enc) L in
  let g := isaac_seed (Hex_stringify K) in
  let pixelCount := width (enc_image enc) * height (enc_image enc) in
  if L >? pixelCount then Thrown MessageTooLong
  else
    let targetCount := js_min effectiveEncodingPixelsCount pixelCount in
    uniqueIndices <- select_indices fuel targetCount pixelCount g [] ;;
    Returned (effectiveAliasCount, uniqueIndices).

(** What [encode] has when the chain is built (line 261): the encoded
    pixels, the effective alias count, the position of the first chain
    node and the ciphertext length. The image is not written yet. *)
Definition build_chain (fuel : nat) (enc : StegEncoder)
    : outcome (list StegPixel * jsnum * Z * Z) :=
  let K := enc_key enc in
  let msg_e := aes_encrypt K (enc_message enc) in
  let L := Z.of_nat (length msg_e) in
  selection <- encoder_selection fuel enc ;;
  let effectiveAliasCount := fst selection in
  encodablePixels <- map_outcome (getPixelAt (enc_image enc)) (snd selection) ;;
  let lastByte := nth_error msg_e (length msg_e - 1) in
  match stable_sort_by (red_distance lastByte) encodablePixels with
  | [] => Thrown UndefinedAccess
  | closest :: _ =>
      (* setChannel mutates the object that encodablePixels also holds *)
      let currentPixel :=
        setChannel closest RED (match lastByte with Some b => b | None => 0 end) in
      let encodablePixels :=
        map (fun p => if same_object p closest then currentPixel else p) encodablePixels in
      let currentPos := findIndex encodablePixels (index currentPixel) in
      chained <-
        chain_loop K encodablePixels (rev (removelast msg_e)) currentPos
          [currentPos] [currentPixel] ;;
      Returned (snd chained, effectiveAliasCount, fst chained, L)
  end.

(** Line 265: [encodedPixels.forEach(pixel => this.image.setPixelAt(pixel))],
    with the image as it is when a store throws. *)
Fixpoint write_pixels (img : StegImage) (pixels : list StegPixel) : outcome unit * StegImage :=
  match pixels with
  | [] => (Returned tt, img)
  | pixel :: rest =>
      match setPixelAt img pixel with
      | Returned img' => write_pixels img' rest
      | Thrown e => (Thrown e, img)
      | OutOfFuel => (OutOfFuel, img)
      end
  end.

(** [StegEncoder.encode]: the serialised key it returns (or the error it
    throws) and the state of [this.image] afterwards. Progress reports,
    debug output and statistics are left out. *)
Definition encode (fuel : nat) (enc : StegEncoder) : outcome jsstring * StegImage :=
  match build_chain fuel enc with
  | Returned (encodedPixels, effectiveAliasCount, currentPos, L) =>
      match write_pixels (enc_image enc) encodedPixels with
      | (Returned _, img) =>
          (Returned (packageKey (mkStegKey (enc_key enc) (JInt currentPos)
                                   effectiveAliasCount (JInt L))), img)
      | (Thrown e, img) => (Thrown e, img)
      | (OutOfFuel, img) => (OutOfFuel, img)
      end
  | Thrown e => (Thrown e, enc_image enc)
  | OutOfFuel => (OutOfFuel, enc_image enc)
  end.

End Encoder.

(* ================================================================== *)
(** * [StegDecoder] *)

Record StegDecoder : Type := mkStegDecoder {
  dec_image : StegImage;
  dec_key : WordArray;
  dec_firstPixelIndex : jsnum;
  dec_aliasCount : jsnum;
  dec_msgLength : jsnum;
  dec_encodingPixelsCount : jsnum
}.

(** [new StegDecoder(image, key)] *)
Definition new_StegDecoder (image : StegImage) (packed : jsstring) : outcome StegDecoder :=
  unpackagedKey <- unpackageKey packed ;;
  Returned (mkStegDecoder image (key unpackagedKey)
              (firstPixelIndex unpackagedKey)
              (aliasCount unpackagedKey)
              (msgLength unpackagedKey)
              (floor_div DEFAULT_TOTAL_POINTERS (aliasCount unpackagedKey))).

(** The length of [new Uint8Array(n)]. *)
Definition typed_array_length (n : jsnum) : outcome nat :=
  match n with
  | JInt z => if z <? 0 then Thrown InvalidArrayLength else Returned (Z.to_nat z)
  | JNegZero | JNaN => Returned O
  | JPosInf | JNegInf => Thrown InvalidArrayLength
  end.

(** [arr[n]]: [undefined] unless [n] is an index of the array. *)
Definition array_at {A : Type} (arr : list A) (n : jsnum) : option A :=
  match n with
  | JInt z => if z <? 0 then None else nth_error arr (Z.to_nat z)
  | JNegZero => nth_error arr 0
  | _ => None
  end.

Section Decoder.
Context {C : CryptoES} {I : Isaac}.

(** Lines 64-66, [n] times. *)
Fixpoint walk_chain (K : WordArray) (decodablePixels : list StegPixel) (n : nat)
    (currentPixel : option StegPixel) : outcome (list Z) :=
  match n with
  | O => Returned []
  | S n' =>
      match currentPixel with
      | None => Thrown UndefinedAccess
      | Some px =>
          rest <- walk_chain K decodablePixels n'
                    (array_at decodablePixels
                       (next_pixel_idx K (wordArray (pointer px))
                          (Z.of_nat (length decodablePixels)))) ;;
          Returned (chR (bytes px) :: rest)
      end
  end.

(** Lines 50-54: the image indices the decoder selects. *)
Definition decoder_selection (fuel : nat) (dec : StegDecoder) : outcome (list Z) :=
  let g := isaac_seed (Hex_stringify (dec_key dec)) in
  let pixelCount := width (dec_image dec) * height (dec_image dec) in
  select_indices fuel (dec_encodingPixelsCount dec) pixelCount g [].

(** The ciphertext bytes the decoder extracts (lines 50-68). *)
Definition extract (fuel : nat) (dec : StegDecoder) : outcome (list Z) :=
  uniqueIndices <- decoder_selection fuel dec ;;
  decodablePixels <- map_outcome (getPixelAt (dec_image dec)) uniqueIndices ;;
  n <- typed_array_length (dec_msgLength dec) ;;
  walk_chain (dec_key dec) decodablePixels n
    (array_at decodablePixels (dec_firstPixelIndex dec)).

(** [StegDecoder.decode] *)
Definition decode (fuel : nat) (dec : StegDecoder) : outcome WordArray :=
  msg_e <- extract fuel dec ;;
  Returned (aes_decrypt (dec_key dec) msg_e).

End Decoder.

(* ================================================================== *)
(** * [StegPointer] and [StegPixel]: the remaining members *)

(** [new StegPointer(from)] for a typed array of any length: channels 1
    and 2 of an array longer than a pointer, a copy of an array of two
    bytes, and [None] for the [RangeError] on a shorter one. *)
Definition new_StegPointer (from : list Z) : option StegPointer :=
  match from with
  | [a; b] => Some (mkStegPointer a b)
  | _ :: a :: b :: _ => Some (mkStegPointer a b)
  | _ => None
  end.

(** The sum under the square root of [StegPointer.similarity]; two
    pointers always have the same length, so its [RangeError] is never
    thrown. *)
Definition StegPointer_similarity_sq (a b : StegPointer) : Z :=
  (ptr_hi a - ptr_hi b) ^ 2 + (ptr_lo a - ptr_lo b) ^ 2.

Definition pixel_channels (px : Pixel) : list Z := [chR px; chG px; chB px; chA px].

(** [new StegPixel(pixel, index)] for a typed array of any length: the
    bytes are a copy of [pixel] only when it has four channels, and four
    zeros otherwise; the pointer is built from [pixel] itself. *)
Definition new_StegPixel_of (pixel : list Z) (idx : Z) : option StegPixel :=
  let b :=
    match pixel with
    | [r; g; b; a] => mkPixel r g b a
    | _ => mkPixel 0 0 0 0
    end in
  match new_StegPointer pixel with
  | Some ptr => Some (mkStegPixel b b idx ptr)
  | None => None
  end.

(** [StegPixel.equals] *)
Definition StegPixel_equals (a b : StegPixel) : bool :=
  forallb (fun vo => fst vo =? snd vo)
    (combine (pixel_channels (bytes a)) (pixel_channels (bytes b))).

(** [StegPixel.includedInPixelArray], [excludedFromPixelArray],
    [includesIndex] and [excludesIndex]. *)
Definition includedInPixelArray (array : list StegPixel) (item : StegPixel) : bool :=
  match find (fun pixel => StegPixel_equals pixel item) array with
  | Some _ => true
  | None => false
  end.
Definition excludedFromPixelArray (array : list StegPixel) (item : StegPixel) : bool :=
  negb (includedInPixelArray array item).
Definition includesIndex (array : list StegPixel) (idx : Z) : bool :=
  existsb (fun pixel => index pixel =? idx) array.
Definition excludesIndex (array : list StegPixel) (idx : Z) : bool :=
  negb (includesIndex array idx).

(** [StegPixel.modified] *)
Definition modified (p : StegPixel) : bool :=
  existsb (fun vo => negb (fst vo =? snd vo))
    (combine (pixel_channels (bytes p)) (pixel_channels (originalBytes p))).

(* ================================================================== *)
(** * [StegEncoder]: statistics *)

Record EncodeStats : Type := mkEncodeStats {
  pixelsTotal : Z;
  pixelsEncoded : Z;
  pixelsModified : Z;
  channelsModified : Z;
  bytesModified : Z;
  percentPixelsModified : Q
}.

(** [Map.set(k, v)]: the value of a key already present is replaced where
    it stands, a new key is appended. *)
Fixpoint map_set (m : list (Z * StegPixel)) (k : Z) (v : StegPixel) : list (Z * StegPixel) :=
  match m with
  | [] => [(k, v)]
  | (k', v') :: rest => if k' =? k then (k', v) :: rest else (k', v') :: map_set rest k v
  end.

(** Lines 72-81 for one pixel: the channels whose byte differs from the
    original one. *)
Definition changed_channels (p : StegPixel) : Z :=
  fold_left (fun n vo => if fst vo =? snd vo then n else n + 1)
    (combine (pixel_channels (originalBytes p)) (pixel_channels (bytes p))) 0.

(** Lines 64-68: the final pixel of each index, in the order the indices
    were first met. *)
Definition uniquePixels (encodedPixels : list StegPixel) : list StegPixel :=
  let indexToPixel := fold_left (fun m p => map_set m (index p) p) encodedPixels [] in
  map snd indexToPixel.

(** [StegEncoder.computeEncodeStats]. The percentage is kept as the exact
    quotient; the code holds the double nearest to it. *)
Definition computeEncodeStats (image : StegImage) (encodedPixels : list StegPixel)
    : EncodeStats :=
  let uniquePixels := uniquePixels encodedPixels in
  let pixelsEncoded := Z.of_nat (length uniquePixels) in
  let pixelsModified :=
    fold_left (fun acc p => acc + (if modified p then 1 else 0)) uniquePixels 0 in
  let channelsModified := fold_left (fun acc p => acc + changed_channels p) uniquePixels 0 in
  let pixelsTotal := width image * height image in
  mkEncodeStats pixelsTotal pixelsEncoded pixelsModified channelsModified channelsModified
    (if pixelsTotal >? 0
     then (inject_Z pixelsModified / inject_Z pixelsTotal * inject_Z 100)%Q
     else 0%Q).

Section EncoderStats.
Context {C : CryptoES} {I : Isaac}.

(** [StegEncoder.encode] with the statistics it returns beside the key
    (lines 265-288); the PNG bytes are those of [this.image]. *)
Definition encode_with_stats (fuel : nat) (enc : StegEncoder)
    : outcome (jsstring * EncodeStats) * StegImage :=
  match build_chain fuel enc with
  | Returned (encodedPixels, effectiveAliasCount, currentPos, L) =>
      match write_pixels (enc_image enc) encodedPixels with
      | (Returned _, img) =>
          (Returned (packageKey (mkStegKey (enc_key enc) (JInt currentPos)
                                   effectiveAliasCount (JInt L)),
                     computeEncodeStats img encodedPixels), img)
      | (Thrown e, img) => (Thrown e, img)
      | (OutOfFuel, img) => (OutOfFuel, img)
      end
  | Thrown e => (Thrown e, enc_image enc)
  | OutOfFuel => (OutOfFuel, enc_image enc)
  end.

End EncoderStats.

(* ================================================================== *)
(** * [HistogramComparison] *)

Record HistogramData : Type := mkHistogramData {
  hist_r : list Z;
  hist_g : list Z;
  hist_b : list Z
}.

(** [arr[v]++] on the 256 counters, for [v] read from the image data (a
    [Uint8ClampedArray]): a byte, which is an index of the counters, or
    [undefined] past the end of the data, for which [arr[undefined]++]
    leaves the counters as they are. *)
Fixpoint increment (arr : list Z) (j : nat) : list Z :=
  match arr, j with
  | [], _ => []
  | x :: rest, O => (x + 1) :: rest
  | x :: rest, S j' => x :: increment rest j'
  end.
Definition bump (arr : list Z) (v : option Z) : list Z :=
  match v with
  | Some v => if v <? 0 then arr else increment arr (Z.to_nat v)
  | None => arr
  end.

(** Lines 48-52: [for (i = 0; i < data.length; i += 4)
    { r[data[i]]++; g[data[i + 1]]++; b[data[i + 2]]++; }] *)
Fixpoint count_channels (data : list Z) (h : HistogramData) : HistogramData :=
  match data with
  | [] => h
  | r :: rest =>
      let h' :=
        mkHistogramData (bump (hist_r h) (Some r))
                        (bump (hist_g h) (nth_error rest 0))
                        (bump (hist_b h) (nth_error rest 1)) in
      match rest with
      | _ :: _ :: _ :: rest' => count_channels rest' h'
      | _ => h'
      end
  end.

(** The histogram [computeHistogram] resolves with, from the data of the
    drawn image (lines 44-53). *)
Definition histogram_of (data : list Z) : HistogramData :=
  count_channels data
    (mkHistogramData (repeat 0 256) (repeat 0 256) (repeat 0 256)).

Inductive channel_choice : Type := ch_rgb | ch_r | ch_g | ch_b.
Inductive view_mode : Type := overlay | difference.

(** One row of the chart. [None] is a property that is absent or
    [undefined]; a difference with an [undefined] count is [NaN]. *)
Record ChartItem : Type := mkChartItem {
  intensity : Z;
  rOriginal : option Z; rModified : option Z;
  gOriginal : option Z; gModified : option Z;
  bOriginal : option Z; bModified : option Z;
  rDiff : option jsnum; gDiff : option jsnum; bDiff : option jsnum
}.

(** [a - b] where either may be [undefined]. *)
Definition js_sub (a b : option Z) : jsnum :=
  match a, b with
  | Some x, Some y => JInt (x - y)
  | _, _ => JNaN
  end.

(** The [chartData] of the component (lines 82-119). *)
Definition chartData (originalHist modifiedHist : option HistogramData)
    (channel : channel_choice) (viewMode : view_mode) : list ChartItem :=
  map
    (fun i =>
       let n := Z.to_nat i in
       let shows (c : channel_choice) :=
         match channel, c with
         | ch_rgb, _ | ch_r, ch_r | ch_g, ch_g | ch_b, ch_b => true
         | _, _ => false
         end in
       match originalHist, modifiedHist with
       | Some o, Some m =>
           match viewMode with
           | overlay =>
               mkChartItem i
                 (if shows ch_r then nth_error (hist_r o) n else None)
                 (if shows ch_r then nth_error (hist_r m) n else None)
                 (if shows ch_g then nth_error (hist_g o) n else None)
                 (if shows ch_g then nth_error (hist_g m) n else None)
                 (if shows ch_b then nth_error (hist_b o) n else None)
                 (if shows ch_b then nth_error (hist_b m) n else None)
                 None None None
           | difference =>
               mkChartItem i None None None None None None
                 (if shows ch_r
                  then Some (js_sub (nth_error (hist_r m) n) (nth_error (hist_r o) n))
                  else None)
                 (if shows ch_g
                  then Some (js_sub (nth_error (hist_g m) n) (nth_error (hist_g o) n))
                  else None)
                 (if shows ch_b
                  then Some (js_sub (nth_error (hist_b m) n) (nth_error (hist_b o) n))
                  else None)
           end
       | _, _ => mkChartItem i None None None None None None None None None
       end)
    (zrange 0 256).

(* ================================================================== *)
(** * [App]: the recommended alias count *)

(** [Number.isFinite] *)
Definition is_finite (n : jsnum) : bool :=
  match n with
  | JInt _ | JNegZero => true
  | _ => false
  end.

Section App.

(** [Math.ceil(msgLen * (1 + overhead / 100))], a computation on doubles:
    an integer, a zero, an infinity or [NaN]. *)
Variable ceil_scaled : Z -> jsnum -> jsnum.

(** [computeRecommendedAliasCount] *)
Definition computeRecommendedAliasCount (msgLen : Z) (overhead : jsnum) : jsnum :=
  if msgLen <=? 0 then DEFAULT_POINTER_ALIASES
  else
    let desiredEncodablePixels := js_max1 (ceil_scaled msgLen overhead) in
    let alias := floor_div DEFAULT_TOTAL_POINTERS desiredEncodablePixels in
    let alias := if negb (is_finite alias) || js_lt alias (JInt 1) then JInt 1 else alias in
    let alias :=
      if js_lt (JInt DEFAULT_TOTAL_POINTERS) alias then JInt DEFAULT_TOTAL_POINTERS else alias in
    alias.

End App.

(** The [encodingPixelsCount] the page shows:
    [Math.floor(Q / Math.max(1, aliasAuto ? recommendedAlias : aliasCount))]. *)
Definition encodingPixelsCount (aliasAuto : bool) (recommendedAlias aliasCount : jsnum)
    : jsnum :=
  floor_div DEFAULT_TOTAL_POINTERS (js_max1 (if aliasAuto then recommendedAlias else aliasCount)).

(* ================================================================== *)
(** * Vocabulary of the properties *)

(** ** Well-formed values *)

Definition is_int32 (w : Z) : Prop := - 2 ^ 31 <= w < 2 ^ 31.

(** A 256-bit key as crypto-es holds it: eight 32-bit words. *)
Definition is_key256 (K : WordArray) : Prop :=
  sigBytes K = 32 /\ length (words K) = 8%nat /\ Forall is_int32 (words K).

Definition is_digit16 (d : Z) : Prop := 0 <= d < 16.

(** The two hexadecimal digits of each byte. *)
Definition nibbles (bs : list Z) : list Z := flat_map (fun b => [b / 16; b mod 16]) bs.

(** An index of a pixel of the image. *)
Definition in_image (pixelCount : Z) (idx : Z) : Prop := 0 <= idx < pixelCount.

(** A pointer whose two bytes are bytes. *)
Definition pointer_ok (ptr : StegPointer) : Prop := Forall is_byte (pointer_bytes ptr).

(** A pixel object whose pointer is the one its bytes spell. *)
Definition pixel_ok (px : StegPixel) : Prop := pointer px = StegPointer_of_pixel (bytes px).

(** The pixel carries the alpha byte the image has at its index. *)
Definition alpha_ok (img : StegImage) (px : StegPixel) : Prop :=
  chA (bytes px) = typed_get (channels img) (Z.to_nat (index px * 4) + 3).

(** ** Pointer resolution *)

Section PointerVocabulary.
Context {C : CryptoES}.

(** The pointer-resolution function in the words of the specification:
    the first two bytes of the tag, read as a big-endian 16-bit unsigned
    integer, modulo the size of the candidate set. *)
Definition next_spec (K p : WordArray) (S_len : Z) : Z :=
  let tag := words (HmacSHA256 p K) in
  (word_byte tag 0 * 256 + word_byte tag 1) mod S_len.

(** Every position of a candidate set of size [n] is the target of some
    pointer value. *)
Definition pointers_cover (K : WordArray) (n : Z) : Prop :=
  forall pos, 0 <= pos < n -> possiblePreviousPointers K n pos <> [].

End PointerVocabulary.

(** ** One backward step as a minimum over an explicit order *)

Definition trial_t : Type := (StegPixel * Z * Z)%type.
Definition dist_of (t : trial_t) : Z := snd (fst t).

Definition keep_min (b : best) (t : trial_t) : best :=
  if improves (dist_of t) b then Some t else b.

(** The first trial of least distance. *)
Definition first_min (ts : list trial_t) : best := fold_left keep_min ts None.

Definition is_zero (b : best) : Prop := exists px pos, b = Some (px, 0, pos).
Definition is_positive (b : best) : Prop :=
  b = None \/ exists px d pos, b = Some (px, d, pos) /\ 0 < d.

(** The test of lines 220: nothing to change on this pixel. *)
Definition is_perfect (byte : Z) (original : StegPixel) (ptr : StegPointer) : bool :=
  (chR (bytes original) =? byte) && StegPointer_equals (pointer original) ptr.

(** The pixel of lines 231-233: [byte] in R, the pointer in G and B. *)
Definition modified_pixel (original : StegPixel) (byte : Z) (ptr : StegPointer) : StegPixel :=
  setPointer (setChannel (new_StegPixel (bytes original) (index original)) RED byte) ptr.

(** What one pass of the pointer loop offers as best candidate. *)
Definition trial (byte : Z) (original : StegPixel) (pos : Z) (ptr : StegPointer) : trial_t :=
  if is_perfect byte original ptr then (original, 0, pos)
  else (modified_pixel original byte ptr,
        similarity_sq original (modified_pixel original byte ptr), pos).

(** The red byte of the pixel at position [pos] of the candidate set. *)
Definition red_at (pixels : list StegPixel) (pos : Z) : Z :=
  match nth_error pixels (Z.to_nat pos) with
  | Some px => chR (bytes px)
  | None => 0
  end.

(** The order in which positions are visited: the positions whose red
    byte equals [byte], in the order of the set, then the others by
    ascending [|R - byte|] (ties in the order of the set). *)
Definition position_order (pixels : list StegPixel) (byte : Z) : list Z :=
  let positions := zrange 0 (length pixels) in
  filter (fun pos => red_at pixels pos =? byte) positions
  ++ stable_sort_by (fun pos => Z.abs (red_at pixels pos - byte))
       (filter (fun pos => negb (red_at pixels pos =? byte)) positions).

(** The (position, pointer) pairs tried, in order: unused positions in
    [position_order], each with the given pointers in their order. *)
Definition pair_order (pixels : list StegPixel) (used : list Z) (byte : Z)
    (ptrs : list StegPointer) : list (Z * StegPointer) :=
  flat_map
    (fun pos => if existsb (Z.eqb pos) used then [] else map (pair pos) ptrs)
    (position_order pixels byte).


Definition trial_at (pixels : list StegPixel) (byte : Z) (o : Z * StegPointer) : trial_t :=
  match nth_error pixels (Z.to_nat (fst o)) with
  | Some px => trial byte px (fst o) (snd o)
  | None => (new_StegPixel (mkPixel 0 0 0 0) 0, 0, fst o)
  end.

(** The position of a pixel object in the candidate set. *)
Definition pos_of (pixels : list StegPixel) (px : StegPixel) : Z := findIndex pixels (index px).

Section StepVocabulary.
Context {C : CryptoES}.

(** The (position, pointer) pairs of one backward step, in the order the
    encoder tries them: unused positions in [position_order], each with
    the pointers that resolve to [currentPos], in increasing order. *)
Definition iteration_order (K : WordArray) (pixels : list StegPixel) (used : list Z)
    (currentPos byte : Z) : list (Z * StegPointer) :=
  pair_order pixels used byte
    (possiblePreviousPointers K (Z.of_nat (length pixels)) currentPos).

End StepVocabulary.

(** A best candidate comes from pixel [c] when it has its index and its
    alpha byte, and sits at the position of [c] in the candidate set, a
    position that is not used. *)
Definition comes_from (pixels : list StegPixel) (used : list Z) (c : StegPixel)
    (b : StegPixel * Z * Z) : Prop :=
  index (fst (fst b)) = index c /\ chA (bytes (fst (fst b))) = chA (bytes c) /\
  snd b = findIndex pixels (index c) /\ snd b <> -1 /\
  existsb (Z.eqb (snd b)) used = false.

Definition best_from (pixels : list StegPixel) (used : list Z) (cands : list StegPixel)
    (b0 b : best) : Prop :=
  b = b0 \/ exists t c, b = Some t /\ In c cands /\ comes_from pixels used c t.

(* ================================================================== *)
(** * Vocabulary of the further properties *)

Section ChainVocabulary.
Context {C : CryptoES}.

(** A chain as the decoder walks it. [nodes] are the (position, encoded
    pixel) pairs from the first chain node on and [bs] the bytes they
    carry: each pixel has its byte in R and, unless it is the last node,
    in G and B a pointer that resolves to the position of the next node
    in a candidate set of size [n]. *)
Fixpoint chain_links (K : WordArray) (n : Z) (nodes : list (Z * StegPixel)) (bs : list Z)
    : Prop :=
  match nodes, bs with
  | [], [] => True
  | (_, e) :: rest, b :: bs' =>
      chR (bytes e) = b /\
      match rest with
      | [] => True
      | (q, _) :: _ =>
          next_pixel_idx K (wordArray (StegPointer_of_pixel (bytes e))) n = JInt q
      end /\
      chain_links K n rest bs'
  | _, _ => False
  end.

End ChainVocabulary.

(** The nodes sit on distinct positions of the candidate set, and each
    encoded pixel has the image index of the candidate at its position. *)
Definition nodes_on (pixels : list StegPixel) (nodes : list (Z * StegPixel)) : Prop :=
  NoDup (map fst nodes) /\
  Forall (fun node =>
            0 <= fst node /\
            exists original,
              nth_error pixels (Z.to_nat (fst node)) = Some original /\
              index (snd node) = index original)
         nodes.

(** The image buffer holds four channels for every pixel. *)
Definition image_ok (img : StegImage) : Prop :=
  0 <= width img * height img /\
  length (channels img) = Z.to_nat (4 * (width img * height img)).

(** The four channels of pixel [idx], as [getPixelAt] reads them. *)
Definition pixel_at (img : StegImage) (idx : Z) : Pixel :=
  let channelIndex := Z.to_nat (idx * 4) in
  mkPixel (typed_get (channels img) (channelIndex + 0))
          (typed_get (channels img) (channelIndex + 1))
          (typed_get (channels img) (channelIndex + 2))
          (typed_get (channels img) (channelIndex + 3)).

(** The indices of the pixels on which two images of the same size differ. *)
Definition changed_pixels (img img' : StegImage) : list Z :=
  filter
    (fun idx =>
       existsb (fun vo => negb (fst vo =? snd vo))
         (combine (pixel_channels (pixel_at img' idx)) (pixel_channels (pixel_at img idx))))
    (zrange 0 (Z.to_nat (width img * height img))).

(** Channel [k] (0 for R, 1 for G, 2 for B) of each pixel of RGBA data. *)
Fixpoint channel_of (k : nat) (data : list Z) : list Z :=
  match data with
  | r :: g :: b :: a :: rest => nth k [r; g; b; a] 0 :: channel_of k rest
  | _ => []
  end.

(** The sum of a list of counts. *)
Definition total (counts : list Z) : Z := fold_right Z.add 0 counts.

(** Operations on a pixel object. *)
Inductive pixel_op : Type :=
  | op_setChannel (channel : PixelChannels) (value : Z)
  | op_setPointer (ptr : StegPointer).

Definition apply_op (p : StegPixel) (op : pixel_op) : StegPixel :=
  match op with
  | op_setChannel channel value => setChannel p channel value
  | op_setPointer ptr => setPointer p ptr
  end.

Definition op_ok (op : pixel_op) : Prop :=
  match op with
  | op_setChannel _ _ => True
  | op_setPointer ptr => pointer_ok ptr
  end.

(* ================================================================== *)
(** * Small instances of the external libraries

    Used only to run the engine on concrete inputs: a counter for the
    generator, and identity functions for the cipher and the MAC. *)

Definition demo_key : WordArray :=
  mkWordArray [0; 0; 0; 0; 0; 0; 0; 1] 32.

Module Toy.

Definition toy_isaac : Isaac :=
  {| rng_state := Z;
     isaac_seed := fun _ => 0;
     isaac_random := fun z => ((z * 40503) mod 65536 # 65536, z + 1) |}.

Definition toy_crypto : CryptoES :=
  {| HmacSHA256 := fun message _ => message;
     Utf8_parse := fun s => uint8ArrayToWordArray (map (fun c => Z.of_nat (nat_of_ascii c)) s);
     AES_encrypt := fun _ data => data;
     AES_decrypt := fun _ data => data |}.

(** A 16 x 16 cover, every channel 128. *)
Definition cover16 : StegImage := mkStegImage 16 16 (repeat 128 1024).


(** Scenario S1: "hi" in the 16 x 16 cover with the default alias count. *)
Definition enc_s1 : StegEncoder := mkStegEncoder cover16 (str "hi") demo_key (JInt 32).

(** The decoder of scenario S1, for the key and the alias count of [enc_s1]. *)
Definition dec_s1 : StegDecoder :=
  mkStegDecoder cover16 demo_key (JInt 0) (JInt 32) (JInt 2)
    (floor_div DEFAULT_TOTAL_POINTERS (JInt 32)).

(** Scenario S2: 17 bytes for a 4 x 4 cover. *)
Definition enc_too_long : StegEncoder :=
  mkStegEncoder (mkStegImage 4 4 (repeat 128 64)) (str "seventeen letters") demo_key (JInt 32).



(** The same with first position 256, one past the candidate set. *)
Definition dec_out_of_range : StegDecoder :=
  mkStegDecoder cover16 demo_key (JInt 256) (JInt 256) (JInt 2) (JInt 256).


End Toy.

(* ================================================================== *)
(** * Further small instances *)

Module Demo.

(** "hi" in the 16 x 16 cover with alias count 256: as many candidate
    positions as pixels. *)
Definition enc_fit : StegEncoder := mkStegEncoder Toy.cover16 (str "hi") demo_key (JInt 256).

(** "hiya" in the 16 x 16 cover with alias count 256: four bytes, one
    32-bit word. *)
Definition enc_fit4 : StegEncoder :=
  mkStegEncoder Toy.cover16 (str "hiya") demo_key (JInt 256).

(** A 2 x 1 image, and the same with other alpha bytes. *)
Definition two_pixels : StegImage := mkStegImage 2 1 [10; 20; 30; 255; 40; 50; 60; 255].
Definition two_pixels_alpha : StegImage := mkStegImage 2 1 [10; 20; 30; 0; 40; 50; 60; 9].

(** A decoder for [two_pixels]: two candidate positions, one byte to read. *)
Definition dec_two : StegDecoder :=
  mkStegDecoder two_pixels demo_key (JInt 0) (JInt 32768) (JInt 1) (JInt 2).

End Demo.

(* ================================================================== *)
(** * Checks of the model on concrete values *)

Example pack_demo :
  uint8ArrayToWordArray [222; 173; 190; 239; 1] =
  mkWordArray [-559038737; 16777216] 5.
Proof. vm_compute. reflexivity. Qed.

Example unpack_demo :
  wordArrayToUint8Array (mkWordArray [-559038737; 16777216] 5) = [222; 173; 190; 239; 1].
Proof. vm_compute. reflexivity. Qed.

Example toString_demo : toString16 (JInt 5000) = str "1388". Proof. vm_compute. reflexivity. Qed.
Example package_demo :
  packageKey (mkStegKey demo_key (JInt 171) (JInt 13) (JInt 5000)) =
  str "0000000000000000000000000000000000000000000000000000000000000001000d1388ab".
Proof. vm_compute. reflexivity. Qed.
Example unpackage_demo :
  unpackageKey (str " 0000000000000000000000000000000000000000000000000000000000000001000d1388ab ") =
  Returned (mkStegKey demo_key (JInt 171) (JInt 13) (JInt 5000)).
Proof. vm_compute. reflexivity. Qed.
Example parse_demo : parseInt16 (str " -0x1fz") = JInt (-31). Proof. vm_compute. reflexivity. Qed.
Example parse_demo2 : parseInt16 (str "zz") = JNaN. Proof. vm_compute. reflexivity. Qed.

(* ================================================================== *)
(** * Facts on the 32-bit operators *)

Lemma to_uint32_mod (z : Z) : to_uint32 z = z mod 2 ^ 32.
Proof.
  unfold to_uint32. change (two32 - 1) with (Z.ones 32).
  apply Z.land_ones. lia.
Qed.

Lemma to_uint32_range (z : Z) : 0 <= to_uint32 z < 2 ^ 32.
Proof. rewrite to_uint32_mod. apply Z.mod_pos_bound. lia. Qed.

Lemma to_int32_range (z : Z) : - 2 ^ 31 <= to_int32 z < 2 ^ 31.
Proof.
  unfold to_int32. pose proof (to_uint32_range z) as H.
  unfold two31, two32. destruct (Z.ltb_spec (to_uint32 z) 2147483648); lia.
Qed.

Lemma to_int32_congr (z : Z) : to_int32 z mod 2 ^ 32 = z mod 2 ^ 32.
Proof.
  unfold to_int32. rewrite to_uint32_mod. unfold two31, two32.
  destruct (Z.ltb_spec (z mod 2 ^ 32) 2147483648).
  - apply Z.mod_mod. lia.
  - replace (z mod 2 ^ 32 - 4294967296) with (z mod 2 ^ 32 + (-1) * 2 ^ 32) by lia.
    rewrite Z.mod_add by lia. apply Z.mod_mod. lia.
Qed.

Lemma to_int32_testbit (z n : Z) :
  0 <= n < 32 -> Z.testbit (to_int32 z) n = Z.testbit z n.
Proof.
  intros Hn.
  rewrite <- (Z.mod_pow2_bits_low (to_int32 z) 32 n) by lia.
  rewrite to_int32_congr. apply Z.mod_pow2_bits_low. lia.
Qed.

Lemma to_int32_id (z : Z) : - 2 ^ 31 <= z < 2 ^ 31 -> to_int32 z = z.
Proof.
  intros Hz. unfold to_int32. rewrite to_uint32_mod. unfold two31, two32.
  destruct (Z.leb_spec 0 z).
  - rewrite Z.mod_small by lia.
    destruct (Z.ltb_spec z 2147483648); lia.
  - replace (z mod 2 ^ 32) with (z + 2 ^ 32).
    + destruct (Z.ltb_spec (z + 2 ^ 32) 2147483648); lia.
    + apply Z.mod_unique with (q := -1); lia.
Qed.

Lemma to_uint32_testbit (z n : Z) :
  0 <= n -> Z.testbit (to_uint32 z) n = (n <? 32) && Z.testbit z n.
Proof.
  intros Hn. rewrite to_uint32_mod.
  destruct (Z.ltb_spec n 32).
  - rewrite Z.mod_pow2_bits_low by lia. reflexivity.
  - rewrite Z.mod_pow2_bits_high by lia. reflexivity.
Qed.

Lemma byte_testbit_high (b n : Z) : 0 <= b <= 255 -> 8 <= n -> Z.testbit b n = false.
Proof.
  intros Hb Hn.
  assert (Hm : b mod 2 ^ 8 = b) by (apply Z.mod_small; lia).
  rewrite <- Hm. apply Z.mod_pow2_bits_high. lia.
Qed.

Lemma land_255_range (x : Z) : 0 <= Z.land x 255 <= 255.
Proof.
  change (Z.land x 255) with (Z.land x (Z.ones 8)). rewrite Z.land_ones by lia.
  pose proof (Z.mod_pos_bound x (2 ^ 8)). lia.
Qed.

Lemma band_255 (x : Z) : band x 255 = Z.land x 255.
Proof.
  unfold band. rewrite (to_int32_id 255) by lia.
  rewrite to_int32_id by (pose proof (land_255_range (to_int32 x)); lia).
  apply Z.bits_inj'. intros n Hn.
  rewrite !Z.land_spec.
  destruct (Z.ltb_spec n 32).
  - rewrite to_int32_testbit by lia. reflexivity.
  - rewrite (byte_testbit_high 255 n) by lia. rewrite !andb_false_r. reflexivity.
Qed.

Lemma band_255_range (x : Z) : 0 <= band x 255 <= 255.
Proof. rewrite band_255. apply land_255_range. Qed.

(** The byte of [w] at shift [k], bit by bit. *)
Lemma byte_at_shift_testbit (w k n : Z) :
  0 <= k <= 24 -> 0 <= n ->
  Z.testbit (band (ushr w k) 255) n = (n <? 8) && Z.testbit w (n + k).
Proof.
  intros Hk Hn. rewrite band_255, Z.land_spec. unfold ushr.
  rewrite (Z.mod_small k 32) by lia.
  rewrite Z.shiftr_spec by lia.
  destruct (Z.ltb_spec n 8).
  - rewrite to_uint32_testbit by lia.
    replace (n + k <? 32) with true by (symmetry; apply Z.ltb_lt; lia).
    change 255 with (Z.ones 8). rewrite Z.ones_spec_low by lia.
    rewrite andb_true_r. reflexivity.
  - rewrite (byte_testbit_high 255 n) by lia. apply andb_false_r.
Qed.

Lemma bor_testbit (a b n : Z) :
  0 <= n < 32 -> Z.testbit (bor a b) n = Z.testbit a n || Z.testbit b n.
Proof.
  intros Hn. unfold bor. rewrite to_int32_testbit by lia.
  rewrite Z.lor_spec, !to_int32_testbit by lia. reflexivity.
Qed.

Lemma shl_testbit (a k n : Z) :
  0 <= k < 32 -> 0 <= n < 32 -> Z.testbit (shl a k) n = Z.testbit (to_int32 a) (n - k).
Proof.
  intros Hk Hn. unfold shl. rewrite to_int32_testbit by lia.
  rewrite (Z.mod_small k 32) by lia.
  apply Z.shiftl_spec. lia.
Qed.

(** Or-ing a byte shifted to [k] into a word changes the byte at [k] and no
    other. *)
Lemma byte_at_shift_bor (w b k k' : Z) :
  0 <= b <= 255 -> 0 <= k <= 24 -> 0 <= k' <= 24 ->
  (k' = k \/ k' + 8 <= k \/ k + 8 <= k') ->
  band (ushr (bor w (shl b k)) k') 255 =
  if k' =? k then Z.lor (band (ushr w k') 255) b else band (ushr w k') 255.
Proof.
  intros Hb Hk Hk' Hsep.
  apply Z.bits_inj'. intros n Hn.
  rewrite byte_at_shift_testbit by lia.
  destruct (Z.ltb_spec n 8) as [Hn8 | Hn8]; cbn [andb].
  - rewrite bor_testbit, shl_testbit by lia.
    rewrite (to_int32_id b) by lia.
    destruct (Z.eqb_spec k' k) as [-> | Hne].
    + rewrite Z.lor_spec, byte_at_shift_testbit by lia.
      replace (n <? 8) with true by (symmetry; apply Z.ltb_lt; lia).
      cbn [andb]. replace (n + k - k) with n by lia. reflexivity.
    + rewrite byte_at_shift_testbit by lia.
      replace (n <? 8) with true by (symmetry; apply Z.ltb_lt; lia).
      cbn [andb].
      replace (Z.testbit b (n + k' - k)) with false; [apply orb_false_r |].
      symmetry. destruct Hsep as [? | [? | ?]]; [lia | |].
      * apply Z.testbit_neg_r. lia.
      * apply byte_testbit_high; lia.
  - destruct (Z.eqb_spec k' k) as [-> | Hne].
    + rewrite Z.lor_spec, byte_at_shift_testbit by lia.
      replace (n <? 8) with false by (symmetry; apply Z.ltb_ge; lia).
      cbn [andb orb]. symmetry. apply byte_testbit_high; lia.
    + rewrite byte_at_shift_testbit by lia.
      replace (n <? 8) with false by (symmetry; apply Z.ltb_ge; lia).
      reflexivity.
Qed.

(* ================================================================== *)
(** * Arrays of words *)

Lemma array_get_set (ws : list Z) (j j' : nat) (v : Z) :
  array_get (array_set ws j v) j' = if Nat.eqb j' j then v else array_get ws j'.
Proof.
  unfold array_get. revert ws j'.
  induction j as [| j IH]; intros [| x ws] [| j']; cbn; try reflexivity.
  - destruct j'; reflexivity.
  - rewrite IH. destruct (Nat.eqb j' j); [reflexivity | destruct j'; reflexivity].
  - apply IH.
Qed.

Lemma array_set_length (ws : list Z) (j : nat) (v : Z) :
  length (array_set ws j v) = Nat.max (length ws) (S j).
Proof.
  revert ws. induction j as [| j IH]; intros [| x ws]; cbn; try reflexivity.
  - destruct (length ws); reflexivity.
  - rewrite IH. reflexivity.
  - rewrite IH. reflexivity.
Qed.

Lemma word_byte_nil (j : nat) : word_byte [] j = 0.
Proof.
  unfold word_byte, array_get.
  replace (nth (j / 4) [] 0) with 0 by (destruct (j / 4)%nat; reflexivity).
  apply Z.bits_inj'. intros n Hn.
  assert (Hm : (j mod 4 < 4)%nat) by (apply Nat.mod_upper_bound; lia).
  rewrite byte_at_shift_testbit by lia.
  rewrite !Z.bits_0, andb_false_r. reflexivity.
Qed.

Lemma shift_of_index (i : nat) : 0 <= 24 - Z.of_nat (i mod 4) * 8 <= 24.
Proof.
  assert (Hm : (i mod 4 < 4)%nat) by (apply Nat.mod_upper_bound; lia). lia.
Qed.

(** One step of the packing loop writes byte [i] and keeps the others,
    provided byte [i] was still zero. *)
Lemma word_byte_pack_step (ws : list Z) (i j : nat) (b : Z) :
  is_byte b -> word_byte ws i = 0 ->
  word_byte
    (array_set ws (i / 4)
       (bor (array_get ws (i / 4)) (shl b (24 - Z.of_nat (i mod 4) * 8)))) j =
  if Nat.eqb j i then b else word_byte ws j.
Proof.
  intros Hb Hzero. unfold word_byte at 1. rewrite array_get_set.
  assert (Hi : (i mod 4 < 4)%nat) by (apply Nat.mod_upper_bound; lia).
  assert (Hj : (j mod 4 < 4)%nat) by (apply Nat.mod_upper_bound; lia).
  pose proof (Nat.div_mod_eq i 4) as Ei. pose proof (Nat.div_mod_eq j 4) as Ej.
  destruct (Nat.eqb_spec (j / 4) (i / 4)) as [Hq | Hq].
  - rewrite byte_at_shift_bor by (unfold is_byte in Hb; lia).
    destruct (Z.eqb_spec (24 - Z.of_nat (j mod 4) * 8) (24 - Z.of_nat (i mod 4) * 8)) as [Hk | Hk].
    + assert (j = i) by lia. subst j. rewrite Nat.eqb_refl.
      fold (word_byte ws i). rewrite Hzero. reflexivity.
    + destruct (Nat.eqb_spec j i) as [-> | _]; [lia |].
      unfold word_byte. rewrite Hq. reflexivity.
  - destruct (Nat.eqb_spec j i) as [-> | _]; [congruence | reflexivity].
Qed.

(** The bytes of the packed words: those already there below [i], the
    bytes of [u8] from [i] on. *)
Lemma word_byte_pack_bytes_from (u8 : list Z) :
  Forall is_byte u8 ->
  forall (i : nat) (ws : list Z),
    (forall j, (i <= j)%nat -> word_byte ws j = 0) ->
    forall j,
      word_byte (pack_bytes_from i u8 ws) j =
      if (j <? i)%nat then word_byte ws j else nth (j - i) u8 0.
Proof.
  induction 1 as [| b rest Hb _ IH]; intros i ws Hzero j; cbn [pack_bytes_from].
  - destruct (Nat.ltb_spec j i); [reflexivity |].
    rewrite Hzero by lia. destruct (j - i)%nat; reflexivity.
  - rewrite IH.
    + rewrite word_byte_pack_step by (auto; apply Hzero; lia).
      destruct (Nat.ltb_spec j (S i)), (Nat.ltb_spec j i), (Nat.eqb_spec j i); try lia;
        try reflexivity.
      * subst j. rewrite Nat.sub_diag. reflexivity.
      * replace (j - i)%nat with (S (j - S i)) by lia. reflexivity.
    + intros j' Hj'. rewrite word_byte_pack_step by (auto; apply Hzero; lia).
      destruct (Nat.eqb_spec j' i); [lia | apply Hzero; lia].
Qed.

Lemma pack_bytes_from_length (u8 : list Z) (i : nat) (ws : list Z) :
  length (pack_bytes_from i u8 ws) =
  match u8 with
  | [] => length ws
  | _ => Nat.max (length ws) (S ((i + length u8 - 1) / 4))
  end.
Proof.
  revert i ws. induction u8 as [| b rest IH]; intros i ws; cbn [pack_bytes_from]; [reflexivity |].
  rewrite IH, array_set_length. destruct rest as [| b' rest'].
  - cbn [length]. replace (i + 1 - 1)%nat with i by lia. reflexivity.
  - cbn [length].
    assert ((i / 4 <= (S i + S (length rest') - 1) / 4)%nat)
      by (apply Nat.Div0.div_le_mono; lia).
    replace (i + S (S (length rest')) - 1)%nat with (S i + S (length rest') - 1)%nat by lia.
    lia.
Qed.

Lemma map_seq_nth (l : list Z) (f : nat -> Z) :
  (forall j, (j < length l)%nat -> f j = nth j l 0) ->
  map f (seq 0 (length l)) = l.
Proof.
  intros H. apply nth_ext with (d := 0) (d' := 0).
  - rewrite length_map, length_seq. reflexivity.
  - intros n Hn. rewrite length_map, length_seq in Hn.
    rewrite <- (H n Hn).
    rewrite (nth_indep _ 0 (f O)) by (rewrite length_map, length_seq; exact Hn).
    rewrite map_nth, seq_nth by exact Hn. reflexivity.
Qed.

(** C10. The two conversions of [StegHelpers] are mutually inverse on a
    byte array: [wordArrayToUint8Array(uint8ArrayToWordArray(u8))] has the
    length and the elements of [u8]. *)
Theorem wordArray_uint8Array_roundtrip (u8 : list Z) :
  Forall is_byte u8 ->
  wordArrayToUint8Array (uint8ArrayToWordArray u8) = u8.
Proof.
  intros Hu8. unfold wordArrayToUint8Array, uint8ArrayToWordArray.
  cbn [words sigBytes]. rewrite Nat2Z.id.
  apply map_seq_nth. intros j Hj.
  rewrite word_byte_pack_bytes_from by (auto; intros; apply word_byte_nil).
  cbn. rewrite Nat.sub_0_r. reflexivity.
Qed.

Lemma wordArray_uint8Array_roundtrip_witness :
  Forall is_byte [222; 173; 190; 239; 1] /\
  wordArrayToUint8Array (uint8ArrayToWordArray [222; 173; 190; 239; 1]) = [222; 173; 190; 239; 1].
Proof.
  assert (H : Forall is_byte [222; 173; 190; 239; 1])
    by (repeat constructor; unfold is_byte; lia).
  split; [exact H | exact (wordArray_uint8Array_roundtrip _ H)].
Defined.

(* ================================================================== *)
(** * The next-pixel function *)

Lemma band_ones (x k : Z) : 0 <= k <= 31 -> band x (Z.ones k) = Z.land x (Z.ones k).
Proof.
  intros Hk. unfold band.
  assert (Hp : 0 < 2 ^ k <= 2 ^ 31).
  { split; [apply Z.pow_pos_nonneg; lia | apply Z.pow_le_mono_r; lia]. }
  assert (Ho : Z.ones k = 2 ^ k - 1) by (rewrite Z.ones_equiv; lia).
  rewrite (to_int32_id (Z.ones k)) by lia.
  assert (Hr : 0 <= Z.land (to_int32 x) (Z.ones k) < 2 ^ k).
  { rewrite Z.land_ones by lia. apply Z.mod_pos_bound. lia. }
  rewrite to_int32_id by lia.
  apply Z.bits_inj'. intros n Hn. rewrite !Z.land_spec.
  destruct (Z.ltb_spec n 32).
  - rewrite to_int32_testbit by lia. reflexivity.
  - rewrite Z.ones_spec_high by lia. rewrite !andb_false_r. reflexivity.
Qed.

Lemma band_low (x k : Z) : 0 <= k <= 31 -> 0 <= x -> band x (Z.ones k) = x mod 2 ^ k.
Proof. intros Hk Hx. rewrite band_ones by lia. apply Z.land_ones. lia. Qed.

Lemma ushr_div (w k : Z) : 0 <= k < 32 -> ushr w k = (w mod 2 ^ 32) / 2 ^ k.
Proof.
  intros Hk. unfold ushr. rewrite (Z.mod_small k 32) by lia.
  rewrite to_uint32_mod. apply Z.shiftr_div_pow2. lia.
Qed.

Section NextPixel.
Context {C : CryptoES}.

Lemma next_pixel_idx_eq (K p : WordArray) (S_len : Z) :
  0 < S_len -> next_pixel_idx K p S_len = JInt (next_spec K p S_len).
Proof.
  intros HS.
  unfold next_pixel_idx, next_spec, word_byte.
  replace (S_len =? 0) with false by (symmetry; apply Z.eqb_neq; lia).
  f_equal.
  set (w := array_get (words (HmacSHA256 p K)) 0).
  change (array_get (words (HmacSHA256 p K)) (0 / 4)) with w.
  change (array_get (words (HmacSHA256 p K)) (1 / 4)) with w.
  assert (Hu : 0 <= w mod 2 ^ 32 < 2 ^ 32) by (apply Z.mod_pos_bound; lia).
  set (u := w mod 2 ^ 32) in *.
  change 65535 with (Z.ones 16). change 255 with (Z.ones 8).
  change (24 - Z.of_nat (0 mod 4) * 8) with 24.
  change (24 - Z.of_nat (1 mod 4) * 8) with 16.
  rewrite !ushr_div by lia. fold u.
  assert (H16 : 0 <= u / 2 ^ 16 < 2 ^ 16).
  { split; [apply Z.div_pos; lia | apply Z.div_lt_upper_bound; lia]. }
  assert (H24 : 0 <= u / 2 ^ 24 < 2 ^ 8).
  { split; [apply Z.div_pos; lia | apply Z.div_lt_upper_bound; lia]. }
  rewrite !band_low by lia.
  rewrite (Z.mod_small (u / 2 ^ 16)) by lia.
  rewrite (Z.mod_small (u / 2 ^ 24)) by lia.
  rewrite Z.rem_mod_nonneg by lia.
  f_equal.
  replace (u / 2 ^ 24) with (u / 2 ^ 16 / 2 ^ 8)
    by (rewrite Z.div_div by lia; reflexivity).
  pose proof (Z.div_mod (u / 2 ^ 16) (2 ^ 8)). lia.
Qed.

(** C6. [next_pixel_idx] returns the first two bytes of the tag, read
    big-endian, modulo [S_len]; for a non-empty candidate set this is a
    position of the set. *)
Theorem next_pixel_idx_spec (K p : WordArray) (S_len : Z) :
  0 < S_len ->
  next_pixel_idx K p S_len = JInt (next_spec K p S_len) /\
  0 <= next_spec K p S_len < S_len.
Proof.
  intros HS. split; [apply next_pixel_idx_eq; exact HS | apply Z.mod_pos_bound; lia].
Qed.

End NextPixel.

Lemma next_pixel_idx_spec_witness :
  0 < 256 /\
  @next_pixel_idx Toy.toy_crypto demo_key (wordArray (mkStegPointer 1 2)) 256 = JInt 2.
Proof.
  split; [lia |].
  destruct (@next_pixel_idx_spec Toy.toy_crypto demo_key (wordArray (mkStegPointer 1 2)) 256)
    as [H _]; [lia |].
  rewrite H. vm_compute. reflexivity.
Defined.

(* ================================================================== *)
(** * Hexadecimal digits *)

Lemma digit16_cases (d : Z) (P : Z -> Prop) :
  is_digit16 d ->
  P 0 -> P 1 -> P 2 -> P 3 -> P 4 -> P 5 -> P 6 -> P 7 ->
  P 8 -> P 9 -> P 10 -> P 11 -> P 12 -> P 13 -> P 14 -> P 15 -> P d.
Proof.
  unfold is_digit16. intros Hd.
  assert (H : d = 0 \/ d = 1 \/ d = 2 \/ d = 3 \/ d = 4 \/ d = 5 \/ d = 6 \/ d = 7 \/
              d = 8 \/ d = 9 \/ d = 10 \/ d = 11 \/ d = 12 \/ d = 13 \/ d = 14 \/ d = 15)
    by lia.
  intros. repeat (destruct H as [-> | H]; [assumption |]). subst d. assumption.
Qed.

Lemma hex_value_hex_char (d : Z) : is_digit16 d -> hex_value (hex_char d) = Some d.
Proof. intros Hd. pattern d. apply digit16_cases; auto. Qed.

Lemma hex_char_not_space (d : Z) : is_digit16 d -> is_space (hex_char d) = false.
Proof. intros Hd. pattern d. apply digit16_cases; auto. Qed.

Lemma hex_char_not_sign (d : Z) :
  is_digit16 d ->
  Ascii.eqb (hex_char d) "-" = false /\ Ascii.eqb (hex_char d) "+" = false.
Proof. intros Hd. pattern d. apply digit16_cases; auto. Qed.

Lemma hex_char_not_x (d : Z) :
  is_digit16 d ->
  Ascii.eqb (hex_char d) "x" || Ascii.eqb (hex_char d) "X" = false.
Proof. intros Hd. pattern d. apply digit16_cases; auto. Qed.

Lemma hex_prefix_map (ds : list Z) :
  Forall is_digit16 ds -> hex_prefix (map hex_char ds) = ds.
Proof.
  induction 1 as [| d ds Hd _ IH]; cbn [map hex_prefix]; [reflexivity |].
  rewrite hex_value_hex_char by assumption. rewrite IH. reflexivity.
Qed.

Lemma trim_start_digits (ds : list Z) :
  Forall is_digit16 ds -> trim_start (map hex_char ds) = map hex_char ds.
Proof.
  intros [| d ds' Hd _]; cbn [map trim_start]; [reflexivity |].
  rewrite hex_char_not_space by assumption. reflexivity.
Qed.

(** [parseInt] of a non-empty run of digits is its value. *)
Lemma parseInt16_digits (ds : list Z) :
  Forall is_digit16 ds -> ds <> [] ->
  parseInt16 (map hex_char ds) = JInt (hex_number ds).
Proof.
  intros Hds Hne. unfold parseInt16.
  rewrite trim_start_digits by assumption.
  destruct Hds as [| d ds' Hd Hds']; [congruence |].
  cbn [map]. destruct (hex_char_not_sign d Hd) as [-> ->].
  cbv beta iota zeta.
  destruct Hds' as [| d1 ds'' Hd1 Hds''].
  - cbn [map hex_prefix]. rewrite (hex_value_hex_char d Hd). reflexivity.
  - cbn [map]. rewrite (hex_char_not_x d1 Hd1), andb_false_r.
    change (hex_char d :: hex_char d1 :: map hex_char ds'')
      with (map hex_char (d :: d1 :: ds'')).
    rewrite hex_prefix_map by (constructor; [assumption | constructor; assumption]).
    reflexivity.
Qed.

Lemma hex_number_app (ds : list Z) (d : Z) :
  hex_number (ds ++ [d]) = 16 * hex_number ds + d.
Proof. unfold hex_number. rewrite fold_left_app. reflexivity. Qed.

Lemma hex_number_zeros (k : nat) (ds : list Z) :
  hex_number (repeat 0 k ++ ds) = hex_number ds.
Proof.
  unfold hex_number. rewrite fold_left_app.
  replace (fold_left (fun a d => 16 * a + d) (repeat 0 k) 0) with 0; [reflexivity |].
  induction k as [| k IH]; cbn; [reflexivity | exact IH].
Qed.

(** * [toString(16)] *)

Lemma hex_digits_acc (fuel : nat) (n : Z) (acc : jsstring) :
  hex_digits fuel n acc = hex_digits fuel n [] ++ acc.
Proof.
  revert n acc. induction fuel as [| f IH]; intros n acc; cbn [hex_digits]; [reflexivity |].
  destruct (n <? 16); [reflexivity |].
  rewrite (IH _ (hex_char (n mod 16) :: acc)), (IH _ [hex_char (n mod 16)]).
  rewrite <- app_assoc. reflexivity.
Qed.

Lemma hex_digits_S (fuel : nat) (n : Z) (acc : jsstring) :
  hex_digits (S fuel) n acc =
  if n <? 16 then hex_char n :: acc
  else hex_digits fuel (n / 16) (hex_char (n mod 16) :: acc).
Proof. reflexivity. Qed.

Lemma hex_digits_spec (fuel : nat) :
  forall n, 0 <= n < 16 ^ Z.of_nat (S fuel) ->
  exists ds,
    hex_digits (S fuel) n [] = map hex_char ds /\ Forall is_digit16 ds /\ ds <> [] /\
    hex_number ds = n /\
    forall k : nat, (0 < k)%nat -> n < 16 ^ Z.of_nat k -> (length ds <= k)%nat.
Proof.
  induction fuel as [| f IH]; intros n Hn; rewrite hex_digits_S;
    (destruct (Z.ltb_spec n 16) as [Hlt | Hge];
     [ exists [n]; split; [| split; [| split; [| split]]];
       [ reflexivity
       | constructor; [unfold is_digit16; lia | constructor]
       | discriminate
       | cbn; lia
       | intros k Hk _; cbn; lia ] | ]).
  - change (16 ^ Z.of_nat 1) with 16 in Hn. lia.
  - assert (Hf : 0 <= n / 16 < 16 ^ Z.of_nat (S f)).
    { split; [apply Z.div_pos; lia |].
      apply Z.div_lt_upper_bound; [lia |].
      rewrite (Nat2Z.inj_succ (S f)), Z.pow_succ_r in Hn by lia. lia. }
    destruct (IH _ Hf) as (ds & Hds & Hall & Hne & Hval & Hlen).
    exists (ds ++ [n mod 16]). split; [| split; [| split; [| split]]].
    + rewrite hex_digits_acc, Hds, map_app. reflexivity.
    + apply Forall_app. split; [assumption |].
      constructor; [| constructor]. unfold is_digit16.
      pose proof (Z.mod_pos_bound n 16). lia.
    + destruct ds; discriminate.
    + rewrite hex_number_app, Hval. pose proof (Z.div_mod n 16). lia.
    + intros k Hk Hnk. rewrite length_app. cbn [length].
      destruct k as [| k]; [lia |].
      destruct k as [| k]; [change (16 ^ Z.of_nat 1) with 16 in Hnk; lia |].
      assert (length ds <= S k)%nat; [| lia].
      apply Hlen; [lia |].
      apply Z.div_lt_upper_bound; [lia |].
      rewrite (Nat2Z.inj_succ (S k)), Z.pow_succ_r in Hnk by lia. lia.
Qed.

Lemma nat_toString16_spec (n : Z) :
  0 <= n ->
  exists ds,
    nat_toString16 n = map hex_char ds /\ Forall is_digit16 ds /\ ds <> [] /\
    hex_number ds = n /\
    forall k : nat, (0 < k)%nat -> n < 16 ^ Z.of_nat k -> (length ds <= k)%nat.
Proof.
  intros Hn. unfold nat_toString16. apply hex_digits_spec.
  split; [lia |].
  rewrite Nat2Z.inj_succ, Z2Nat.id by apply Z.log2_nonneg.
  destruct (Z.eq_dec n 0) as [-> | Hnz]; [cbn; lia |].
  pose proof (Z.log2_spec n ltac:(lia)) as [_ Hlt].
  apply Z.lt_le_trans with (1 := Hlt).
  apply Z.pow_le_mono_l. pose proof (Z.log2_nonneg n). lia.
Qed.

Lemma nat_toString16_digit (d : Z) : is_digit16 d -> nat_toString16 d = [hex_char d].
Proof.
  intros Hd. unfold nat_toString16. cbn [hex_digits].
  replace (d <? 16) with true by (symmetry; apply Z.ltb_lt; unfold is_digit16 in Hd; lia).
  reflexivity.
Qed.

(** A 16-bit field: four digits that parse back to the number. *)
Lemma field16_spec (t : Z) :
  0 <= t < 65536 ->
  length (padStart4 (toString16 (JInt t))) = 4%nat /\
  parseInt16 (padStart4 (toString16 (JInt t))) = JInt t /\
  exists ds, padStart4 (toString16 (JInt t)) = map hex_char ds /\ Forall is_digit16 ds.
Proof.
  intros Ht. cbn [toString16].
  replace (t <? 0) with false by (symmetry; apply Z.ltb_ge; lia).
  destruct (nat_toString16_spec t ltac:(lia)) as (ds & Hds & Hall & Hne & Hval & Hlen).
  assert (Hl4 : (length ds <= 4)%nat) by (apply Hlen; [lia | cbn; lia]).
  unfold padStart4. rewrite Hds, length_map.
  assert (Hz : repeat "0"%char (4 - length ds) ++ map hex_char ds =
               map hex_char (repeat 0 (4 - length ds) ++ ds)).
  { rewrite map_app, map_repeat. reflexivity. }
  assert (Hall' : Forall is_digit16 (repeat 0 (4 - length ds) ++ ds)).
  { apply Forall_app. split; [| assumption].
    apply Forall_forall. intros x Hx. apply repeat_spec in Hx. subst x.
    unfold is_digit16. lia. }
  repeat split.
  - rewrite length_app, repeat_length, length_map. lia.
  - rewrite Hz, parseInt16_digits.
    + rewrite hex_number_zeros, Hval. reflexivity.
    + assumption.
    + destruct ds; [congruence |]. destruct (4 - length (z :: ds))%nat; discriminate.
  - eexists. split; [exact Hz | exact Hall'].
Qed.

(** The variable-length field. *)
Lemma field_var_spec (n : Z) :
  0 <= n ->
  parseInt16 (toString16 (JInt n)) = JInt n /\
  exists ds, toString16 (JInt n) = map hex_char ds /\ Forall is_digit16 ds /\ ds <> [].
Proof.
  intros Hn. cbn [toString16].
  replace (n <? 0) with false by (symmetry; apply Z.ltb_ge; lia).
  destruct (nat_toString16_spec n Hn) as (ds & Hds & Hall & Hne & Hval & _).
  split.
  - rewrite Hds, parseInt16_digits, Hval by assumption. reflexivity.
  - exists ds. auto.
Qed.

(* ================================================================== *)
(** * The key as 64 hexadecimal digits *)

Lemma word_byte_range (ws : list Z) (i : nat) : is_byte (word_byte ws i).
Proof. unfold word_byte, is_byte. apply band_255_range. Qed.

Lemma wordArrayToUint8Array_bytes (wa : WordArray) : Forall is_byte (wordArrayToUint8Array wa).
Proof.
  unfold wordArrayToUint8Array. apply Forall_forall. intros b Hb.
  apply in_map_iff in Hb. destruct Hb as (i & <- & _). apply word_byte_range.
Qed.

Lemma nibbles_digits (bs : list Z) : Forall is_byte bs -> Forall is_digit16 (nibbles bs).
Proof.
  induction 1 as [| b bs Hb _ IH]; cbn; [constructor |].
  unfold is_byte in Hb. unfold is_digit16.
  constructor; [| constructor; [| exact IH]].
  - split; [apply Z.div_pos; lia | apply Z.div_lt_upper_bound; lia].
  - apply Z.mod_pos_bound. lia.
Qed.

Lemma nibbles_length (bs : list Z) : length (nibbles bs) = (2 * length bs)%nat.
Proof. induction bs as [| b bs IH]; cbn; [reflexivity | unfold nibbles in IH; rewrite IH; lia]. Qed.

Lemma Hex_stringify_nibbles (wa : WordArray) :
  Hex_stringify wa = map hex_char (nibbles (wordArrayToUint8Array wa)).
Proof.
  unfold Hex_stringify, wordArrayToUint8Array, nibbles.
  induction (seq 0 (Z.to_nat (sigBytes wa))) as [| i l IH]; cbn [flat_map map]; [reflexivity |].
  rewrite map_app, <- IH. f_equal.
  pose proof (word_byte_range (words wa) i) as Hb. unfold is_byte in Hb.
  set (b := word_byte (words wa) i) in *.
  assert (Hhi : ushr b 4 = b / 16).
  { rewrite ushr_div by lia. rewrite Z.mod_small by lia. reflexivity. }
  assert (Hlo : band b 15 = b mod 16).
  { change 15 with (Z.ones 4). rewrite band_low by lia. reflexivity. }
  rewrite Hhi, Hlo.
  rewrite !nat_toString16_digit; [reflexivity | |]; unfold is_digit16.
  - apply Z.mod_pos_bound. lia.
  - split; [apply Z.div_pos; lia | apply Z.div_lt_upper_bound; lia].
Qed.

Lemma skipn_nibbles (k : nat) (bs : list Z) :
  skipn (2 * k) (nibbles bs) = nibbles (skipn k bs).
Proof.
  revert bs. induction k as [| k IH]; intros bs; [reflexivity |].
  destruct bs as [| b bs]; [reflexivity |].
  replace (2 * S k)%nat with (S (S (2 * k))) by lia.
  cbn [nibbles flat_map app skipn]. apply IH.
Qed.

Lemma parse_byte_digits (b : Z) :
  is_byte b -> parseInt16 (map hex_char [b / 16; b mod 16]) = JInt b.
Proof.
  intros Hb. unfold is_byte in Hb. rewrite parseInt16_digits.
  - f_equal. unfold hex_number. cbn [fold_left]. pose proof (Z.div_mod b 16). lia.
  - apply (nibbles_digits [b]). constructor; [exact Hb | constructor].
  - discriminate.
Qed.

Lemma shl_to_int32 (a k : Z) : shl (to_int32 a) k = shl a k.
Proof. unfold shl. rewrite (to_int32_id (to_int32 a)) by apply to_int32_range. reflexivity. Qed.

Lemma fold_left_ext_in {A B : Type} (f g : A -> B -> A) (l : list B) (a : A) :
  (forall x b, In b l -> f x b = g x b) -> fold_left f l a = fold_left g l a.
Proof.
  revert a. induction l as [| b l IH]; intros a H; cbn; [reflexivity |].
  rewrite H by (left; reflexivity). apply IH. intros x b' Hin. apply H. right. exact Hin.
Qed.

(** The packing loop, with the byte read by index. *)
Lemma fold_pack_bytes (rest pre : list Z) (ws : list Z) :
  fold_left
    (fun ws k =>
       array_set ws (k / 4)
         (bor (array_get ws (k / 4))
            (shl (nth k (pre ++ rest) 0) (24 - Z.of_nat (k mod 4) * 8))))
    (seq (length pre) (length rest)) ws =
  pack_bytes_from (length pre) rest ws.
Proof.
  revert pre ws. induction rest as [| b rest IH]; intros pre ws; [reflexivity |].
  cbn [length seq fold_left pack_bytes_from].
  rewrite app_nth2, Nat.sub_diag by lia. cbn [nth].
  specialize (IH (pre ++ [b])). rewrite length_app in IH. cbn [length] in IH.
  rewrite Nat.add_1_r in IH. rewrite <- IH.
  rewrite <- app_assoc. reflexivity.
Qed.

(** [Hex.parse] of the digits of a byte array packs the bytes. *)
Lemma Hex_parse_nibbles (bs : list Z) :
  Forall is_byte bs ->
  Hex_parse (map hex_char (nibbles bs)) = uint8ArrayToWordArray bs.
Proof.
  intros Hbs. unfold Hex_parse, uint8ArrayToWordArray.
  rewrite length_map, nibbles_length.
  replace ((2 * length bs + 1) / 2)%nat with (length bs)
    by (apply Nat.div_unique with (r := 1%nat); lia).
  f_equal.
  - pose proof (fold_pack_bytes bs [] []) as Hf. cbn [length app] in Hf. rewrite <- Hf.
    apply fold_left_ext_in. intros ws k Hk. apply in_seq in Hk.
    replace (2 * k / 8)%nat with (k / 4)%nat.
    2:{ replace 8%nat with (2 * 4)%nat by reflexivity.
        rewrite Nat.Div0.div_mul_cancel_l by lia. reflexivity. }
    replace (Z.of_nat (2 * k mod 8) * 4) with (Z.of_nat (k mod 4) * 8).
    2:{ replace 8%nat with (2 * 4)%nat by reflexivity.
        rewrite Nat.Div0.mul_mod_distr_l. lia. }
    f_equal. f_equal.
    rewrite skipn_map, firstn_map, skipn_nibbles.
    assert (Hsk : skipn k bs = nth k bs 0 :: skipn (S k) bs).
    { clear - Hk. revert k Hk. induction bs as [| b bs IH]; intros k Hk; cbn in Hk; [lia |].
      destruct k as [| k]; [reflexivity |]. cbn [skipn nth]. apply IH. lia. }
    rewrite Hsk. cbn [nibbles flat_map app firstn].
    assert (Hb : is_byte (nth k bs 0)).
    { rewrite Forall_forall in Hbs. apply Hbs. apply nth_In. lia. }
    rewrite parse_byte_digits by exact Hb.
    cbn [num_to_int32]. apply shl_to_int32.
  - rewrite Nat2Z.inj_mul. change (Z.of_nat 2) with 2.
    rewrite Z.mul_comm, Z.div_mul by lia. reflexivity.
Qed.

(** Two 32-bit words with the same four bytes are equal. *)
Lemma word_bytes_inj (a b : Z) :
  is_int32 a -> is_int32 b ->
  (forall k, k = 0 \/ k = 8 \/ k = 16 \/ k = 24 ->
             band (ushr a k) 255 = band (ushr b k) 255) ->
  a = b.
Proof.
  intros Ha Hb H. unfold is_int32 in *.
  rewrite <- (to_int32_id a), <- (to_int32_id b) by lia.
  unfold to_int32. replace (to_uint32 b) with (to_uint32 a); [reflexivity |].
  apply Z.bits_inj'. intros n Hn. rewrite !to_uint32_testbit by lia.
  destruct (Z.ltb_spec n 32) as [Hlt | Hge]; [cbn [andb] | reflexivity].
  assert (Hk : exists k, (k = 0 \/ k = 8 \/ k = 16 \/ k = 24) /\ k <= n < k + 8).
  { destruct (Z.lt_ge_cases n 8); [exists 0; lia |].
    destruct (Z.lt_ge_cases n 16); [exists 8; lia |].
    destruct (Z.lt_ge_cases n 24); [exists 16; lia | exists 24; lia]. }
  destruct Hk as (k & Hk & Hkn).
  pose proof (f_equal (fun x => Z.testbit x (n - k)) (H k Hk)) as E. cbn beta in E.
  rewrite !byte_at_shift_testbit in E by lia.
  replace (n - k <? 8) with true in E by (symmetry; apply Z.ltb_lt; lia).
  replace (n - k + k) with n in E by lia. exact E.
Qed.

Lemma array_set_int32 (ws : list Z) (j : nat) (v : Z) :
  Forall is_int32 ws -> is_int32 v -> Forall is_int32 (array_set ws j v).
Proof.
  intros Hws Hv. revert ws Hws.
  assert (H0 : is_int32 0) by (unfold is_int32; lia).
  induction j as [| j IH]; intros ws Hws.
  - destruct Hws as [| x ws Hx Hws]; cbn [array_set].
    + constructor; [exact Hv | constructor].
    + constructor; assumption.
  - destruct Hws as [| x ws Hx Hws]; cbn [array_set].
    + constructor; [exact H0 | apply IH; constructor].
    + constructor; [exact Hx | apply IH; exact Hws].
Qed.

Lemma pack_bytes_from_int32 (u8 : list Z) (i : nat) (ws : list Z) :
  Forall is_int32 ws -> Forall is_int32 (pack_bytes_from i u8 ws).
Proof.
  revert i ws. induction u8 as [| b rest IH]; intros i ws Hws; cbn [pack_bytes_from];
    [exact Hws |].
  apply IH. apply array_set_int32; [exact Hws |].
  unfold bor, is_int32. apply to_int32_range.
Qed.

(** Unpacking a key to bytes and packing them again gives the key. *)
Lemma key_bytes_roundtrip (K : WordArray) :
  is_key256 K -> uint8ArrayToWordArray (wordArrayToUint8Array K) = K.
Proof.
  intros (Hsig & Hlen & Hwords). destruct K as [ws sb]. cbn [words sigBytes] in *. subst sb.
  pose proof (wordArrayToUint8Array_bytes (mkWordArray ws 32)) as Hbytes.
  unfold uint8ArrayToWordArray.
  assert (Hl : length (wordArrayToUint8Array (mkWordArray ws 32)) = 32%nat).
  { unfold wordArrayToUint8Array. rewrite length_map, length_seq. reflexivity. }
  assert (Hnth : forall i, (i < 32)%nat ->
            nth i (wordArrayToUint8Array (mkWordArray ws 32)) 0 = word_byte ws i).
  { intros i Hi. unfold wordArrayToUint8Array. cbn [words sigBytes].
    rewrite (nth_indep _ 0 (word_byte ws O)) by (rewrite length_map, length_seq; exact Hi).
    rewrite map_nth, seq_nth by exact Hi. reflexivity. }
  remember (wordArrayToUint8Array (mkWordArray ws 32)) as u8 eqn:Eu8. clear Eu8.
  rewrite Hl. f_equal.
  set (W := pack_bytes_from 0 u8 []).
  assert (HWl : length W = 8%nat).
  { subst W. rewrite pack_bytes_from_length.
    destruct u8 as [| b u8']; [discriminate Hl |]. rewrite Hl. reflexivity. }
  assert (HW32 : Forall is_int32 W) by (apply pack_bytes_from_int32; constructor).
  assert (HWb : forall i, (i < 32)%nat -> word_byte W i = word_byte ws i).
  { intros i Hi. subst W. rewrite word_byte_pack_bytes_from
      by (auto; intros; apply word_byte_nil).
    cbn [Nat.ltb Nat.leb]. rewrite Nat.sub_0_r. apply Hnth. exact Hi. }
  apply nth_ext with (d := 0) (d' := 0); [congruence |].
  intros j Hj. rewrite HWl in Hj.
  apply word_bytes_inj.
  - rewrite Forall_forall in HW32. apply HW32, nth_In. lia.
  - rewrite Forall_forall in Hwords. apply Hwords, nth_In. lia.
  - intros k Hk.
    assert (Hm : exists m, (m < 4)%nat /\ k = 24 - Z.of_nat m * 8).
    { destruct Hk as [-> | [-> | [-> | ->]]];
        [exists 3%nat | exists 2%nat | exists 1%nat | exists 0%nat]; lia. }
    destruct Hm as (m & Hm & ->).
    specialize (HWb (4 * j + m)%nat ltac:(lia)). unfold word_byte, array_get in HWb.
    replace ((4 * j + m) / 4)%nat with j in HWb
      by (apply Nat.div_unique with (r := m); lia).
    replace ((4 * j + m) mod 4)%nat with m in HWb
      by (apply Nat.mod_unique with (q := j); lia).
    exact HWb.
Qed.

(** The key survives printing and parsing; it prints as 64 digits. *)
Lemma key_hex_roundtrip (K : WordArray) :
  is_key256 K ->
  Hex_parse (Hex_stringify K) = K /\
  length (Hex_stringify K) = 64%nat /\
  exists ds, Hex_stringify K = map hex_char ds /\ Forall is_digit16 ds.
Proof.
  intros HK. rewrite Hex_stringify_nibbles.
  pose proof (wordArrayToUint8Array_bytes K) as Hb.
  split; [| split].
  - rewrite Hex_parse_nibbles by exact Hb. apply key_bytes_roundtrip. exact HK.
  - rewrite length_map, nibbles_length. unfold wordArrayToUint8Array.
    rewrite length_map, length_seq. destruct HK as (-> & _). reflexivity.
  - eexists. split; [reflexivity | apply nibbles_digits; exact Hb].
Qed.

(* ================================================================== *)
(** * The serialised key *)

Lemma trim_digits (ds : list Z) :
  Forall is_digit16 ds -> trim (map hex_char ds) = map hex_char ds.
Proof.
  intros Hds. unfold trim.
  rewrite trim_start_digits by assumption.
  rewrite <- map_rev, trim_start_digits by (apply Forall_rev; assumption).
  rewrite map_rev, rev_involutive. reflexivity.
Qed.

Lemma firstn_app_exact {A : Type} (n : nat) (a b : list A) :
  length a = n -> firstn n (a ++ b) = a.
Proof.
  intros <-. rewrite firstn_app, Nat.sub_diag, firstn_all, firstn_O, app_nil_r. reflexivity.
Qed.

Lemma skipn_app_exact {A : Type} (n : nat) (a b : list A) :
  length a = n -> skipn n (a ++ b) = b.
Proof.
  intros <-. rewrite skipn_app, Nat.sub_diag, skipn_all, skipn_O. reflexivity.
Qed.

(** The layout of a key made of a 64-digit block, two 4-digit fields and
    a rest. *)
Lemma slices_of_key (h a l f : jsstring) :
  length h = 64%nat -> length a = 4%nat -> length l = 4%nat ->
  slice 0 64 (h ++ a ++ l ++ f) = h /\
  slice 64 68 (h ++ a ++ l ++ f) = a /\
  slice 68 72 (h ++ a ++ l ++ f) = l /\
  slice_from 72 (h ++ a ++ l ++ f) = f.
Proof.
  intros Hh Ha Hl. unfold slice, slice_from.
  repeat split.
  - cbn [skipn Nat.sub]. apply firstn_app_exact. exact Hh.
  - rewrite skipn_app_exact by exact Hh. apply firstn_app_exact. exact Ha.
  - rewrite app_assoc, skipn_app_exact by (rewrite length_app; lia).
    apply firstn_app_exact. exact Hl.
  - rewrite !app_assoc, skipn_app_exact by (rewrite !length_app; lia). reflexivity.
Qed.

(** Printing then parsing a key whose fields fit. *)
Lemma unpackageKey_packageKey (K : WordArray) (t L pos0 : Z) :
  is_key256 K -> 0 <= t < 65536 -> 0 <= L < 65536 -> 0 <= pos0 ->
  let keyObj := mkStegKey K (JInt pos0) (JInt t) (JInt L) in
  let s := packageKey keyObj in
  unpackageKey s = Returned keyObj /\
  (exists ds, s = map hex_char ds /\ Forall is_digit16 ds) /\
  Hex_parse (slice 0 64 s) = K /\
  parseInt16 (slice 64 68 s) = JInt t /\
  parseInt16 (slice 68 72 s) = JInt L /\
  parseInt16 (slice_from 72 s) = JInt pos0.
Proof.
  intros HK Ht HL Hpos keyObj s.
  destruct (key_hex_roundtrip K HK) as (HKrt & HKlen & dsK & HKds & HKall).
  destruct (field16_spec t Ht) as (Htlen & Htrt & dsT & HTds & HTall).
  destruct (field16_spec L HL) as (HLlen & HLrt & dsL & HLds & HLall).
  destruct (field_var_spec pos0 Hpos) as (HPrt & dsP & HPds & HPall & HPne).
  assert (Hs : s = Hex_stringify K ++ padStart4 (toString16 (JInt t))
                   ++ padStart4 (toString16 (JInt L)) ++ toString16 (JInt pos0))
    by reflexivity.
  destruct (slices_of_key _ _ _ (toString16 (JInt pos0)) HKlen Htlen HLlen)
    as (S1 & S2 & S3 & S4).
  rewrite <- Hs in S1, S2, S3, S4.
  assert (Hdigits : exists ds, s = map hex_char ds /\ Forall is_digit16 ds).
  { exists (dsK ++ dsT ++ dsL ++ dsP). split.
    - rewrite Hs, HKds, HTds, HLds, HPds, !map_app. reflexivity.
    - repeat (apply Forall_app; split); assumption. }
  assert (Hlen : (72 <= length s)%nat).
  { rewrite Hs, !length_app, HKlen, Htlen, HLlen. lia. }
  split; [| split; [exact Hdigits | rewrite S1, S2, S3, S4; auto]].
  unfold unpackageKey.
  destruct Hdigits as (ds & Hds & Hall).
  rewrite Hds, trim_digits, <- Hds by exact Hall.
  replace (length s <? 72)%nat with false by (symmetry; apply Nat.ltb_ge; exact Hlen).
  rewrite S1, S2, S3, S4, HKrt, Htrt, HLrt, HPrt. reflexivity.
Qed.

(** C5, as the code has it. For a 256-bit key [K], an alias count in
    [1, Q) and a message length below [Q] (both fit 16 bits) and a first
    position [pos0 >= 0], parsing the serialised key returns
    [(K, t, L, pos0)]; the serialised form is lowercase hexadecimal, [K]
    in characters [0, 64), [t] in [64, 68), [L] in [68, 72) and [pos0] in
    the rest. *)
Theorem packageKey_roundtrip (K : WordArray) (t L pos0 : Z) :
  is_key256 K -> 1 <= t < 65536 -> 0 <= L < 65536 -> 0 <= pos0 ->
  let keyObj := mkStegKey K (JInt pos0) (JInt t) (JInt L) in
  let s := packageKey keyObj in
  unpackageKey s = Returned keyObj /\
  (exists ds, s = map hex_char ds /\ Forall is_digit16 ds) /\
  Hex_parse (slice 0 64 s) = K /\
  parseInt16 (slice 64 68 s) = JInt t /\
  parseInt16 (slice 68 72 s) = JInt L /\
  parseInt16 (slice_from 72 s) = JInt pos0.
Proof.
  intros HK Ht HL Hpos. apply unpackageKey_packageKey; try assumption. lia.
Qed.

Lemma packageKey_roundtrip_witness :
  unpackageKey (packageKey (mkStegKey demo_key (JInt 171) (JInt 13) (JInt 5000))) =
  Returned (mkStegKey demo_key (JInt 171) (JInt 13) (JInt 5000)).
Proof.
  assert (HK : is_key256 demo_key).
  { unfold is_key256, demo_key. cbn [words sigBytes length].
    repeat split; repeat (constructor; [unfold is_int32; lia |]); constructor. }
  exact (proj1 (packageKey_roundtrip demo_key 13 5000 171 HK
                  ltac:(lia) ltac:(lia) ltac:(lia))).
Defined.

(** C5 as stated fails at [t = Q = 65536]: the alias field takes five
    digits and every later field is read one character off. *)
Lemma packageKey_roundtrip_fails_at_Q :
  unpackageKey (packageKey (mkStegKey demo_key (JInt 0) (JInt 65536) (JInt 5))) =
  Returned (mkStegKey demo_key (JInt 80) (JInt 4096) (JInt 0)).
Proof. vm_compute. reflexivity. Qed.

(* ================================================================== *)
(** * Which errors each part of encode can throw *)

Section Errors.
Context {C : CryptoES} {I : Isaac}.

Lemma select_indices_never_throws (fuel : nat) (target : jsnum) (pixelCount : Z)
    (g : rng_state) (seen : list Z) (e : error) :
  select_indices fuel target pixelCount g seen <> Thrown e.
Proof.
  revert g seen. induction fuel as [| f IH]; intros g seen; cbn [select_indices];
    destruct (js_lt _ target); try discriminate.
  destruct (isaac_random g) as [r g']. apply IH.
Qed.

Lemma getPixelAt_throws (img : StegImage) (idx : Z) (e : error) :
  getPixelAt img idx = Thrown e -> e = PixelIndexOutOfRange.
Proof.
  unfold getPixelAt. destruct (_ || _); [| discriminate]. intros [= <-]. reflexivity.
Qed.

Lemma map_getPixelAt_throws (img : StegImage) (idxs : list Z) (e : error) :
  map_outcome (getPixelAt img) idxs = Thrown e -> e = PixelIndexOutOfRange.
Proof.
  induction idxs as [| idx rest IH]; cbn [map_outcome]; [discriminate |].
  destruct (getPixelAt img idx) as [px | e' |] eqn:E; cbn [bind].
  - destruct (map_outcome (getPixelAt img) rest) as [pxs | e' |]; cbn [bind];
      [discriminate | | discriminate].
    intros [= <-]. apply IH. reflexivity.
  - intros [= <-]. eapply getPixelAt_throws. exact E.
  - discriminate.
Qed.

Lemma chain_loop_throws (K : WordArray) (pixels : list StegPixel) (bs : list Z)
    (pos : Z) (used : list Z) (enc : list StegPixel) (e : error) :
  chain_loop K pixels bs pos used enc = Thrown e -> e = InvariantViolated.
Proof.
  revert pos used enc. induction bs as [| b rest IH]; intros pos used enc;
    cbn [chain_loop]; [discriminate |].
  destruct (encode_step K pixels used pos b) as [[[bp bd] bpos] |].
  - apply IH.
  - intros [= <-]. reflexivity.
Qed.

Lemma write_pixels_throws (pixels : list StegPixel) (img : StegImage) (e : error) :
  fst (write_pixels img pixels) = Thrown e -> e = PixelIndexOutOfRange.
Proof.
  revert img. induction pixels as [| px rest IH]; intros img; cbn [write_pixels];
    [discriminate |].
  unfold setPixelAt. destruct (_ || _); cbn [fst].
  - intros [= <-]. reflexivity.
  - apply IH.
Qed.

Lemma encoder_selection_too_long (fuel : nat) (enc : StegEncoder) :
  width (enc_image enc) * height (enc_image enc)
    < Z.of_nat (length (aes_encrypt (enc_key enc) (enc_message enc))) ->
  encoder_selection fuel enc = Thrown MessageTooLong.
Proof.
  intros H. unfold encoder_selection.
  destruct (renegotiate _ _) as [a n].
  replace (_ >? _) with true by (symmetry; rewrite Z.gtb_ltb; apply Z.ltb_lt; exact H).
  reflexivity.
Qed.

Lemma build_chain_too_long (fuel : nat) (enc : StegEncoder) :
  width (enc_image enc) * height (enc_image enc)
    < Z.of_nat (length (aes_encrypt (enc_key enc) (enc_message enc))) ->
  build_chain fuel enc = Thrown MessageTooLong.
Proof.
  intros H. unfold build_chain. rewrite encoder_selection_too_long by exact H. reflexivity.
Qed.

Lemma encoder_selection_fits (fuel : nat) (enc : StegEncoder) :
  Z.of_nat (length (aes_encrypt (enc_key enc) (enc_message enc)))
    <= width (enc_image enc) * height (enc_image enc) ->
  encoder_selection fuel enc <> Thrown MessageTooLong.
Proof.
  intros H. unfold encoder_selection.
  destruct (renegotiate _ _) as [a n].
  replace (_ >? _) with false
    by (symmetry; rewrite Z.gtb_ltb; apply Z.ltb_ge; exact H).
  destruct (select_indices fuel _ _ _ []) as [idxs | e |] eqn:Es; cbn [bind];
    [discriminate | exfalso; eapply select_indices_never_throws; exact Es | discriminate].
Qed.

Lemma build_chain_fits (fuel : nat) (enc : StegEncoder) :
  Z.of_nat (length (aes_encrypt (enc_key enc) (enc_message enc)))
    <= width (enc_image enc) * height (enc_image enc) ->
  build_chain fuel enc <> Thrown MessageTooLong.
Proof.
  intros H. unfold build_chain.
  pose proof (encoder_selection_fits fuel enc H) as Hsel.
  destruct (encoder_selection fuel enc) as [[a idxs] | e |]; cbn [bind fst snd];
    [| congruence | discriminate].
  destruct (map_outcome _ idxs) as [pxs | e |] eqn:Em; cbn [bind];
    [| apply map_getPixelAt_throws in Em; subst e; discriminate | discriminate].
  destruct (stable_sort_by _ pxs) as [| closest rest]; [discriminate |].
  destruct (chain_loop _ _ _ _ _ _) as [ch | e |] eqn:Ec; cbn [bind];
    [discriminate | apply chain_loop_throws in Ec; subst e; discriminate | discriminate].
Qed.

(** C8. Encode fails with the capacity error exactly when the ciphertext is
    longer than the pixel count. When it is, the error is raised whatever
    the fuel, so before any index is drawn, and [this.image] is unchanged;
    when it is not, the capacity check passes. *)
Theorem capacity_error_iff (enc : StegEncoder) :
  let L := Z.of_nat (length (aes_encrypt (enc_key enc) (enc_message enc))) in
  let pixelCount := width (enc_image enc) * height (enc_image enc) in
  (forall fuel, fst (encode fuel enc) = Thrown MessageTooLong <-> pixelCount < L) /\
  (pixelCount < L ->
   forall fuel, encode fuel enc = (Thrown MessageTooLong, enc_image enc)).
Proof.
  intros L pixelCount.
  assert (Hlong : pixelCount < L ->
                  forall fuel, encode fuel enc = (Thrown MessageTooLong, enc_image enc)).
  { intros H fuel. unfold encode. rewrite build_chain_too_long by exact H. reflexivity. }
  split; [| exact Hlong].
  intros fuel. split.
  - intros Henc. destruct (Z.lt_ge_cases pixelCount L) as [Hlt | Hge]; [exact Hlt |].
    exfalso. pose proof (build_chain_fits fuel enc Hge) as Hb.
    unfold encode in Henc.
    destruct (build_chain fuel enc) as [[[[pxs a] pos] len] | e |]; cbn [fst] in Henc.
    + destruct (write_pixels (enc_image enc) pxs) as [[u | e |] img] eqn:Ew;
        cbn [fst] in Henc; try discriminate.
      assert (Hw : fst (write_pixels (enc_image enc) pxs) = Thrown e) by (rewrite Ew; reflexivity).
      apply write_pixels_throws in Hw. congruence.
    + congruence.
    + discriminate.
  - intros H. rewrite Hlong by exact H. reflexivity.
Qed.

End Errors.

Lemma capacity_error_iff_witness :
  4 * 4 < 17 /\
  @encode Toy.toy_crypto Toy.toy_isaac 0 Toy.enc_too_long =
  (Thrown MessageTooLong, enc_image Toy.enc_too_long).
Proof.
  split; [lia |].
  apply (proj2 (@capacity_error_iff Toy.toy_crypto Toy.toy_isaac Toy.enc_too_long)).
  vm_compute. reflexivity.
Defined.

(* ================================================================== *)
(** * Candidate selection *)

Lemma floor_scale_range (r : Q) (n : Z) :
  (0 <= r)%Q -> (r < 1)%Q -> 0 < n -> 0 <= Qfloor (r * inject_Z n) < n.
Proof.
  intros H0 H1 Hn.
  assert (Hn' : (0 < inject_Z n)%Q)
    by (change (inject_Z 0 < inject_Z n)%Q; rewrite <- Zlt_Qlt; exact Hn).
  split.
  - change 0 with (Qfloor 0). apply Qfloor_resp_le.
    apply Qmult_le_0_compat; [exact H0 | apply Qlt_le_weak; exact Hn'].
  - rewrite Zlt_Qlt.
    apply Qle_lt_trans with (y := (r * inject_Z n)%Q); [apply Qfloor_le |].
    setoid_replace (inject_Z n) with (1 * inject_Z n)%Q at 2 by ring.
    apply Qmult_lt_compat_r; assumption.
Qed.

Lemma set_add_In (x y : Z) (s : list Z) : In y (set_add x s) <-> y = x \/ In y s.
Proof.
  unfold set_add. destruct (existsb (Z.eqb x) s) eqn:E.
  - apply existsb_exists in E. destruct E as (z & Hz & Hxz). apply Z.eqb_eq in Hxz. subst z.
    split; [auto | intros [-> | H]; assumption].
  - rewrite in_app_iff. cbn. split; [intros [H | [H | []]]; auto | intros [-> | H]; auto].
Qed.

Lemma set_add_NoDup (x : Z) (s : list Z) : NoDup s -> NoDup (set_add x s).
Proof.
  intros Hs. unfold set_add. destruct (existsb (Z.eqb x) s) eqn:E; [exact Hs |].
  apply NoDup_app; [exact Hs | constructor; [intros [] | constructor] |].
  intros y Hy [<- | []].
  assert (Hex : existsb (Z.eqb x) s = true);
    [apply existsb_exists; exists x; split; [exact Hy | apply Z.eqb_refl] | congruence].
Qed.

Lemma set_add_length (x : Z) (s : list Z) :
  (length s <= length (set_add x s) <= S (length s))%nat.
Proof.
  unfold set_add. destruct (existsb (Z.eqb x) s); [lia |].
  rewrite length_app. cbn. lia.
Qed.

Lemma set_add_Forall (P : Z -> Prop) (x : Z) (s : list Z) :
  P x -> Forall P s -> Forall P (set_add x s).
Proof.
  intros Hx Hs. apply Forall_forall. intros y Hy. apply set_add_In in Hy.
  destruct Hy as [-> | Hy]; [exact Hx | rewrite Forall_forall in Hs; auto].
Qed.

(** Distinct indices of an image are no more than its pixels. *)
Lemma distinct_indices_bound (pixelCount : Z) (s : list Z) :
  NoDup s -> Forall (in_image pixelCount) s -> Z.of_nat (length s) <= Z.max 0 pixelCount.
Proof.
  intros Hnd Hall.
  assert (Hincl : incl (map Z.to_nat s) (seq 0 (Z.to_nat pixelCount))).
  { intros n Hn. apply in_map_iff in Hn. destruct Hn as (z & <- & Hz).
    rewrite Forall_forall in Hall. specialize (Hall z Hz). unfold in_image in Hall.
    apply in_seq. lia. }
  assert (Hnd' : NoDup (map Z.to_nat s)).
  { clear Hincl. induction Hnd as [| z s Hz Hnd IH]; cbn; constructor.
    - intros Hin. apply in_map_iff in Hin. destruct Hin as (y & Hy & Hys).
      apply Hz. replace z with y; [exact Hys |].
      rewrite Forall_forall in Hall.
      pose proof (Hall z (or_introl eq_refl)) as Hz'.
      pose proof (Hall y (or_intror Hys)) as Hy'. unfold in_image in *. lia.
    - apply IH. inversion Hall; assumption. }
  pose proof (NoDup_incl_length Hnd' Hincl) as Hlen.
  rewrite length_map, length_seq in Hlen. lia.
Qed.

Section Selection.
Context {I : Isaac} {HI : IsaacUnit I}.

Lemma draw_in_image (g : rng_state) (pixelCount : Z) :
  0 < pixelCount -> in_image pixelCount (Qfloor (fst (isaac_random g) * inject_Z pixelCount)).
Proof.
  intros Hp. destruct (isaac_random_unit g) as [H0 H1].
  apply floor_scale_range; assumption.
Qed.

(** A target above the pixel count is never reached: the loop runs for
    as long as it is given fuel. *)
Lemma select_indices_diverges (n pixelCount : Z) :
  0 < pixelCount -> pixelCount < n ->
  forall (fuel : nat) (g : rng_state) (seen : list Z),
    NoDup seen -> Forall (in_image pixelCount) seen ->
    select_indices fuel (JInt n) pixelCount g seen = OutOfFuel.
Proof.
  intros Hp Hn. induction fuel as [| f IH]; intros g seen Hnd Hall;
    pose proof (distinct_indices_bound pixelCount seen Hnd Hall) as Hb;
    cbn [select_indices js_lt];
    replace (Z.of_nat (length seen) <? n) with true by (symmetry; apply Z.ltb_lt; lia).
  - reflexivity.
  - pose proof (draw_in_image g pixelCount Hp) as Hd.
    destruct (isaac_random g) as [r g']. cbn [fst] in Hd.
    apply IH; [apply set_add_NoDup | apply set_add_Forall]; assumption.
Qed.

(** When the loop ends it holds exactly [n] distinct image indices. *)
Lemma select_indices_returned (n pixelCount : Z) :
  0 < pixelCount ->
  forall (fuel : nat) (g : rng_state) (seen S : list Z),
    NoDup seen -> Forall (in_image pixelCount) seen -> Z.of_nat (length seen) <= n ->
    select_indices fuel (JInt n) pixelCount g seen = Returned S ->
    NoDup S /\ Forall (in_image pixelCount) S /\ Z.of_nat (length S) = n.
Proof.
  intros Hp. induction fuel as [| f IH]; intros g seen S Hnd Hall Hlen;
    cbn [select_indices js_lt];
    destruct (Z.ltb_spec (Z.of_nat (length seen)) n) as [Hlt | Hge]; try discriminate.
  - intros [= <-]. repeat split; [assumption | assumption | lia].
  - pose proof (draw_in_image g pixelCount Hp) as Hd.
    destruct (isaac_random g) as [r g']. cbn [fst] in Hd.
    apply IH; [apply set_add_NoDup | apply set_add_Forall |]; try assumption.
    pose proof (set_add_length (Qfloor (r * inject_Z pixelCount)) seen). lia.
  - intros [= <-]. repeat split; [assumption | assumption | lia].
Qed.

End Selection.

(* ================================================================== *)
(** * Sorting and the candidate list *)

Lemma insert_by_perm {A : Type} (k : A -> Z) (x : A) (l : list A) :
  Permutation (insert_by k x l) (x :: l).
Proof.
  induction l as [| y l IH]; cbn [insert_by]; [reflexivity |].
  destruct (k x <=? k y); [reflexivity |].
  rewrite IH. apply perm_swap.
Qed.

Lemma stable_sort_by_perm {A : Type} (k : A -> Z) (l : list A) :
  Permutation (stable_sort_by k l) l.
Proof.
  induction l as [| x l IH]; cbn; [reflexivity |].
  fold (stable_sort_by k l). rewrite insert_by_perm, IH. reflexivity.
Qed.

Lemma stable_sort_by_In {A : Type} (k : A -> Z) (l : list A) (x : A) :
  In x (stable_sort_by k l) <-> In x l.
Proof.
  split; apply Permutation_in; [| symmetry]; apply stable_sort_by_perm.
Qed.

Lemma candidatePixels_In (pixels : list StegPixel) (byte : Z) (px : StegPixel) :
  In px (candidatePixels pixels byte) -> In px pixels.
Proof.
  unfold candidatePixels. rewrite in_app_iff, stable_sort_by_In, !filter_In. tauto.
Qed.

(** * findIndex *)

Lemma findIndex_from_range (i : Z) (pixels : list StegPixel) (idx : Z) :
  0 <= i ->
  findIndex_from i pixels idx = -1 \/
  i <= findIndex_from i pixels idx < i + Z.of_nat (length pixels).
Proof.
  revert i. induction pixels as [| p rest IH]; intros i Hi; cbn [findIndex_from length];
    [left; reflexivity |].
  destruct (index p =? idx); [right; lia |].
  destruct (IH (i + 1) ltac:(lia)) as [H | H]; [left; exact H | right; lia].
Qed.

Lemma findIndex_from_found (i : Z) (pixels : list StegPixel) (idx : Z) :
  0 <= i -> findIndex_from i pixels idx <> -1 ->
  exists p, nth_error pixels (Z.to_nat (findIndex_from i pixels idx - i)) = Some p /\
            index p = idx.
Proof.
  revert i. induction pixels as [| p rest IH]; intros i Hi; cbn [findIndex_from];
    [congruence |].
  destruct (Z.eqb_spec (index p) idx) as [E | E].
  - intros _. exists p. rewrite Z.sub_diag. split; [reflexivity | exact E].
  - intros Hne. destruct (IH (i + 1) ltac:(lia) Hne) as (q & Hq & Hidx).
    exists q. split; [| exact Hidx].
    destruct (findIndex_from_range (i + 1) rest idx ltac:(lia)) as [H | H]; [congruence |].
    replace (Z.to_nat (findIndex_from (i + 1) rest idx - i))
      with (S (Z.to_nat (findIndex_from (i + 1) rest idx - (i + 1)))) by lia.
    exact Hq.
Qed.

Lemma findIndex_from_In (i : Z) (pixels : list StegPixel) (p : StegPixel) :
  0 <= i -> In p pixels -> findIndex_from i pixels (index p) <> -1.
Proof.
  revert i. induction pixels as [| q rest IH]; intros i Hi Hin; cbn [findIndex_from];
    [contradiction |].
  destruct (Z.eqb_spec (index q) (index p)); [lia |].
  destruct Hin as [-> | Hin]; [congruence |]. apply IH; [lia | exact Hin].
Qed.

(** * What the scan returns *)

Lemma try_pointers_from (pixels : list StegPixel) (used : list Z) (byte : Z)
    (original : StegPixel) (ptrs : list StegPointer) (b : best) :
  findIndex pixels (index original) <> -1 ->
  existsb (Z.eqb (findIndex pixels (index original))) used = false ->
  forall r,
    (try_pointers byte original (findIndex pixels (index original)) ptrs b = Continue r \/
     try_pointers byte original (findIndex pixels (index original)) ptrs b = BreakOuter r) ->
    best_from pixels used [original] b r.
Proof.
  intros Hpos Hfree. revert b. induction ptrs as [| ptr rest IH]; intros b r; cbn [try_pointers].
  - intros [[= <-] | [=]]. left. reflexivity.
  - destruct (_ && _).
    + intros [[=] | [= <-]]. right. eexists _, original.
      split; [reflexivity |]. split; [left; reflexivity |].
      repeat split; assumption.
    + intros Hr. destruct (improves _ b).
      * destruct (IH _ _ Hr) as [-> | Hfrom]; [| right; exact Hfrom].
        right. eexists _, original. split; [reflexivity |]. split; [left; reflexivity |].
        repeat split; assumption.
      * exact (IH _ _ Hr).
Qed.

Lemma scan_candidates_from (pixels : list StegPixel) (used : list Z) (byte : Z)
    (ptrs : list StegPointer) (cands : list StegPixel) (b : best) :
  best_from pixels used cands b (scan_candidates pixels used byte ptrs cands b).
Proof.
  revert b. induction cands as [| c rest IH]; intros b; cbn [scan_candidates].
  - left. reflexivity.
  - assert (Hrest : forall b', best_from pixels used [c] b b' ->
                               best_from pixels used (c :: rest) b
                                 (scan_candidates pixels used byte ptrs rest b')).
    { intros b' Hb'. destruct (IH b') as [-> | (t & c' & -> & Hin & Hfrom)].
      - destruct Hb' as [-> | (t & c' & -> & [<- | []] & Hfrom)];
          [left; reflexivity | right; exists t, c; split; [reflexivity |]].
        split; [left; reflexivity | exact Hfrom].
      - right. exists t, c'. split; [reflexivity |]. split; [right; exact Hin | exact Hfrom]. }
    destruct (Z.eqb_spec (findIndex pixels (index c)) (-1)) as [E | E]; cbn [orb].
    + apply Hrest. left. reflexivity.
    + destruct (existsb _ used) eqn:Eu.
      * apply Hrest. left. reflexivity.
      * destruct (try_pointers _ _ _ _ _) as [b' | b'] eqn:Et.
        -- apply Hrest. eapply try_pointers_from; [exact E | exact Eu | left; exact Et].
        -- pose proof (try_pointers_from pixels used byte c ptrs b E Eu b' (or_intror Et)) as Hb'.
           destruct Hb' as [-> | (t & c' & -> & [<- | []] & Hfrom)];
             [left; reflexivity | right; exists t, c; split; [reflexivity |]].
           split; [left; reflexivity | exact Hfrom].
Qed.

(* ================================================================== *)
(** * The alpha channel *)

Lemma typed_set_length (arr : list Z) (j : nat) (v : Z) :
  length (typed_set arr j v) = length arr.
Proof.
  revert j. induction arr as [| x arr IH]; intros [| j]; cbn; try reflexivity.
  rewrite IH. reflexivity.
Qed.

Lemma typed_get_set (arr : list Z) (j k : nat) (v : Z) :
  typed_get (typed_set arr j v) k =
  if (k =? j)%nat && (j <? length arr)%nat then v else typed_get arr k.
Proof.
  unfold typed_get. revert j k. induction arr as [| x arr IH]; intros j k.
  - cbn. rewrite andb_false_r. destruct j; reflexivity.
  - destruct j as [| j], k as [| k]; cbn [typed_set nth length]; try reflexivity.
    rewrite IH. reflexivity.
Qed.

Lemma setPixelAt_dims (img img' : StegImage) (px : StegPixel) :
  setPixelAt img px = Returned img' -> width img' = width img /\ height img' = height img.
Proof.
  unfold setPixelAt. destruct (_ || _); [discriminate |]. intros [= <-]. split; reflexivity.
Qed.

Lemma setPixelAt_alpha (img img' : StegImage) (px : StegPixel) :
  setPixelAt img px = Returned img' ->
  chA (bytes px) = alpha_at img (Z.to_nat (index px)) ->
  forall idx, alpha_at img' idx = alpha_at img idx.
Proof.
  unfold setPixelAt.
  destruct (Z.ltb_spec (index px) 0) as [Hneg | Hpos]; cbn [orb]; [discriminate |].
  destruct (_ >=? _); [discriminate |].
  intros [= <-] HA idx. unfold alpha_at in *. cbn [channels].
  assert (Hci : Z.to_nat (index px * 4) = (4 * Z.to_nat (index px))%nat) by lia.
  rewrite Hci. rewrite !typed_get_set, !typed_set_length.
  destruct (Nat.eqb_spec (4 * idx + 3) (4 * Z.to_nat (index px) + 3)) as [E | E];
    cbn [andb].
  - replace idx with (Z.to_nat (index px)) by lia.
    destruct (_ <? _)%nat; [exact HA |].
    repeat (match goal with
            | |- context [Nat.eqb ?a ?b] =>
                destruct (Nat.eqb_spec a b); [lia |]; cbn [andb]
            end).
    reflexivity.
  - repeat (match goal with
            | |- context [Nat.eqb ?a ?b] =>
                destruct (Nat.eqb_spec a b); [lia |]; cbn [andb]
            end).
    reflexivity.
Qed.

Lemma write_pixels_alpha (img0 : StegImage) (pixels : list StegPixel) :
  Forall (alpha_ok img0) pixels ->
  forall img,
    (forall idx, alpha_at img idx = alpha_at img0 idx) ->
    forall idx, alpha_at (snd (write_pixels img pixels)) idx = alpha_at img0 idx.
Proof.
  induction 1 as [| px rest Hpx _ IH]; intros img Himg idx; cbn [write_pixels snd];
    [apply Himg |].
  destruct (setPixelAt img px) as [img' | e |] eqn:E; cbn [snd]; [| apply Himg | apply Himg].
  apply IH. intros j. rewrite <- Himg.
  apply (setPixelAt_alpha img img' px E).
  rewrite Himg. unfold alpha_ok in Hpx. rewrite Hpx. unfold alpha_at.
  assert (0 <= index px).
  { unfold setPixelAt in E. destruct (Z.ltb_spec (index px) 0); [discriminate | assumption]. }
  f_equal. lia.
Qed.

Lemma getPixelAt_returned (img : StegImage) (idx : Z) (px : StegPixel) :
  getPixelAt img idx = Returned px ->
  index px = idx /\ alpha_ok img px /\ pointer px = StegPointer_of_pixel (bytes px) /\
  0 <= idx < width img * height img.
Proof.
  unfold getPixelAt.
  destruct (Z.ltb_spec idx 0); cbn [orb]; [discriminate |].
  destruct (Z.geb_spec idx (width img * height img)); [discriminate |].
  intros [= <-]. unfold alpha_ok. cbn. repeat split; lia.
Qed.

Lemma map_getPixelAt_returned (img : StegImage) (idxs : list Z) (pxs : list StegPixel) :
  map_outcome (getPixelAt img) idxs = Returned pxs ->
  map index pxs = idxs /\ Forall (alpha_ok img) pxs /\
  Forall (fun px => pointer px = StegPointer_of_pixel (bytes px)) pxs /\
  Forall (fun idx => 0 <= idx < width img * height img) idxs.
Proof.
  revert pxs. induction idxs as [| idx rest IH]; intros pxs; cbn [map_outcome].
  - intros [= <-]. repeat split; constructor.
  - destruct (getPixelAt img idx) as [px | |] eqn:E; cbn [bind]; try discriminate.
    destruct (map_outcome (getPixelAt img) rest) as [pxs' | |]; cbn [bind]; try discriminate.
    intros [= <-]. destruct (IH pxs' eq_refl) as (Hi & Ha & Hp & Hr).
    destruct (getPixelAt_returned _ _ _ E) as (Hi' & Ha' & Hp' & Hr').
    repeat split; [cbn; congruence | | |]; constructor; assumption.
Qed.

Section Alpha.
Context {C : CryptoES} {I : Isaac}.

Lemma encode_step_alpha (img : StegImage) (K : WordArray) (pixels : list StegPixel)
    (used : list Z) (pos byte : Z) (px : StegPixel) (d bpos : Z) :
  Forall (alpha_ok img) pixels ->
  encode_step K pixels used pos byte = Some (px, d, bpos) ->
  alpha_ok img px.
Proof.
  intros Hall Hstep. unfold encode_step in Hstep.
  pose proof (scan_candidates_from pixels used byte
                (possiblePreviousPointers K (Z.of_nat (length pixels)) pos)
                (candidatePixels pixels byte) None) as Hfrom.
  rewrite Hstep in Hfrom. destruct Hfrom as [[=] | (t & c & [= <-] & Hin & Hc)].
  destruct Hc as (Hidx & HA & _). cbn [fst] in Hidx, HA.
  apply candidatePixels_In in Hin. rewrite Forall_forall in Hall.
  specialize (Hall c Hin). unfold alpha_ok in *. rewrite Hidx, HA. exact Hall.
Qed.

Lemma chain_loop_alpha (img : StegImage) (K : WordArray) (pixels : list StegPixel)
    (bs : list Z) :
  Forall (alpha_ok img) pixels ->
  forall pos used encoded r,
    Forall (alpha_ok img) encoded ->
    chain_loop K pixels bs pos used encoded = Returned r ->
    Forall (alpha_ok img) (snd r).
Proof.
  intros Hall. induction bs as [| b rest IH]; intros pos used encoded r Henc;
    cbn [chain_loop].
  - intros [= <-]. exact Henc.
  - destruct (encode_step K pixels used pos b) as [[[px d] bpos] |] eqn:Es; [| discriminate].
    apply IH. apply Forall_app. split; [exact Henc |].
    constructor; [| constructor]. eapply encode_step_alpha; [exact Hall | exact Es].
Qed.

Lemma build_chain_alpha (fuel : nat) (enc : StegEncoder) r :
  build_chain fuel enc = Returned r ->
  Forall (alpha_ok (enc_image enc)) (fst (fst (fst r))).
Proof.
  unfold build_chain.
  destruct (encoder_selection fuel enc) as [[a idxs] | |]; cbn [bind fst snd]; try discriminate.
  destruct (map_outcome _ idxs) as [pxs | |] eqn:Em; cbn [bind]; try discriminate.
  destruct (map_getPixelAt_returned _ _ _ Em) as (_ & Hall & _).
  destruct (stable_sort_by _ pxs) as [| closest rest] eqn:Es; [discriminate |].
  assert (Hc : alpha_ok (enc_image enc) closest).
  { rewrite Forall_forall in Hall. apply Hall.
    apply (stable_sort_by_In (red_distance (nth_error (aes_encrypt (enc_key enc) (enc_message enc))
             (length (aes_encrypt (enc_key enc) (enc_message enc)) - 1)))).
    rewrite Es. left. reflexivity. }
  match goal with
  | |- context [chain_loop ?K ?P ?B ?pos ?U ?E] =>
      destruct (chain_loop K P B pos U E) as [ch | |] eqn:Ec; cbn [bind]; try discriminate;
      pose proof (chain_loop_alpha (enc_image enc) K P B) as Hloop
  end.
  intros [= <-]. cbn [fst].
  eapply Hloop; [| | exact Ec].
  - apply Forall_forall. intros p Hp. apply in_map_iff in Hp.
    destruct Hp as (q & <- & Hq). destruct (same_object q closest).
    + exact Hc.
    + rewrite Forall_forall in Hall. apply Hall. exact Hq.
  - constructor; [exact Hc | constructor].
Qed.

(** C7. Whatever encode does (return or throw, with any fuel), the alpha
    byte of every pixel of [this.image] is afterwards what it was: only
    the R, G and B bytes of chain pixels are rewritten, and the alpha
    byte stored back with them is the one read. *)
Theorem encode_preserves_alpha (fuel : nat) (enc : StegEncoder) (idx : nat) :
  alpha_at (snd (encode fuel enc)) idx = alpha_at (enc_image enc) idx.
Proof.
  unfold encode.
  destruct (build_chain fuel enc) as [[[[pxs a] pos] len] | e |] eqn:Eb; cbn [snd];
    try reflexivity.
  pose proof (build_chain_alpha fuel enc _ Eb) as Hall. cbn [fst] in Hall.
  pose proof (write_pixels_alpha (enc_image enc) pxs Hall (enc_image enc)
                (fun _ => eq_refl) idx) as Hw.
  destruct (write_pixels (enc_image enc) pxs) as [[u | e |] img]; cbn [snd] in *; exact Hw.
Qed.

End Alpha.

(* ================================================================== *)
(** * Positions of the candidate set *)

Lemma findIndex_from_nth (pixels : list StegPixel) :
  NoDup (map index pixels) ->
  forall (i : Z) (n : nat) (p : StegPixel),
    nth_error pixels n = Some p ->
    findIndex_from i pixels (index p) = i + Z.of_nat n.
Proof.
  induction pixels as [| q rest IH]; intros Hnd i n p Hn; [destruct n; discriminate |].
  cbn [map] in Hnd. inversion Hnd as [| ? ? Hq Hnd']; subst.
  cbn [findIndex_from]. destruct n as [| n]; cbn [nth_error] in Hn.
  - injection Hn as ->. rewrite Z.eqb_refl. lia.
  - destruct (Z.eqb_spec (index q) (index p)) as [E | E].
    + exfalso. apply Hq. rewrite E. apply in_map. eapply nth_error_In. exact Hn.
    + rewrite (IH Hnd' (i + 1) n p Hn). lia.
Qed.

Lemma findIndex_nth (pixels : list StegPixel) (n : nat) (p : StegPixel) :
  NoDup (map index pixels) -> nth_error pixels n = Some p ->
  findIndex pixels (index p) = Z.of_nat n.
Proof. intros Hnd Hn. unfold findIndex. rewrite (findIndex_from_nth pixels Hnd 0 n p Hn). lia. Qed.

Lemma findIndex_range (pixels : list StegPixel) (idx : Z) :
  findIndex pixels idx = -1 \/ 0 <= findIndex pixels idx < Z.of_nat (length pixels).
Proof.
  unfold findIndex. destruct (findIndex_from_range 0 pixels idx ltac:(lia)); [left | right]; lia.
Qed.

Lemma same_index_same_pixel (pixels : list StegPixel) (p q : StegPixel) :
  NoDup (map index pixels) -> In p pixels -> In q pixels -> index p = index q -> p = q.
Proof.
  intros Hnd Hp Hq E.
  apply In_nth_error in Hp, Hq. destruct Hp as (n & Hn), Hq as (m & Hm).
  pose proof (findIndex_nth pixels n p Hnd Hn) as Fn.
  pose proof (findIndex_nth pixels m q Hnd Hm) as Fm.
  rewrite E in Fn. assert (n = m) by lia. subst m. congruence.
Qed.

(** With one object per index, the fallback list is the pixels whose red
    byte differs, and every pixel is a candidate. *)
Lemma fallback_filter (pixels : list StegPixel) (byte : Z) :
  NoDup (map index pixels) ->
  filter (fun p => negb (existsb (same_object p)
                           (filter (fun pixel => chR (bytes pixel) =? byte) pixels))) pixels =
  filter (fun p => negb (chR (bytes p) =? byte)) pixels.
Proof.
  intros Hnd. apply filter_ext_in. intros p Hp. f_equal.
  destruct (chR (bytes p) =? byte) eqn:E.
  - apply existsb_exists. exists p. split; [apply filter_In; auto |].
    unfold same_object. apply Z.eqb_refl.
  - destruct (existsb _ _) eqn:Ex; [| reflexivity].
    apply existsb_exists in Ex. destruct Ex as (q & Hq & Hsame).
    apply filter_In in Hq. destruct Hq as [Hq Hred].
    unfold same_object in Hsame. apply Z.eqb_eq in Hsame.
    rewrite (same_index_same_pixel pixels p q Hnd Hp Hq Hsame) in E. congruence.
Qed.

Lemma candidatePixels_complete (pixels : list StegPixel) (byte : Z) (p : StegPixel) :
  NoDup (map index pixels) -> In p pixels -> In p (candidatePixels pixels byte).
Proof.
  intros Hnd Hp. unfold candidatePixels. rewrite fallback_filter by exact Hnd.
  rewrite in_app_iff, stable_sort_by_In, !filter_In.
  destruct (chR (bytes p) =? byte); [left | right]; auto.
Qed.

(** * The scan finds a pixel whenever one is free and a pointer exists *)

Lemma try_pointers_some (byte : Z) (original : StegPixel) (pos : Z)
    (ptrs : list StegPointer) (b : best) :
  (b <> None \/ ptrs <> []) ->
  match try_pointers byte original pos ptrs b with
  | Continue r | BreakOuter r => r <> None
  end.
Proof.
  revert b. induction ptrs as [| ptr rest IH]; intros b H; cbn [try_pointers].
  - destruct H as [H | H]; [exact H | congruence].
  - destruct (_ && _); [discriminate |].
    apply IH. left. destruct (improves _ b) eqn:E; [discriminate |].
    destruct b; [discriminate | discriminate E].
Qed.

Lemma scan_candidates_keeps (pixels : list StegPixel) (used : list Z) (byte : Z)
    (ptrs : list StegPointer) (cands : list StegPixel) (b : best) :
  b <> None -> scan_candidates pixels used byte ptrs cands b <> None.
Proof.
  revert b. induction cands as [| c rest IH]; intros b Hb; cbn [scan_candidates]; [exact Hb |].
  destruct (_ || _); [apply IH; exact Hb |].
  pose proof (try_pointers_some byte c (findIndex pixels (index c)) ptrs b (or_introl Hb)) as H.
  destruct (try_pointers _ _ _ _ _); [apply IH |]; exact H.
Qed.

Lemma scan_candidates_some (pixels : list StegPixel) (used : list Z) (byte : Z)
    (ptrs : list StegPointer) (cands : list StegPixel) (b : best) (c : StegPixel) :
  ptrs <> [] -> In c cands ->
  findIndex pixels (index c) <> -1 ->
  existsb (Z.eqb (findIndex pixels (index c))) used = false ->
  scan_candidates pixels used byte ptrs cands b <> None.
Proof.
  intros Hptrs Hin Hpos Hfree. revert b.
  induction cands as [| c' rest IH]; intros b; [contradiction |].
  cbn [scan_candidates]. destruct Hin as [-> | Hin].
  - replace (findIndex pixels (index c) =? -1) with false
      by (symmetry; apply Z.eqb_neq; exact Hpos).
    rewrite Hfree. cbn [orb].
    pose proof (try_pointers_some byte c (findIndex pixels (index c)) ptrs b
                  (or_intror Hptrs)) as H.
    destruct (try_pointers _ _ _ _ _); [apply scan_candidates_keeps |]; exact H.
  - destruct (_ || _); [apply IH; exact Hin |].
    destruct (try_pointers _ _ _ _ _) as [r | r] eqn:Et; [apply IH; exact Hin |].
    (* a break always carries a pixel *)
    clear - Et. revert b Et. induction ptrs as [| ptr ps IHp]; intros b; cbn [try_pointers];
      [discriminate |].
    destruct (_ && _); [intros [= <-]; discriminate | apply IHp].
Qed.

(** Some position below [n] is not in a duplicate-free list of fewer than
    [n] positions. *)
Lemma free_position (n : nat) (used : list Z) :
  NoDup used -> (length used < n)%nat ->
  exists p : nat, (p < n)%nat /\ existsb (Z.eqb (Z.of_nat p)) used = false.
Proof.
  intros Hnd Hlen.
  destruct (find (fun p => negb (existsb (Z.eqb (Z.of_nat p)) used)) (seq 0 n)) as [p |] eqn:F.
  - apply find_some in F. destruct F as [Hin Hp]. apply in_seq in Hin.
    exists p. split; [lia | apply negb_true_iff; exact Hp].
  - exfalso.
    assert (Hincl : incl (seq 0 n) (map Z.to_nat used)).
    { intros p Hp. pose proof (find_none _ _ F p Hp) as Hx.
      apply negb_false_iff, existsb_exists in Hx. destruct Hx as (z & Hz & E).
      apply Z.eqb_eq in E. subst z. apply in_map_iff. exists (Z.of_nat p).
      split; [apply Nat2Z.id | exact Hz]. }
    pose proof (NoDup_incl_length (seq_NoDup n 0) Hincl) as Hl.
    rewrite length_seq, length_map in Hl. lia.
Qed.

(* ================================================================== *)
(** * When the chain can be built *)

Lemma map_getPixelAt_total (img : StegImage) (idxs : list Z) :
  Forall (in_image (width img * height img)) idxs ->
  exists pxs, map_outcome (getPixelAt img) idxs = Returned pxs.
Proof.
  induction 1 as [| idx rest Hidx _ (pxs & IH)]; cbn [map_outcome]; [eexists; reflexivity |].
  unfold getPixelAt at 1. unfold in_image in Hidx.
  replace (idx <? 0) with false by (symmetry; apply Z.ltb_ge; lia).
  replace (idx >=? width img * height img) with false
    by (symmetry; rewrite Z.geb_leb; apply Z.leb_gt; lia).
  cbn [orb bind]. rewrite IH. cbn [bind]. eexists; reflexivity.
Qed.

Lemma write_pixels_total (pixels : list StegPixel) :
  forall img,
    Forall (fun px => in_image (width img * height img) (index px)) pixels ->
    exists img', write_pixels img pixels = (Returned tt, img') /\
                 width img' = width img /\ height img' = height img.
Proof.
  induction pixels as [| px rest IH]; intros img Hall; cbn [write_pixels].
  - exists img. auto.
  - inversion Hall as [| ? ? Hpx Hrest]; subst. unfold in_image in Hpx.
    destruct (setPixelAt img px) as [img1 | e |] eqn:E.
    + destruct (setPixelAt_dims _ _ _ E) as [Hw Hh].
      destruct (IH img1) as (img' & Hw' & Hd1 & Hd2).
      * rewrite Hw, Hh. exact Hrest.
      * exists img'. split; [exact Hw' | split; congruence].
    + exfalso. unfold setPixelAt in E.
      replace (index px <? 0) with false in E by (symmetry; apply Z.ltb_ge; lia).
      replace (index px >=? width img * height img) with false in E
        by (symmetry; rewrite Z.geb_leb; apply Z.leb_gt; lia).
      discriminate.
    + unfold setPixelAt in E. destruct (_ || _); discriminate.
Qed.

Section Totality.
Context {C : CryptoES} {I : Isaac}.

Lemma encode_step_total (K : WordArray) (pixels : list StegPixel) (used : list Z)
    (pos byte : Z) :
  NoDup (map index pixels) -> NoDup used -> (length used < length pixels)%nat ->
  possiblePreviousPointers K (Z.of_nat (length pixels)) pos <> [] ->
  exists px d bpos,
    encode_step K pixels used pos byte = Some (px, d, bpos) /\
    0 <= bpos < Z.of_nat (length pixels) /\
    existsb (Z.eqb bpos) used = false /\
    In (index px) (map index pixels).
Proof.
  intros Hnd Hu Hlen Hptrs.
  destruct (free_position (length pixels) used Hu Hlen) as (p & Hp & Hfree).
  destruct (nth_error pixels p) as [c |] eqn:Ec;
    [| apply nth_error_None in Ec; lia].
  pose proof (findIndex_nth pixels p c Hnd Ec) as Hfi.
  assert (Hsome : encode_step K pixels used pos byte <> None).
  { unfold encode_step. apply scan_candidates_some with (c := c).
    - exact Hptrs.
    - apply candidatePixels_complete; [exact Hnd | eapply nth_error_In; exact Ec].
    - rewrite Hfi. lia.
    - rewrite Hfi. exact Hfree. }
  destruct (encode_step K pixels used pos byte) as [[[px d] bpos] |] eqn:Es; [| congruence].
  exists px, d, bpos. split; [reflexivity |].
  unfold encode_step in Es.
  pose proof (scan_candidates_from pixels used byte
                (possiblePreviousPointers K (Z.of_nat (length pixels)) pos)
                (candidatePixels pixels byte) None) as Hfrom.
  rewrite Es in Hfrom. destruct Hfrom as [[=] | (t & c' & [= <-] & Hin & Hc)].
  destruct Hc as (Hidx & _ & Hpos & Hne & Hfr). cbn [fst snd] in *.
  repeat split.
  - destruct (findIndex_range pixels (index c')); lia.
  - destruct (findIndex_range pixels (index c')); lia.
  - exact Hfr.
  - rewrite Hidx. apply in_map. eapply candidatePixels_In. exact Hin.
Qed.

Lemma chain_loop_total (K : WordArray) (pixels : list StegPixel) :
  NoDup (map index pixels) ->
  pointers_cover K (Z.of_nat (length pixels)) ->
  forall (bs : list Z) (pos : Z) (used : list Z) (encoded : list StegPixel),
    NoDup used -> (length used + length bs <= length pixels)%nat ->
    0 <= pos < Z.of_nat (length pixels) ->
    Forall (fun px => In (index px) (map index pixels)) encoded ->
    exists r,
      chain_loop K pixels bs pos used encoded = Returned r /\
      0 <= fst r < Z.of_nat (length pixels) /\
      Forall (fun px => In (index px) (map index pixels)) (snd r).
Proof.
  intros Hnd Hcover. induction bs as [| b rest IH]; intros pos used encoded Hu Hlen Hpos Henc;
    cbn [chain_loop].
  - eexists. split; [reflexivity |]. cbn [fst snd]. auto.
  - cbn [length] in Hlen.
    destruct (encode_step_total K pixels used pos b Hnd Hu ltac:(lia) (Hcover pos Hpos))
      as (px & d & bpos & -> & Hb & Hfree & Hidx).
    apply IH.
    + constructor; [| exact Hu]. intros Hin.
      assert (Hex : existsb (Z.eqb bpos) used = true)
        by (apply existsb_exists; exists bpos; split; [exact Hin | apply Z.eqb_refl]).
      congruence.
    + cbn [length]. lia.
    + exact Hb.
    + apply Forall_app. split; [exact Henc | constructor; [exact Hidx | constructor]].
Qed.

(** Once the indices are selected, the chain is built and written provided
    the candidate set holds at least [L] (and at least one) pixels and
    every position is the target of a pointer. *)
Lemma encode_total (fuel : nat) (enc : StegEncoder) (a : jsnum) (idxs : list Z) :
  encoder_selection fuel enc = Returned (a, idxs) ->
  NoDup idxs ->
  Forall (in_image (width (enc_image enc) * height (enc_image enc))) idxs ->
  (1 <= length idxs)%nat ->
  (length (aes_encrypt (enc_key enc) (enc_message enc)) <= length idxs)%nat ->
  pointers_cover (enc_key enc) (Z.of_nat (length idxs)) ->
  exists pos img',
    0 <= pos < Z.of_nat (length idxs) /\
    encode fuel enc =
    (Returned (packageKey (mkStegKey (enc_key enc) (JInt pos) a
                 (JInt (Z.of_nat (length (aes_encrypt (enc_key enc) (enc_message enc))))))),
     img') /\
    width img' = width (enc_image enc) /\ height img' = height (enc_image enc).
Proof.
  intros Hsel Hnd Hrange Hne HL Hcover.
  unfold encode, build_chain. rewrite Hsel. cbn [bind fst snd].
  destruct (map_getPixelAt_total _ _ Hrange) as (pxs & Hpxs). rewrite Hpxs. cbn [bind].
  destruct (map_getPixelAt_returned _ _ _ Hpxs) as (Hidx & _ & _ & _).
  set (msg_e := aes_encrypt (enc_key enc) (enc_message enc)) in *.
  set (lastByte := nth_error msg_e (length msg_e - 1)).
  assert (Hlen : length pxs = length idxs) by (rewrite <- Hidx, length_map; reflexivity).
  destruct (stable_sort_by (red_distance lastByte) pxs) as [| closest rest] eqn:Es.
  { exfalso. pose proof (Permutation_length (stable_sort_by_perm (red_distance lastByte) pxs)) as Hp.
    rewrite Es in Hp. cbn in Hp. lia. }
  assert (Hcl : In closest pxs).
  { apply (stable_sort_by_In (red_distance lastByte)). rewrite Es. left. reflexivity. }
  set (currentPixel := setChannel closest RED match lastByte with Some b => b | None => 0 end).
  set (pixels := map (fun p => if same_object p closest then currentPixel else p) pxs).
  assert (Hidx' : map index pixels = idxs).
  { subst pixels. rewrite map_map, <- Hidx. apply map_ext_in. intros p _.
    unfold same_object. destruct (Z.eqb_spec (index p) (index closest)) as [E | E];
      [cbn; symmetry; exact E | reflexivity]. }
  assert (Hlen' : length pixels = length idxs) by (rewrite <- Hidx', length_map; reflexivity).
  assert (Hcur : In currentPixel pixels).
  { subst pixels. apply in_map_iff. exists closest. split; [| exact Hcl].
    unfold same_object. rewrite Z.eqb_refl. reflexivity. }
  assert (Hpos : 0 <= findIndex pixels (index currentPixel) < Z.of_nat (length pixels)).
  { pose proof (findIndex_from_In 0 pixels currentPixel ltac:(lia) Hcur) as Hne1.
    fold (findIndex pixels (index currentPixel)) in Hne1.
    destruct (findIndex_range pixels (index currentPixel)); lia. }
  destruct (chain_loop_total (enc_key enc) pixels ltac:(rewrite Hidx'; exact Hnd)
              ltac:(rewrite Hlen'; exact Hcover)
              (rev (removelast msg_e)) (findIndex pixels (index currentPixel))
              [findIndex pixels (index currentPixel)] [currentPixel])
    as (r & Hr & Hfirst & Hall).
  - constructor; [intros [] | constructor].
  - cbn [length]. rewrite length_rev.
    assert (length (removelast msg_e) = (length msg_e - 1)%nat).
    { destruct msg_e as [| x m] eqn:Em; [reflexivity |].
      rewrite (app_removelast_last 0 (l := x :: m)) at 2 by discriminate.
      rewrite length_app. cbn [length]. lia. }
    lia.
  - exact Hpos.
  - constructor; [apply in_map; exact Hcur | constructor].
  - rewrite Hr. cbn [bind fst snd].
    destruct (write_pixels_total (snd r) (enc_image enc)) as (img' & Hw & Hd).
    + apply Forall_forall. intros px Hpx. rewrite Forall_forall in Hall, Hrange.
      apply Hrange. rewrite <- Hidx'. apply Hall. exact Hpx.
    + rewrite Hw. exists (fst r), img'. rewrite <- Hlen'. repeat split; try lia; tauto.
Qed.

End Totality.

(* ================================================================== *)
(** * Alias renegotiation *)

Lemma Q_value : DEFAULT_TOTAL_POINTERS = 65536.
Proof. reflexivity. Qed.

Lemma floor_div_pos (n d : Z) : d <> 0 -> floor_div n (JInt d) = JInt (n / d).
Proof. intros Hd. unfold floor_div. destruct d; [congruence | reflexivity | reflexivity]. Qed.

(** The arithmetic of lines 124-130 when the count for [t] is too small
    and the message fits the pointer space. *)
Lemma renegotiate_lowers (t L : Z) :
  1 <= t -> 65536 / t < L -> L <= 65536 ->
  let t' := Z.max 1 (65536 / L) in
  renegotiate (JInt t) L = (JInt t', JInt (65536 / t')) /\
  1 <= t' /\ L <= 65536 / t' /\ (t <= 65536 -> t' <= 32768).
Proof.
  intros Ht Hlt HL t'.
  assert (H0 : 0 <= 65536 / t) by (apply Z.div_pos; lia).
  assert (HL1 : 1 <= 65536 / L).
  { apply Z.div_le_lower_bound; lia. }
  assert (Ht' : t' = 65536 / L) by (subst t'; lia).
  split; [| split; [lia | split]].
  - unfold renegotiate. rewrite Q_value.
    rewrite floor_div_pos by lia. cbn [js_lt].
    replace (65536 / t <? L) with true by (symmetry; apply Z.ltb_lt; lia).
    rewrite (floor_div_pos 65536 L) by lia. cbn [js_max1]. fold t'.
    rewrite floor_div_pos by lia. reflexivity.
  - rewrite Ht'. apply Z.div_le_lower_bound; [lia |].
    rewrite Z.mul_comm. apply Z.mul_div_le. lia.
  - intros HtQ. rewrite Ht'.
    assert (1 <= 65536 / t) by (apply Z.div_le_lower_bound; lia).
    apply Z.div_le_upper_bound; lia.
Qed.


Section Renegotiation.
Context {C : CryptoES} {I : Isaac} {HI : IsaacUnit I}.


End Renegotiation.


(* ================================================================== *)
(** * The small instances *)

Lemma In_zrange (count : nat) (start x : Z) :
  start <= x < start + Z.of_nat count -> In x (zrange start count).
Proof.
  revert start. induction count as [| c IH]; intros start Hx; [lia |].
  cbn [zrange]. destruct (Z.eq_dec x start) as [-> | Hne]; [left; reflexivity |].
  right. apply IH. lia.
Qed.

Lemma allPointers_complete (p : Z) :
  0 <= p < 65536 -> In (pointer_of_value p) allPointers.
Proof.
  intros Hp. unfold allPointers. apply in_map. apply In_zrange.
  rewrite Q_value. change (Z.of_nat (Z.to_nat 65536)) with 65536. lia.
Qed.

Lemma sar_div (a k : Z) : 0 <= a < 2 ^ 31 -> 0 <= k < 32 -> sar a k = a / 2 ^ k.
Proof.
  intros Ha Hk. unfold sar. rewrite to_int32_id by lia.
  rewrite (Z.mod_small k 32) by lia. apply Z.shiftr_div_pow2. lia.
Qed.

Lemma pointer_of_value_bytes (p : Z) :
  0 <= p < 65536 ->
  ptr_hi (pointer_of_value p) = p / 256 /\ ptr_lo (pointer_of_value p) = p mod 256.
Proof.
  intros Hp. unfold pointer_of_value. cbn [ptr_hi ptr_lo].
  change 255 with (Z.ones 8).
  rewrite sar_div by lia.
  assert (H8 : 0 <= p / 2 ^ 8 < 2 ^ 8).
  { split; [apply Z.div_pos; lia | apply Z.div_lt_upper_bound; lia]. }
  rewrite !band_low by lia.
  rewrite (Z.mod_small (p / 2 ^ 8)) by lia. split; reflexivity.
Qed.

Lemma pointer_bytes_range (p : Z) : Forall is_byte (pointer_bytes (pointer_of_value p)).
Proof.
  unfold pointer_bytes, pointer_of_value. cbn [ptr_hi ptr_lo].
  repeat constructor; unfold is_byte; apply band_255_range.
Qed.

(** The two bytes of a pointer's word array are the pointer's bytes. *)
Lemma wordArray_bytes (ptr : StegPointer) :
  Forall is_byte (pointer_bytes ptr) ->
  word_byte (words (wordArray ptr)) 0 = ptr_hi ptr /\
  word_byte (words (wordArray ptr)) 1 = ptr_lo ptr.
Proof.
  intros Hb. unfold wordArray, WordArray_create, uint8ArrayToWordArray. cbn [words].
  rewrite !word_byte_pack_bytes_from by (auto; intros; apply word_byte_nil).
  split; reflexivity.
Qed.

Lemma toy_isaac_unit : IsaacUnit Toy.toy_isaac.
Proof.
  intros g. cbn [isaac_random Toy.toy_isaac fst].
  pose proof (Z.mod_pos_bound (g * 40503) 65536 ltac:(lia)) as H.
  unfold Qle, Qlt. cbn [Qnum Qden]. lia.
Qed.

Lemma jsnum_eqb_int (x y : Z) : jsnum_eqb (JInt x) (JInt y) = (x =? y).
Proof. destruct x; reflexivity. Qed.

(** With the tag equal to the message, pointer [pos] resolves to position
    [pos]. *)
Lemma toy_pointers_cover (K : WordArray) (n : Z) :
  0 < n <= 65536 -> @pointers_cover Toy.toy_crypto K n.
Proof.
  intros Hn pos Hpos Hnil.
  assert (Hin : In (pointer_of_value pos) (@possiblePreviousPointers Toy.toy_crypto K n pos)).
  { unfold possiblePreviousPointers. apply filter_In.
    split; [apply allPointers_complete; lia |].
    rewrite (next_pixel_idx_eq K (wordArray (pointer_of_value pos)) n) by lia.
    unfold next_spec. cbn [HmacSHA256 Toy.toy_crypto].
    destruct (wordArray_bytes _ (pointer_bytes_range pos)) as [-> ->].
    destruct (pointer_of_value_bytes pos ltac:(lia)) as [-> ->].
    rewrite jsnum_eqb_int. apply Z.eqb_eq.
    replace (pos / 256 * 256 + pos mod 256) with pos
      by (pose proof (Z.div_mod pos 256); lia).
    apply Z.mod_small. lia. }
  rewrite Hnil in Hin. exact Hin.
Qed.

(* ================================================================== *)
(** * The decoder on an image smaller than the candidate count *)

Lemma write_pixels_dims (pixels : list StegPixel) (img : StegImage) :
  width (snd (write_pixels img pixels)) = width img /\
  height (snd (write_pixels img pixels)) = height img.
Proof.
  revert img. induction pixels as [| px rest IH]; intros img; cbn [write_pixels snd];
    [split; reflexivity |].
  destruct (setPixelAt img px) as [img1 | e |] eqn:E; cbn [snd]; try (split; reflexivity).
  destruct (setPixelAt_dims _ _ _ E) as [Hw Hh]. destruct (IH img1) as [Hw1 Hh1].
  split; congruence.
Qed.

Section Divergence.
Context {C : CryptoES} {I : Isaac}.

Lemma chain_loop_pos (K : WordArray) (pixels : list StegPixel) (bs : list Z) :
  forall pos used encoded r,
    0 <= pos -> chain_loop K pixels bs pos used encoded = Returned r -> 0 <= fst r.
Proof.
  induction bs as [| b rest IH]; intros pos used encoded r Hpos; cbn [chain_loop].
  - intros [= <-]. exact Hpos.
  - destruct (encode_step K pixels used pos b) as [[[px d] bpos] |] eqn:Es; [| discriminate].
    apply IH. unfold encode_step in Es.
    pose proof (scan_candidates_from pixels used b
                  (possiblePreviousPointers K (Z.of_nat (length pixels)) pos)
                  (candidatePixels pixels b) None) as Hfrom.
    rewrite Es in Hfrom. destruct Hfrom as [[=] | (t & c & [= <-] & _ & Hc)].
    destruct Hc as (_ & _ & Hp & Hne & _). cbn [snd] in Hp, Hne.
    destruct (findIndex_range pixels (index c)); lia.
Qed.

(** What a returned chain tells about the run. *)
Lemma build_chain_returned (fuel : nat) (enc : StegEncoder)
    (pxs : list StegPixel) (a : jsnum) (pos len : Z) :
  build_chain fuel enc = Returned (pxs, a, pos, len) ->
  (exists idxs, encoder_selection fuel enc = Returned (a, idxs)) /\
  len = Z.of_nat (length (aes_encrypt (enc_key enc) (enc_message enc))) /\
  0 <= pos.
Proof.
  unfold build_chain.
  destruct (encoder_selection fuel enc) as [[a' idxs] | |]; cbn [bind fst snd]; try discriminate.
  destruct (map_outcome _ idxs) as [ps | |] eqn:Em; cbn [bind]; try discriminate.
  set (msg_e := aes_encrypt (enc_key enc) (enc_message enc)).
  set (lastByte := nth_error msg_e (length msg_e - 1)).
  destruct (stable_sort_by (red_distance lastByte) ps) as [| closest rest] eqn:Es;
    [discriminate |].
  set (currentPixel := setChannel closest RED match lastByte with Some b => b | None => 0 end).
  set (pixels := map (fun p => if same_object p closest then currentPixel else p) ps).
  destruct (chain_loop _ pixels _ _ _ _) as [r | |] eqn:Ec; cbn [bind]; try discriminate.
  intros [= <- <- <- <-]. split; [eexists; reflexivity | split; [reflexivity |]].
  eapply chain_loop_pos; [| exact Ec].
  assert (Hcur : In currentPixel pixels).
  { subst pixels. apply in_map_iff. exists closest. split.
    - unfold same_object. rewrite Z.eqb_refl. reflexivity.
    - apply (stable_sort_by_In (red_distance lastByte)). rewrite Es. left. reflexivity. }
  pose proof (findIndex_from_In 0 pixels currentPixel ltac:(lia) Hcur) as Hne.
  fold (findIndex pixels (index currentPixel)) in Hne.
  destruct (findIndex_range pixels (index currentPixel)); lia.
Qed.

Lemma encoder_selection_returned (fuel : nat) (enc : StegEncoder) (a : jsnum) (idxs : list Z) :
  encoder_selection fuel enc = Returned (a, idxs) ->
  let L := Z.of_nat (length (aes_encrypt (enc_key enc) (enc_message enc))) in
  let pixelCount := width (enc_image enc) * height (enc_image enc) in
  a = fst (renegotiate (enc_aliasCount enc) L) /\
  L <= pixelCount /\
  select_indices fuel (js_min (snd (renegotiate (enc_aliasCount enc) L)) pixelCount)
    pixelCount (isaac_seed (Hex_stringify (enc_key enc))) [] = Returned idxs.
Proof.
  intros H L pixelCount. unfold encoder_selection in H. fold L pixelCount in H.
  destruct (renegotiate (enc_aliasCount enc) L) as [a' n].
  destruct (Z.ltb_spec pixelCount L) as [Hlt | Hge].
  - rewrite Z.gtb_ltb in H.
    replace (pixelCount <? L) with true in H by (symmetry; apply Z.ltb_lt; exact Hlt).
    discriminate.
  - rewrite Z.gtb_ltb in H.
    replace (pixelCount <? L) with false in H by (symmetry; apply Z.ltb_ge; exact Hge).
    cbn [fst snd].
    destruct (select_indices fuel _ _ _ []) as [l | |]; cbn [bind] in H; try discriminate.
    injection H as <- <-. auto.
Qed.

Context {HI : IsaacUnit I}.

(** The decoder asks for [floor(Q / t)] distinct indices; an image with
    fewer pixels cannot supply them. *)
Lemma decoder_selection_diverges (dec : StegDecoder) (t : Z) :
  dec_encodingPixelsCount dec = floor_div DEFAULT_TOTAL_POINTERS (JInt t) ->
  1 <= t ->
  1 <= width (dec_image dec) * height (dec_image dec) < 65536 / t ->
  forall fuel, decoder_selection fuel dec = OutOfFuel.
Proof.
  intros Hn Ht Hpc fuel. unfold decoder_selection. rewrite Hn, Q_value.
  rewrite floor_div_pos by lia.
  apply select_indices_diverges; try lia; constructor.
Qed.

(** C2 (defect). For the same key, image size and alias count [t], with
    [floor(Q / t)] above the pixel count [W * H]: the encoder's candidate
    set, when its loop ends, lists [W * H] distinct indices, while the
    decoder's loop never ends. The two candidate sets are not equal. *)
Theorem candidate_sets_differ (enc : StegEncoder) (dec : StegDecoder) (t : Z) :
  let L := Z.of_nat (length (aes_encrypt (enc_key enc) (enc_message enc))) in
  let pixelCount := width (enc_image enc) * height (enc_image enc) in
  enc_aliasCount enc = JInt t -> 1 <= t ->
  1 <= pixelCount < 65536 / t ->
  dec_key dec = enc_key enc ->
  width (dec_image dec) * height (dec_image dec) = pixelCount ->
  dec_encodingPixelsCount dec = floor_div DEFAULT_TOTAL_POINTERS (JInt t) ->
  forall fuel,
    decoder_selection fuel dec = OutOfFuel /\
    forall a idxs,
      encoder_selection fuel enc = Returned (a, idxs) ->
      a = JInt t /\ Z.of_nat (length idxs) = pixelCount /\ NoDup idxs.
Proof.
  intros L pixelCount Halias Ht Hpc Hkey Hdim Hcount fuel. split.
  - apply decoder_selection_diverges with (t := t); [exact Hcount | exact Ht | lia].
  - intros a idxs Hsel.
    destruct (encoder_selection_returned fuel enc a idxs Hsel) as (Ha & HL & Hs).
    fold L pixelCount in Ha, HL, Hs. rewrite Halias in Ha, Hs.
    assert (Hren : renegotiate (JInt t) L = (JInt t, JInt (65536 / t))).
    { unfold renegotiate. rewrite Q_value, floor_div_pos by lia. cbn [js_lt].
      replace (65536 / t <? L) with false by (symmetry; apply Z.ltb_ge; lia).
      reflexivity. }
    rewrite Hren in Ha, Hs. cbn [fst snd js_min] in Ha, Hs.
    rewrite Z.min_r in Hs by lia.
    destruct (select_indices_returned pixelCount pixelCount ltac:(lia) fuel _ [] idxs
                (NoDup_nil _) (Forall_nil _) ltac:(cbn; lia) Hs) as (Hnd & _ & Hlen).
    auto.
Qed.

(** C1 (defect). Whenever encode returns on an image with fewer pixels
    than the [floor(Q / t')] positions of the effective alias count [t'],
    decoding the stego image with the key encode produced never ends:
    the plaintext is not returned. *)
Theorem decode_of_encode_diverges (fuel : nat) (enc : StegEncoder) (t' : Z)
    (packed : jsstring) (img' : StegImage) :
  let L := Z.of_nat (length (aes_encrypt (enc_key enc) (enc_message enc))) in
  let pixelCount := width (enc_image enc) * height (enc_image enc) in
  is_key256 (enc_key enc) ->
  fst (renegotiate (enc_aliasCount enc) L) = JInt t' -> 1 <= t' < 65536 ->
  1 <= pixelCount < 65536 / t' ->
  encode fuel enc = (Returned packed, img') ->
  forall fuel',
    (dec <- new_StegDecoder img' packed ;; decode fuel' dec) = OutOfFuel.
Proof.
  intros L pixelCount HK Heff Ht Hpc Henc fuel'.
  unfold encode in Henc.
  destruct (build_chain fuel enc) as [[[[pxs a] pos] len] | e |] eqn:Eb; try discriminate.
  destruct (build_chain_returned fuel enc pxs a pos len Eb) as ((idxs & Hsel) & Hlen & Hpos).
  destruct (encoder_selection_returned fuel enc a idxs Hsel) as (Ha & HL & _).
  fold L pixelCount in Ha, HL, Hlen. rewrite Heff in Ha. subst a len.
  pose proof (write_pixels_dims pxs (enc_image enc)) as [Hw Hh].
  destruct (write_pixels (enc_image enc) pxs) as [[u | e |] img1]; try discriminate.
  injection Henc as <- <-. cbn [snd] in Hw, Hh.
  assert (HL16 : 0 <= L < 65536).
  { split; [subst L; lia |]. assert (65536 / t' <= 65536); [| lia].
    apply Z.div_le_upper_bound; lia. }
  destruct (unpackageKey_packageKey (enc_key enc) t' L pos HK ltac:(lia) HL16 Hpos)
    as (Hun & _).
  unfold new_StegDecoder. rewrite Hun. cbn [bind key aliasCount msgLength firstPixelIndex].
  unfold decode, extract.
  rewrite (decoder_selection_diverges _ t'); [reflexivity | reflexivity | lia |].
  cbn [dec_image]. rewrite Hw, Hh. exact Hpc.
Qed.

End Divergence.

(* ================================================================== *)
(** * The minimum kept by the scan *)

Lemma improves_spec (d : Z) (b : best) :
  improves d b = true <->
  b = None \/ exists px bd pos, b = Some (px, bd, pos) /\ d < bd.
Proof.
  unfold improves. destruct b as [[[px bd] pos] |].
  - rewrite Z.ltb_lt. split.
    + intros H. right. exists px, bd, pos. auto.
    + intros [[=] | (px' & bd' & pos' & [= <- <- <-] & H)]. exact H.
  - split; auto.
Qed.

Lemma fold_keep_min_zero (ts : list trial_t) (b : best) :
  is_zero b -> Forall (fun t => 0 <= dist_of t) ts -> fold_left keep_min ts b = b.
Proof.
  intros (px & pos & ->). induction 1 as [| t ts Ht _ IH]; cbn [fold_left]; [reflexivity |].
  unfold keep_min at 2. cbn [improves].
  replace (dist_of t <? 0) with false by (symmetry; apply Z.ltb_ge; exact Ht).
  exact IH.
Qed.

(** What a fold of [keep_min] returns: the start value when nothing
    improves on it, else the first trial of least distance. *)
Lemma fold_keep_min_spec (ts : list trial_t) :
  forall b r,
    fold_left keep_min ts b = r ->
    (r = b /\ forall x, In x ts -> improves (dist_of x) b = false) \/
    (exists pre t post,
        ts = pre ++ t :: post /\ r = Some t /\ improves (dist_of t) b = true /\
        (forall x, In x pre -> dist_of t < dist_of x) /\
        (forall x, In x post -> dist_of t <= dist_of x)).
Proof.
  induction ts as [| x rest IH]; intros b r; cbn [fold_left].
  - intros <-. left. split; [reflexivity | intros x []].
  - intros Hr. destruct (IH _ _ Hr) as [[-> Hnone] | (pre & t & post & -> & -> & Himp & Hpre & Hpost)].
    + unfold keep_min. destruct (improves (dist_of x) b) eqn:Ex.
      * right. exists [], x, rest. repeat split; auto.
        -- intros y [].
        -- intros y Hy. specialize (Hnone y Hy). unfold keep_min in Hnone.
           rewrite Ex in Hnone. destruct x as [[px d] pos]. cbn [improves dist_of fst snd] in *.
           apply Z.ltb_ge in Hnone. exact Hnone.
      * left. split; [reflexivity |]. intros y [<- | Hy]; [exact Ex |].
        specialize (Hnone y Hy). unfold keep_min in Hnone. rewrite Ex in Hnone. exact Hnone.
    + right. exists (x :: pre), t, post.
      unfold keep_min in Himp.
      destruct (improves (dist_of x) b) eqn:Ex.
      * destruct x as [[px d] pos]. cbn [improves dist_of fst snd] in Himp, Ex.
        apply Z.ltb_lt in Himp.
        repeat split; auto.
        -- apply improves_spec. apply improves_spec in Ex.
           destruct Ex as [-> | (px' & bd & pos' & -> & Hlt)]; [left; reflexivity |].
           right. exists px', bd, pos'. split; [reflexivity | lia].
        -- intros y [<- | Hy]; [exact Himp | apply Hpre; exact Hy].
      * repeat split; auto.
        intros y [<- | Hy]; [| apply Hpre; exact Hy].
        apply improves_spec in Himp.
        destruct Himp as [-> | (px' & bd & pos' & -> & Hlt)]; [discriminate Ex |].
        cbn [improves] in Ex. apply Z.ltb_ge in Ex. lia.
Qed.

Lemma similarity_sq_nonneg (a b : StegPixel) : 0 <= similarity_sq a b.
Proof.
  unfold similarity_sq. rewrite !Z.pow_2_r.
  pose proof (Z.square_nonneg (chR (bytes a) - chR (bytes b))).
  pose proof (Z.square_nonneg (chG (bytes a) - chG (bytes b))).
  pose proof (Z.square_nonneg (chB (bytes a) - chB (bytes b))).
  pose proof (Z.square_nonneg (chA (bytes a) - chA (bytes b))).
  lia.
Qed.

Lemma trial_nonneg (byte : Z) (original : StegPixel) (pos : Z) (ptr : StegPointer) :
  0 <= dist_of (trial byte original pos ptr).
Proof.
  unfold trial. destruct (is_perfect _ _ _); cbn [dist_of fst snd];
    [lia | apply similarity_sq_nonneg].
Qed.

Lemma clamp8_byte (v : Z) : is_byte v -> clamp8 v = v.
Proof. unfold is_byte, clamp8. lia. Qed.

Lemma sum_squares_zero (a b c d : Z) :
  a ^ 2 + b ^ 2 + c ^ 2 + d ^ 2 = 0 -> a = 0 /\ b = 0 /\ c = 0.
Proof.
  rewrite !Z.pow_2_r. intros H.
  pose proof (Z.square_nonneg a). pose proof (Z.square_nonneg b).
  pose proof (Z.square_nonneg c). pose proof (Z.square_nonneg d).
  assert (Ha : a * a = 0) by lia. assert (Hb : b * b = 0) by lia.
  assert (Hc : c * c = 0) by lia.
  apply Z.mul_eq_0 in Ha, Hb, Hc. lia.
Qed.

(** The unchanged pixel is the only one at distance 0. *)
Lemma zero_distance_perfect (byte : Z) (original : StegPixel) (ptr : StegPointer) :
  is_byte byte -> pointer_ok ptr -> pixel_ok original ->
  similarity_sq original (modified_pixel original byte ptr) = 0 ->
  is_perfect byte original ptr = true.
Proof.
  intros Hb Hp Hpx H0. unfold pointer_ok, pointer_bytes in Hp.
  inversion Hp as [| ? ? Hhi Hp']; subst. inversion Hp' as [| ? ? Hlo _]; subst.
  unfold similarity_sq, modified_pixel in H0.
  cbn [setPointer setChannel new_StegPixel bytes set_channel chR chG chB chA] in H0.
  rewrite !clamp8_byte in H0 by assumption.
  apply sum_squares_zero in H0. destruct H0 as (HR & HG & HB).
  unfold is_perfect, StegPointer_equals. rewrite Hpx. cbn [StegPointer_of_pixel ptr_hi ptr_lo].
  rewrite !andb_true_iff, !Z.eqb_eq. lia.
Qed.


(** The pointer loop is a fold of [keep_min], cut at the first perfect
    match; from a start value of positive distance both give the same. *)
Lemma try_pointers_fold (byte : Z) (original : StegPixel) (pos : Z) :
  is_byte byte -> pixel_ok original ->
  forall (ptrs : list StegPointer) (b : best),
    Forall pointer_ok ptrs -> is_positive b ->
    let r := fold_left keep_min (map (trial byte original pos) ptrs) b in
    (try_pointers byte original pos ptrs b = Continue r /\ is_positive r) \/
    (try_pointers byte original pos ptrs b = BreakOuter r /\ is_zero r).
Proof.
  intros Hb Hpx. induction ptrs as [| ptr rest IH]; intros b Hptrs Hpos r.
  - left. split; [reflexivity | exact Hpos].
  - inversion Hptrs as [| ? ? Hptr Hrest]; subst.
    subst r. cbn [map fold_left try_pointers]. fold (is_perfect byte original ptr).
    destruct (is_perfect byte original ptr) eqn:Eperf.
    + right.
      assert (Hk : keep_min b (trial byte original pos ptr) = Some (original, 0, pos)).
      { unfold keep_min, trial. rewrite Eperf. cbn [dist_of fst snd].
        replace (improves 0 b) with true; [reflexivity |].
        symmetry. apply improves_spec. destruct Hpos as [-> | (px & d & p & -> & Hd)];
          [left; reflexivity | right; exists px, d, p; auto]. }
      rewrite Hk, fold_keep_min_zero.
      * split; [reflexivity | exists original, pos; reflexivity].
      * exists original, pos. reflexivity.
      * apply Forall_forall. intros t Ht. apply in_map_iff in Ht.
        destruct Ht as (p & <- & _). apply trial_nonneg.
    + fold (modified_pixel original byte ptr).
      assert (Hk : keep_min b (trial byte original pos ptr) =
                   if improves (similarity_sq original (modified_pixel original byte ptr)) b
                   then Some (modified_pixel original byte ptr,
                              similarity_sq original (modified_pixel original byte ptr), pos)
                   else b).
      { unfold keep_min, trial. rewrite Eperf. reflexivity. }
      rewrite Hk. apply IH; [exact Hrest |].
      destruct (improves _ b); [| exact Hpos].
      right. eexists _, _, _. split; [reflexivity |].
      pose proof (similarity_sq_nonneg original (modified_pixel original byte ptr)) as Hnn.
      destruct (Z.eq_dec (similarity_sq original (modified_pixel original byte ptr)) 0) as [E | E];
        [| lia].
      rewrite (zero_distance_perfect byte original ptr Hb Hptr Hpx E) in Eperf. discriminate.
Qed.

(* ================================================================== *)
(** * The iteration order, by positions *)

(** ** Lists *)

Lemma map_filter_commute {A B : Type} (h : A -> B) (f : A -> bool) (g : B -> bool)
    (l : list A) :
  (forall x, In x l -> f x = g (h x)) -> map h (filter f l) = filter g (map h l).
Proof.
  induction l as [| x l IH]; intros H; cbn [filter map]; [reflexivity |].
  rewrite <- (H x (or_introl eq_refl)).
  rewrite <- IH by (intros y Hy; apply H; right; exact Hy).
  destruct (f x); reflexivity.
Qed.

Lemma map_insert_by {A B : Type} (h : A -> B) (k : A -> Z) (k' : B -> Z) (x : A) (l : list A) :
  k x = k' (h x) -> (forall y, In y l -> k y = k' (h y)) ->
  map h (insert_by k x l) = insert_by k' (h x) (map h l).
Proof.
  intros Hx. induction l as [| y l IH]; intros H; cbn [insert_by map]; [reflexivity |].
  rewrite <- Hx, <- (H y (or_introl eq_refl)).
  destruct (k x <=? k y); cbn [map]; [reflexivity |].
  rewrite IH by (intros z Hz; apply H; right; exact Hz). reflexivity.
Qed.

Lemma map_stable_sort_by {A B : Type} (h : A -> B) (k : A -> Z) (k' : B -> Z) (l : list A) :
  (forall y, In y l -> k y = k' (h y)) ->
  map h (stable_sort_by k l) = stable_sort_by k' (map h l).
Proof.
  induction l as [| x l IH]; intros H; [reflexivity |].
  cbn [stable_sort_by fold_right map].
  fold (stable_sort_by k l). fold (stable_sort_by k' (map h l)).
  rewrite map_insert_by with (k' := k').
  - rewrite IH by (intros y Hy; apply H; right; exact Hy). reflexivity.
  - apply H. left. reflexivity.
  - intros y Hy. apply H. right. apply (stable_sort_by_In k l). exact Hy.
Qed.

Lemma zrange_length (start : Z) (count : nat) : length (zrange start count) = count.
Proof. revert start. induction count as [| c IH]; intros start; cbn; [| rewrite IH]; reflexivity. Qed.

Lemma zrange_nth (count : nat) (start : Z) (n : nat) :
  (n < count)%nat -> nth n (zrange start count) 0 = start + Z.of_nat n.
Proof.
  revert start n. induction count as [| c IH]; intros start n Hn; [lia |].
  destruct n as [| n]; cbn [zrange nth]; [lia |]. rewrite IH by lia. lia.
Qed.

Lemma In_zrange_inv (count : nat) (start x : Z) :
  In x (zrange start count) -> start <= x < start + Z.of_nat count.
Proof.
  revert start. induction count as [| c IH]; intros start; cbn [zrange In]; [intros [] |].
  intros [<- | H]; [lia |]. apply IH in H. lia.
Qed.

(** ** Positions of the pixels *)

Section Positions.
Variable pixels : list StegPixel.
Hypothesis Hnd : NoDup (map index pixels).

Lemma pos_of_nth (n : nat) (px : StegPixel) :
  nth_error pixels n = Some px -> pos_of pixels px = Z.of_nat n.
Proof. apply findIndex_nth. exact Hnd. Qed.

Lemma pixel_at_pos_of (px : StegPixel) :
  In px pixels -> nth_error pixels (Z.to_nat (pos_of pixels px)) = Some px.
Proof.
  intros Hin. apply In_nth_error in Hin. destruct Hin as (n & Hn).
  rewrite (pos_of_nth n px Hn), Nat2Z.id. exact Hn.
Qed.

Lemma red_at_pos_of (px : StegPixel) :
  In px pixels -> red_at pixels (pos_of pixels px) = chR (bytes px).
Proof. intros Hin. unfold red_at. rewrite pixel_at_pos_of by exact Hin. reflexivity. Qed.

Lemma positions_of_pixels : map (pos_of pixels) pixels = zrange 0 (length pixels).
Proof.
  apply nth_ext with (d := 0) (d' := 0).
  - rewrite length_map, zrange_length. reflexivity.
  - intros n Hn. rewrite length_map in Hn.
    destruct (nth_error pixels n) as [px |] eqn:E; [| apply nth_error_None in E; lia].
    rewrite zrange_nth by exact Hn.
    rewrite (nth_indep _ 0 (pos_of pixels px)) by (rewrite length_map; exact Hn).
    rewrite map_nth. rewrite (nth_error_nth _ _ _ E). rewrite (pos_of_nth n px E). lia.
Qed.

(** The candidate list of the code visits the positions in
    [position_order]. *)
Lemma candidate_positions (byte : Z) :
  map (pos_of pixels) (candidatePixels pixels byte) = position_order pixels byte.
Proof.
  unfold candidatePixels, position_order. rewrite fallback_filter by exact Hnd.
  rewrite map_app, <- positions_of_pixels. f_equal.
  - apply map_filter_commute. intros px Hpx. rewrite red_at_pos_of by exact Hpx. reflexivity.
  - rewrite map_stable_sort_by
      with (k' := fun pos => Z.abs (red_at pixels pos - byte)).
    + f_equal. apply map_filter_commute. intros px Hpx.
      rewrite red_at_pos_of by exact Hpx. reflexivity.
    + intros px Hpx. apply filter_In in Hpx. destruct Hpx as [Hpx _].
      rewrite red_at_pos_of by exact Hpx. reflexivity.
Qed.

End Positions.

(** ** The scan as a fold *)

Lemma scan_candidates_fold (pixels : list StegPixel) (used : list Z) (byte : Z)
    (ptrs : list StegPointer) :
  is_byte byte -> Forall pointer_ok ptrs ->
  forall (cands : list StegPixel) (b : best),
    Forall pixel_ok cands -> Forall (fun c => pos_of pixels c <> -1) cands ->
    is_positive b ->
    scan_candidates pixels used byte ptrs cands b =
    fold_left keep_min
      (flat_map (fun c => if existsb (Z.eqb (pos_of pixels c)) used then []
                          else map (trial byte c (pos_of pixels c)) ptrs) cands) b.
Proof.
  intros Hb Hptrs. induction cands as [| c rest IH]; intros b Hok Hpos Hb0; [reflexivity |].
  inversion Hok as [| ? ? Hc Hok']; subst. inversion Hpos as [| ? ? Hcp Hpos']; subst.
  cbn [scan_candidates flat_map]. rewrite fold_left_app. fold (pos_of pixels c).
  replace (pos_of pixels c =? -1) with false by (symmetry; apply Z.eqb_neq; exact Hcp).
  cbn [orb]. destruct (existsb (Z.eqb (pos_of pixels c)) used).
  - cbn [fold_left]. apply IH; assumption.
  - pose proof (try_pointers_fold byte c (pos_of pixels c) Hb Hc ptrs b Hptrs Hb0) as H.
    cbv zeta in H.
    set (r := fold_left keep_min (map (trial byte c (pos_of pixels c)) ptrs) b) in *.
    destruct H as [[-> Hr] | [-> Hr]].
    + apply IH; assumption.
    + symmetry. apply fold_keep_min_zero; [exact Hr |].
      apply Forall_forall. intros t Ht. apply in_flat_map in Ht.
      destruct Ht as (c' & _ & Ht). destruct (existsb _ used); [contradiction |].
      apply in_map_iff in Ht. destruct Ht as (p & <- & _). apply trial_nonneg.
Qed.

Lemma trials_by_position (pixels : list StegPixel) (used : list Z) (byte : Z)
    (ptrs : list StegPointer) (cands : list StegPixel) :
  Forall (fun c => nth_error pixels (Z.to_nat (pos_of pixels c)) = Some c) cands ->
  flat_map (fun c => if existsb (Z.eqb (pos_of pixels c)) used then []
                     else map (trial byte c (pos_of pixels c)) ptrs) cands =
  map (trial_at pixels byte)
    (flat_map (fun pos => if existsb (Z.eqb pos) used then [] else map (pair pos) ptrs)
       (map (pos_of pixels) cands)).
Proof.
  induction 1 as [| c rest Hc _ IH]; [reflexivity |].
  cbn [flat_map map]. rewrite map_app, IH. f_equal.
  destruct (existsb _ used); [reflexivity |].
  rewrite map_map. apply map_ext. intros ptr. unfold trial_at. cbn [fst snd].
  rewrite Hc. reflexivity.
Qed.

(* ================================================================== *)
(** * Local optimality of a backward step *)

Lemma allPointers_ok : Forall pointer_ok allPointers.
Proof.
  unfold allPointers. apply Forall_forall. intros ptr Hin.
  apply in_map_iff in Hin. destruct Hin as (p & <- & _). apply pointer_bytes_range.
Qed.

Lemma position_order_In (pixels : list StegPixel) (byte pos : Z) :
  In pos (position_order pixels byte) <-> 0 <= pos < Z.of_nat (length pixels).
Proof.
  unfold position_order. rewrite in_app_iff, stable_sort_by_In, !filter_In.
  split.
  - intros [[H _] | [H _]]; apply In_zrange_inv in H; lia.
  - intros H. assert (Hin : In pos (zrange 0 (length pixels))) by (apply In_zrange; lia).
    destruct (red_at pixels pos =? byte); [left | right]; auto.
Qed.

Section Optimality.
Context {C : CryptoES}.

Lemma possiblePreviousPointers_ok (K : WordArray) (n pos : Z) :
  Forall pointer_ok (possiblePreviousPointers K n pos).
Proof.
  unfold possiblePreviousPointers. apply Forall_forall. intros ptr Hin.
  apply filter_In in Hin. destruct Hin as [Hin _].
  pose proof allPointers_ok as H. rewrite Forall_forall in H. apply H. exact Hin.
Qed.

(** The nested loops of one step compute the first pair of least
    distance in [iteration_order]. *)
Lemma encode_step_first_min (K : WordArray) (pixels : list StegPixel) (used : list Z)
    (currentPos byte : Z) :
  NoDup (map index pixels) -> Forall pixel_ok pixels -> is_byte byte ->
  encode_step K pixels used currentPos byte =
  first_min (map (trial_at pixels byte) (iteration_order K pixels used currentPos byte)).
Proof.
  intros Hnd Hok Hb. unfold encode_step, first_min, iteration_order, pair_order.
  set (ptrs := possiblePreviousPointers K (Z.of_nat (length pixels)) currentPos).
  assert (Hin : forall c, In c (candidatePixels pixels byte) -> In c pixels)
    by (intros c; apply candidatePixels_In).
  rewrite scan_candidates_fold.
  - rewrite trials_by_position, (candidate_positions pixels Hnd byte); [reflexivity |].
    apply Forall_forall. intros c Hc. apply pixel_at_pos_of; auto.
  - exact Hb.
  - apply possiblePreviousPointers_ok.
  - apply Forall_forall. intros c Hc. rewrite Forall_forall in Hok. auto.
  - apply Forall_forall. intros c Hc. unfold pos_of, findIndex.
    apply findIndex_from_In; [lia | auto].
  - left. reflexivity.
Qed.


End Optimality.

(* ================================================================== *)
(** * Malformed keys *)




Section Walk.
Context {C : CryptoES} {I : Isaac}.



End Walk.

(* ================================================================== *)
(** * The scenarios of the specification on the small instances *)

Lemma demo_key_256 : is_key256 demo_key.
Proof.
  unfold is_key256, demo_key. cbn [words sigBytes length].
  repeat split; repeat (constructor; [unfold is_int32; lia |]); constructor.
Qed.

Lemma toy_aes_length (K : WordArray) (msg : jsstring) :
  length (@aes_encrypt Toy.toy_crypto K msg) = length msg.
Proof.
  unfold aes_encrypt, wordArrayToUint8Array. rewrite length_map, length_seq.
  cbn [AES_encrypt Utf8_parse Toy.toy_crypto uint8ArrayToWordArray sigBytes].
  rewrite Nat2Z.id, length_map. reflexivity.
Qed.

(** Scenario S1, encoder side: the selection ends and the chain is built. *)
Lemma s1_encode_returns :
  exists pos img',
    0 <= pos < 256 /\
    @encode Toy.toy_crypto Toy.toy_isaac (Z.to_nat 3000) Toy.enc_s1 =
      (Returned (packageKey (mkStegKey demo_key (JInt pos) (JInt 32) (JInt 2))), img').
Proof.
  assert (Hsel : exists idxs,
             @encoder_selection Toy.toy_crypto Toy.toy_isaac (Z.to_nat 3000) Toy.enc_s1
             = Returned (JInt 32, idxs)) by (vm_compute; eexists; reflexivity).
  destruct Hsel as (idxs & Hsel).
  destruct (encoder_selection_returned _ _ _ _ Hsel) as (_ & _ & Hs).
  change (js_min _ _) with (JInt 256) in Hs.
  change (width (enc_image Toy.enc_s1) * height (enc_image Toy.enc_s1)) with 256 in Hs.
  destruct (@select_indices_returned Toy.toy_isaac toy_isaac_unit 256 256 ltac:(lia)
              _ _ [] idxs (NoDup_nil _) (Forall_nil _) ltac:(cbn; lia) Hs)
    as (Hnd & Hrange & Hlen).
  destruct (@encode_total Toy.toy_crypto Toy.toy_isaac (Z.to_nat 3000) Toy.enc_s1
              (JInt 32) idxs Hsel Hnd Hrange ltac:(lia)
              ltac:(rewrite toy_aes_length; cbn [length Toy.enc_s1 enc_message str
                      list_ascii_of_string]; lia)
              ltac:(apply toy_pointers_cover; lia))
    as (pos & img' & Hpos & Henc & _).
  rewrite toy_aes_length in Henc. exists pos, img'. split; [lia | exact Henc].
Qed.

Lemma decode_of_encode_diverges_witness :
  exists packed img',
    @encode Toy.toy_crypto Toy.toy_isaac (Z.to_nat 3000) Toy.enc_s1 = (Returned packed, img') /\
    (dec <- new_StegDecoder img' packed ;;
     @decode Toy.toy_crypto Toy.toy_isaac (Z.to_nat 100000) dec) = OutOfFuel.
Proof.
  destruct s1_encode_returns as (pos & img' & _ & Henc).
  exists (packageKey (mkStegKey demo_key (JInt pos) (JInt 32) (JInt 2))), img'.
  split; [exact Henc |].
  apply (@decode_of_encode_diverges Toy.toy_crypto Toy.toy_isaac toy_isaac_unit
           (Z.to_nat 3000) Toy.enc_s1 32 _ img' demo_key_256).
  - rewrite toy_aes_length. reflexivity.
  - lia.
  - change (1 <= 256 < 2048). lia.
  - exact Henc.
Defined.

Lemma candidate_sets_differ_witness :
  @decoder_selection Toy.toy_isaac (Z.to_nat 100000) Toy.dec_s1 = OutOfFuel /\
  exists idxs,
    @encoder_selection Toy.toy_crypto Toy.toy_isaac (Z.to_nat 3000) Toy.enc_s1
      = Returned (JInt 32, idxs) /\
    Z.of_nat (length idxs) = 256.
Proof.
  pose proof (@candidate_sets_differ Toy.toy_crypto Toy.toy_isaac toy_isaac_unit
                Toy.enc_s1 Toy.dec_s1 32 eq_refl ltac:(lia)
                ltac:(change (1 <= 256 < 2048); lia) eq_refl eq_refl eq_refl) as T.
  split; [exact (proj1 (T (Z.to_nat 100000))) |].
  assert (Hsel : exists idxs,
             @encoder_selection Toy.toy_crypto Toy.toy_isaac (Z.to_nat 3000) Toy.enc_s1
             = Returned (JInt 32, idxs)) by (vm_compute; eexists; reflexivity).
  destruct Hsel as (idxs & Hsel). exists idxs. split; [exact Hsel |].
  exact (proj1 (proj2 (proj2 (T (Z.to_nat 3000)) _ _ Hsel))).
Defined.





(* ================================================================== *)
(** * Reading back what was stored *)

Ltac nat_eqb_cases :=
  repeat (match goal with
          | |- context [Nat.eqb ?a ?b] =>
              destruct (Nat.eqb_spec a b); try lia; cbn [andb]
          | |- context [Nat.ltb ?a ?b] =>
              destruct (Nat.ltb_spec a b); try lia; cbn [andb]
          end).

Lemma setPixelAt_image_ok (img img' : StegImage) (px : StegPixel) :
  setPixelAt img px = Returned img' -> image_ok img -> image_ok img'.
Proof.
  unfold setPixelAt, image_ok. destruct (_ || _); [discriminate |].
  intros [= <-] [Hpc Hlen]. cbn [width height channels].
  rewrite !typed_set_length. auto.
Qed.

Lemma setPixelAt_in_range (img : StegImage) (px : StegPixel) :
  0 <= index px < width img * height img ->
  exists img', setPixelAt img px = Returned img'.
Proof.
  intros H. unfold setPixelAt.
  destruct (Z.ltb_spec (index px) 0); [lia |].
  destruct (Z.geb_spec (index px) (width img * height img)); [lia |].
  cbn [orb]. eexists. reflexivity.
Qed.

Lemma setPixelAt_channels (img img' : StegImage) (px : StegPixel) (j : nat) :
  image_ok img -> setPixelAt img px = Returned img' ->
  typed_get (channels img') j =
    if (j =? 4 * Z.to_nat (index px))%nat then chR (bytes px)
    else if (j =? 4 * Z.to_nat (index px) + 1)%nat then chG (bytes px)
    else if (j =? 4 * Z.to_nat (index px) + 2)%nat then chB (bytes px)
    else if (j =? 4 * Z.to_nat (index px) + 3)%nat then chA (bytes px)
    else typed_get (channels img) j.
Proof.
  intros [Hpc Hlen]. unfold setPixelAt.
  destruct (Z.ltb_spec (index px) 0); [discriminate |].
  destruct (Z.geb_spec (index px) (width img * height img)); [discriminate |].
  cbn [orb]. intros [= <-]. cbn [channels].
  replace (Z.to_nat (index px * 4)) with (4 * Z.to_nat (index px))%nat by lia.
  rewrite !typed_get_set, !typed_set_length, Hlen, !Nat.add_0_r.
  nat_eqb_cases; reflexivity.
Qed.

Lemma getPixelAt_setPixelAt_same (img img' : StegImage) (px : StegPixel) :
  image_ok img -> setPixelAt img px = Returned img' ->
  getPixelAt img' (index px) = Returned (new_StegPixel (bytes px) (index px)).
Proof.
  intros Hok Hset. pose proof (setPixelAt_dims _ _ _ Hset) as [Hw Hh].
  unfold getPixelAt. rewrite Hw, Hh.
  assert (Hr : 0 <= index px < width img * height img).
  { unfold setPixelAt in Hset.
    destruct (Z.ltb_spec (index px) 0); [discriminate |].
    destruct (Z.geb_spec (index px) (width img * height img)); [discriminate | lia]. }
  destruct (Z.ltb_spec (index px) 0); [lia |].
  destruct (Z.geb_spec (index px) (width img * height img)); [lia |].
  cbn [orb]. rewrite !(setPixelAt_channels img img' px _ Hok Hset).
  replace (Z.to_nat (index px * 4)) with (4 * Z.to_nat (index px))%nat by lia.
  rewrite !Nat.add_0_r. nat_eqb_cases. destruct (bytes px); reflexivity.
Qed.

Lemma getPixelAt_setPixelAt_other (img img' : StegImage) (px : StegPixel) (idx : Z) :
  image_ok img -> setPixelAt img px = Returned img' -> idx <> index px ->
  getPixelAt img' idx = getPixelAt img idx.
Proof.
  intros Hok Hset Hne. pose proof (setPixelAt_dims _ _ _ Hset) as [Hw Hh].
  unfold getPixelAt. rewrite Hw, Hh.
  assert (Hr : 0 <= index px).
  { unfold setPixelAt in Hset.
    destruct (Z.ltb_spec (index px) 0); [discriminate | lia]. }
  destruct (Z.ltb_spec idx 0); [reflexivity |].
  destruct (Z.geb_spec idx (width img * height img)); [reflexivity |].
  cbn [orb]. rewrite !(setPixelAt_channels img img' px _ Hok Hset).
  nat_eqb_cases. reflexivity.
Qed.

(** * Writing a list of pixels *)

Lemma write_pixels_returned (pixels : list StegPixel) :
  forall img,
    Forall (fun px => 0 <= index px < width img * height img) pixels ->
    exists img', write_pixels img pixels = (Returned tt, img').
Proof.
  induction pixels as [| px rest IH]; intros img Hall; cbn [write_pixels].
  - eexists. reflexivity.
  - inversion Hall as [| ? ? Hpx Hrest]; subst.
    destruct (setPixelAt_in_range img px Hpx) as (img1 & E). rewrite E.
    pose proof (setPixelAt_dims _ _ _ E) as [Hw Hh].
    apply IH. rewrite Hw, Hh. exact Hrest.
Qed.

Lemma write_pixels_image_ok (pixels : list StegPixel) :
  forall img, image_ok img -> image_ok (snd (write_pixels img pixels)).
Proof.
  induction pixels as [| px rest IH]; intros img Hok; cbn [write_pixels snd]; [exact Hok |].
  destruct (setPixelAt img px) as [img1 | e |] eqn:E; cbn [snd]; try exact Hok.
  apply IH. eapply setPixelAt_image_ok; eassumption.
Qed.

(** A pixel that is not written keeps its four channels. *)
Lemma write_pixels_other (pixels : list StegPixel) (idx : Z) :
  forall img,
    image_ok img -> ~ In idx (map index pixels) ->
    getPixelAt (snd (write_pixels img pixels)) idx = getPixelAt img idx.
Proof.
  induction pixels as [| px rest IH]; intros img Hok Hnot; cbn [write_pixels snd];
    [reflexivity |].
  cbn [map In] in Hnot.
  destruct (setPixelAt img px) as [img1 | e |] eqn:E; cbn [snd]; try reflexivity.
  rewrite IH; [| eapply setPixelAt_image_ok; eassumption | tauto].
  apply (getPixelAt_setPixelAt_other img img1 px idx Hok E). intros ->. tauto.
Qed.

(** A pixel written once reads back with the bytes written. *)
Lemma write_pixels_same (pixels : list StegPixel) :
  forall img img',
    image_ok img -> NoDup (map index pixels) ->
    write_pixels img pixels = (Returned tt, img') ->
    forall px, In px pixels ->
      getPixelAt img' (index px) = Returned (new_StegPixel (bytes px) (index px)).
Proof.
  induction pixels as [| p rest IH]; intros img img' Hok Hnd Hw px Hin; [contradiction |].
  cbn [write_pixels] in Hw. cbn [map] in Hnd. inversion Hnd as [| ? ? Hfresh Hnd']; subst.
  destruct (setPixelAt img p) as [img1 | e |] eqn:E; try discriminate.
  pose proof (setPixelAt_image_ok _ _ _ E Hok) as Hok1.
  destruct Hin as [<- | Hin].
  - replace img' with (snd (write_pixels img1 rest)) by (rewrite Hw; reflexivity).
    rewrite write_pixels_other by assumption.
    apply (getPixelAt_setPixelAt_same img img1 p Hok E).
  - exact (IH img1 img' Hok1 Hnd' Hw px Hin).
Qed.

(* ================================================================== *)
(** * What one backward step commits *)

Section StepNode.
Context {C : CryptoES}.

Lemma iteration_order_In (K : WordArray) (pixels : list StegPixel) (used : list Z)
    (currentPos byte pos : Z) (ptr : StegPointer) :
  In (pos, ptr) (iteration_order K pixels used currentPos byte) <->
  0 <= pos < Z.of_nat (length pixels) /\ existsb (Z.eqb pos) used = false /\
  In ptr (possiblePreviousPointers K (Z.of_nat (length pixels)) currentPos).
Proof.
  unfold iteration_order, pair_order. rewrite in_flat_map. split.
  - intros (pos' & Hpos' & Hin). apply position_order_In in Hpos'.
    destruct (existsb (Z.eqb pos') used) eqn:Eu; [contradiction |].
    apply in_map_iff in Hin. destruct Hin as (q & [= <- <-] & Hq). auto.
  - intros (Hpos & Hu & Hin). exists pos. split; [apply position_order_In; exact Hpos |].
    rewrite Hu. apply in_map. exact Hin.
Qed.

Lemma possiblePreviousPointers_In (K : WordArray) (n pos : Z) (ptr : StegPointer) :
  In ptr (possiblePreviousPointers K n pos) ->
  jsnum_eqb (next_pixel_idx K (wordArray ptr) n) (JInt pos) = true.
Proof.
  unfold possiblePreviousPointers. intros Hin. apply filter_In in Hin. exact (proj2 Hin).
Qed.

Lemma next_pixel_idx_eqb (K p : WordArray) (n pos : Z) :
  jsnum_eqb (next_pixel_idx K p n) (JInt pos) = true -> next_pixel_idx K p n = JInt pos.
Proof.
  unfold next_pixel_idx. destruct (n =? 0); [discriminate |].
  rewrite jsnum_eqb_int. intros Heq. apply Z.eqb_eq in Heq. rewrite Heq. reflexivity.
Qed.

Lemma possiblePreviousPointers_resolve (K : WordArray) (n pos : Z) (ptr : StegPointer) :
  In ptr (possiblePreviousPointers K n pos) ->
  next_pixel_idx K (wordArray ptr) n = JInt pos /\ pointer_ok ptr.
Proof.
  intros Hin. split.
  - apply next_pixel_idx_eqb, possiblePreviousPointers_In, Hin.
  - pose proof (possiblePreviousPointers_ok K n pos) as H.
    exact (proj1 (Forall_forall _ _) H ptr Hin).
Qed.

Lemma pointer_of_modified (original : StegPixel) (byte : Z) (ptr : StegPointer) :
  pointer_ok ptr -> StegPointer_of_pixel (bytes (modified_pixel original byte ptr)) = ptr.
Proof.
  intros Hp. unfold pointer_ok, pointer_bytes in Hp.
  inversion Hp as [| ? ? Hhi Hp']; subst. inversion Hp' as [| ? ? Hlo _]; subst.
  unfold modified_pixel, StegPointer_of_pixel.
  cbn [setPointer setChannel new_StegPixel bytes set_channel chR chG chB chA].
  rewrite !clamp8_byte by assumption. destruct ptr; reflexivity.
Qed.

Lemma StegPointer_equals_eq (a b : StegPointer) : StegPointer_equals a b = true <-> a = b.
Proof.
  unfold StegPointer_equals. rewrite andb_true_iff, !Z.eqb_eq. destruct a, b; cbn.
  split; [intros [-> ->]; reflexivity | intros [= -> ->]; auto].
Qed.

(** The pixel a step commits sits on an unused position of the candidate
    set, has the image index and the alpha byte of the candidate there,
    carries [byte] in R, and spells in G and B a pointer that resolves to
    [currentPos]. *)
Lemma encode_step_node (K : WordArray) (pixels : list StegPixel) (used : list Z)
    (currentPos byte : Z) (bestPixel : StegPixel) (d bestPos : Z) :
  NoDup (map index pixels) -> Forall pixel_ok pixels -> is_byte byte ->
  encode_step K pixels used currentPos byte = Some (bestPixel, d, bestPos) ->
  0 <= bestPos < Z.of_nat (length pixels) /\
  existsb (Z.eqb bestPos) used = false /\
  (exists original,
      nth_error pixels (Z.to_nat bestPos) = Some original /\
      index bestPixel = index original /\
      chA (bytes bestPixel) = chA (bytes original) /\
      (bestPixel = original \/ originalBytes bestPixel = bytes original)) /\
  chR (bytes bestPixel) = byte /\
  pixel_ok bestPixel /\
  next_pixel_idx K (wordArray (StegPointer_of_pixel (bytes bestPixel)))
    (Z.of_nat (length pixels)) = JInt currentPos.
Proof.
  intros Hnd Hok Hb Hstep.
  rewrite (encode_step_first_min K pixels used currentPos byte Hnd Hok Hb) in Hstep.
  unfold first_min in Hstep.
  destruct (fold_keep_min_spec _ _ _ Hstep)
    as [[[=] _] | (pre' & t & post' & Hsplit & [= <-] & _)].
  assert (Hin : In (bestPixel, d, bestPos)
                  (map (trial_at pixels byte) (iteration_order K pixels used currentPos byte)))
    by (rewrite Hsplit; apply in_elt).
  apply in_map_iff in Hin. destruct Hin as ([pos ptr] & Ht & Hin).
  apply iteration_order_In in Hin. destruct Hin as (Hpos & Hu & Hptr).
  destruct (possiblePreviousPointers_resolve _ _ _ _ Hptr) as (Hnext & Hpok).
  destruct (nth_error pixels (Z.to_nat pos)) as [original |] eqn:Eo;
    [| apply nth_error_None in Eo; lia].
  assert (Hxok : pixel_ok original)
    by (rewrite Forall_forall in Hok; apply Hok; eapply nth_error_In; exact Eo).
  unfold trial_at in Ht. cbn [fst snd] in Ht. rewrite Eo in Ht. unfold trial in Ht.
  destruct (is_perfect byte original ptr) eqn:Ep.
  - injection Ht as <- <- <-.
    unfold is_perfect in Ep. apply andb_true_iff in Ep. destruct Ep as [HR Heq].
    apply Z.eqb_eq in HR. apply StegPointer_equals_eq in Heq.
    repeat split; try lia; try assumption.
    + exists original. repeat split; auto.
    + unfold pixel_ok in Hxok. rewrite <- Hxok, Heq. exact Hnext.
  - injection Ht as <- <- <-.
    repeat split; try lia; try assumption.
    + exists original. repeat split; auto.
    + cbn. apply clamp8_byte. exact Hb.
    + unfold pixel_ok. rewrite pointer_of_modified by exact Hpok. reflexivity.
    + rewrite pointer_of_modified by exact Hpok. exact Hnext.
Qed.

End StepNode.

(* ================================================================== *)
(** * The chain the backward loop builds *)

Lemma existsb_eqb_false (x : Z) (l : list Z) : existsb (Z.eqb x) l = false <-> ~ In x l.
Proof.
  split.
  - intros H Hin. assert (existsb (Z.eqb x) l = true); [| congruence].
    apply existsb_exists. exists x. split; [exact Hin | apply Z.eqb_refl].
  - intros H. destruct (existsb (Z.eqb x) l) eqn:E; [| reflexivity].
    apply existsb_exists in E. destruct E as (y & Hy & Exy). apply Z.eqb_eq in Exy.
    subst y. contradiction.
Qed.

Section ChainNodes.
Context {C : CryptoES}.

Lemma chain_loop_nodes (K : WordArray) (pixels : list StegPixel) :
  NoDup (map index pixels) -> Forall pixel_ok pixels ->
  forall (bs : list Z) (p0 : Z) (e0 : StegPixel) (rest : list (Z * StegPixel))
         (msg : list Z) (pos' : Z) (encoded' : list StegPixel),
    Forall is_byte bs ->
    nodes_on pixels ((p0, e0) :: rest) ->
    chain_links K (Z.of_nat (length pixels)) ((p0, e0) :: rest) msg ->
    chain_loop K pixels bs p0 (p0 :: map fst rest) (rev (map snd rest) ++ [e0])
      = Returned (pos', encoded') ->
    exists e' rest',
      encoded' = rev (map snd ((pos', e') :: rest')) /\
      nodes_on pixels ((pos', e') :: rest') /\
      chain_links K (Z.of_nat (length pixels)) ((pos', e') :: rest') (rev bs ++ msg) /\
      length ((pos', e') :: rest') = (length bs + length ((p0, e0) :: rest))%nat.
Proof.
  intros Hnd Hok. induction bs as [| b bs IH];
    intros p0 e0 rest msg pos' encoded' Hbs Hon Hlinks; cbn [chain_loop].
  - intros [= <- <-]. exists e0, rest.
    split; [reflexivity | split; [exact Hon | split; [exact Hlinks | reflexivity]]].
  - inversion Hbs as [| ? ? Hb Hbs']; subst.
    destruct (encode_step K pixels (p0 :: map fst rest) p0 b) as [[[px d] bpos] |] eqn:Es;
      [| discriminate].
    destruct (encode_step_node K pixels _ p0 b px d bpos Hnd Hok Hb Es)
      as (Hpos & Hfree & (original & Horig & Hidx & _) & HR & _ & Hnext).
    intros Hloop.
    specialize (IH bpos px ((p0, e0) :: rest) (b :: msg) pos' encoded' Hbs').
    cbn [map fst snd rev] in IH.
    destruct IH as (e' & rest' & Henc & Hon' & Hlinks' & Hlen).
    + destruct Hon as [Hnd0 Hall]. split.
      * cbn [map fst]. constructor; [| exact Hnd0].
        apply existsb_eqb_false. exact Hfree.
      * constructor; [| exact Hall]. cbn [fst snd]. split; [lia |].
        exists original. auto.
    + cbn [chain_links]. split; [exact HR |]. split; [exact Hnext | exact Hlinks].
    + exact Hloop.
    + exists e', rest'.
      split; [exact Henc | split; [exact Hon' | split]].
      * cbn [rev]. rewrite <- app_assoc. exact Hlinks'.
      * rewrite Hlen. cbn [length]. lia.
Qed.

End ChainNodes.

(* ================================================================== *)
(** * The chain of a whole run *)

Lemma select_indices_NoDup {I : Isaac} (fuel : nat) (target : jsnum) (pixelCount : Z) :
  forall (g : rng_state) (seen S : list Z),
    NoDup seen -> select_indices fuel target pixelCount g seen = Returned S -> NoDup S.
Proof.
  induction fuel as [| f IH]; intros g seen S Hnd; cbn [select_indices];
    destruct (js_lt _ target); try discriminate; try (intros [= <-]; exact Hnd).
  destruct (isaac_random g) as [r g']. apply IH. apply set_add_NoDup. exact Hnd.
Qed.

Lemma removelast_last_nth (l : list Z) (b : Z) :
  nth_error l (length l - 1) = Some b -> removelast l ++ [b] = l.
Proof.
  intros H. destruct l as [| x l] using rev_ind; [discriminate H |].
  clear IHl. rewrite removelast_last. rewrite length_app in H. cbn [length] in H.
  replace (length l + 1 - 1)%nat with (length l) in H by lia.
  rewrite nth_error_app2 in H by lia. rewrite Nat.sub_diag in H. cbn in H.
  injection H as ->. reflexivity.
Qed.

Section RunNodes.
Context {C : CryptoES} {I : Isaac}.

(** A run that builds its chain for a non-empty ciphertext: the encoded
    pixels, read from the first chain node on, sit on distinct positions
    of the candidate set, carry the ciphertext bytes in order, and each
    points to the next. *)
Lemma build_chain_nodes (fuel : nat) (enc : StegEncoder)
    (pxs : list StegPixel) (a : jsnum) (pos len : Z) :
  let K := enc_key enc in
  let msg_e := aes_encrypt K (enc_message enc) in
  msg_e <> [] ->
  build_chain fuel enc = Returned (pxs, a, pos, len) ->
  exists idxs pixels e rest,
    encoder_selection fuel enc = Returned (a, idxs) /\
    NoDup idxs /\
    Forall (fun idx => 0 <= idx < width (enc_image enc) * height (enc_image enc)) idxs /\
    map index pixels = idxs /\
    pxs = rev (map snd ((pos, e) :: rest)) /\
    nodes_on pixels ((pos, e) :: rest) /\
    chain_links K (Z.of_nat (length idxs)) ((pos, e) :: rest) msg_e /\
    length ((pos, e) :: rest) = length msg_e.
Proof.
  intros K msg_e Hne. unfold build_chain. fold K. fold msg_e.
  destruct (encoder_selection fuel enc) as [[a' idxs] | |] eqn:Esel; cbn [bind fst snd];
    try discriminate.
  destruct (map_outcome _ idxs) as [ps | |] eqn:Em; cbn [bind]; try discriminate.
  destruct (map_getPixelAt_returned _ _ _ Em) as (Hidx & _ & Hpok & Hrange).
  set (lastByte := nth_error msg_e (length msg_e - 1)).
  destruct (stable_sort_by (red_distance lastByte) ps) as [| closest others] eqn:Es;
    [discriminate |].
  set (currentPixel := setChannel closest RED match lastByte with Some b => b | None => 0 end).
  set (pixels := map (fun p => if same_object p closest then currentPixel else p) ps).
  destruct (chain_loop _ pixels _ _ _ _) as [r | |] eqn:Ec; cbn [bind]; try discriminate.
  intros [= <- <- <- <-].
  (* the candidate set *)
  assert (Hnd : NoDup idxs).
  { destruct (encoder_selection_returned fuel enc a' idxs Esel) as (_ & _ & Hs).
    eapply select_indices_NoDup; [constructor | exact Hs]. }
  assert (Hpidx : map index pixels = idxs).
  { subst pixels. rewrite map_map, <- Hidx. apply map_ext. intros p.
    destruct (same_object p closest) eqn:E; [| reflexivity].
    unfold same_object in E. apply Z.eqb_eq in E. cbn. symmetry. exact E. }
  assert (Hlen : length pixels = length idxs) by (rewrite <- Hpidx, length_map; reflexivity).
  assert (Hok : Forall pixel_ok pixels).
  { subst pixels. apply Forall_forall. intros p Hp. apply in_map_iff in Hp.
    destruct Hp as (q & <- & Hq). destruct (same_object q closest); [reflexivity |].
    rewrite Forall_forall in Hpok. apply Hpok. exact Hq. }
  (* the last byte *)
  destruct lastByte as [b |] eqn:Eb.
  2:{ subst lastByte. apply nth_error_None in Eb. destruct msg_e; [congruence | cbn in Eb; lia]. }
  assert (Hb : is_byte b).
  { pose proof (wordArrayToUint8Array_bytes (AES_encrypt K (Utf8_parse (enc_message enc)))) as H.
    rewrite Forall_forall in H. apply H. eapply nth_error_In. exact Eb. }
  assert (Hmsg : removelast msg_e ++ [b] = msg_e) by (apply removelast_last_nth; exact Eb).
  assert (Hbs : Forall is_byte (rev (removelast msg_e))).
  { apply Forall_rev. apply Forall_forall. intros x Hx.
    pose proof (wordArrayToUint8Array_bytes (AES_encrypt K (Utf8_parse (enc_message enc)))) as H.
    rewrite Forall_forall in H. apply H. fold (aes_encrypt K (enc_message enc)). fold msg_e.
    rewrite <- Hmsg. apply in_or_app. left. exact Hx. }
  (* the first committed node *)
  assert (Hcur : In currentPixel pixels).
  { subst pixels. apply in_map_iff. exists closest. split.
    - unfold same_object. rewrite Z.eqb_refl. reflexivity.
    - apply (stable_sort_by_In (red_distance (Some b))). rewrite Es. left. reflexivity. }
  set (p0 := findIndex pixels (index currentPixel)) in *.
  assert (Hp0 : nth_error pixels (Z.to_nat p0) = Some currentPixel /\ 0 <= p0).
  { destruct (In_nth_error _ _ Hcur) as (k & Hk).
    assert (Hf : p0 = Z.of_nat k).
    { subst p0. apply findIndex_nth; [rewrite Hpidx; exact Hnd | exact Hk]. }
    rewrite Hf, Nat2Z.id. split; [exact Hk | lia]. }
  destruct r as [pos' encoded'].
  destruct (chain_loop_nodes K pixels ltac:(rewrite Hpidx; exact Hnd) Hok
              (rev (removelast msg_e)) p0 currentPixel [] [b] pos' encoded' Hbs)
    as (e' & rest' & Henc & Hon & Hlinks & Hlen').
  - split; [cbn; constructor; [intros [] | constructor] |].
    constructor; [| constructor]. cbn [fst snd]. split; [tauto |].
    exists currentPixel. split; [tauto | reflexivity].
  - cbn [chain_links]. split; [| tauto]. cbn. apply clamp8_byte. exact Hb.
  - exact Ec.
  - rewrite rev_involutive, Hmsg, Hlen in Hlinks. cbn [fst snd].
    exists idxs, pixels, e', rest'.
    split; [reflexivity |]. split; [exact Hnd |]. split; [exact Hrange |].
    split; [exact Hpidx |]. split; [exact Henc |]. split; [exact Hon |].
    split; [exact Hlinks |].
    rewrite Hlen', length_rev. rewrite <- Hmsg at 2. rewrite length_app. cbn. lia.
Qed.

End RunNodes.

(* ================================================================== *)
(** * The decoder on the chain *)

Lemma map_outcome_nth {A B : Type} (f : A -> outcome B) (xs : list A) :
  forall ys, map_outcome f xs = Returned ys ->
    length ys = length xs /\
    forall j x, nth_error xs j = Some x ->
      exists y, nth_error ys j = Some y /\ f x = Returned y.
Proof.
  induction xs as [| x0 xs IH]; intros ys; cbn [map_outcome].
  - intros [= <-]. split; [reflexivity |]. intros [| j] x; discriminate.
  - destruct (f x0) as [y0 | |] eqn:E0; cbn [bind]; try discriminate.
    destruct (map_outcome f xs) as [ys' | |]; cbn [bind]; try discriminate.
    intros [= <-]. destruct (IH ys' eq_refl) as [Hlen Hnth].
    split; [cbn; lia |]. intros [| j] x; cbn [nth_error].
    + intros [= <-]. exists y0. auto.
    + apply Hnth.
Qed.

Lemma renegotiate_snd (a : jsnum) (L : Z) :
  snd (renegotiate a L) = floor_div DEFAULT_TOTAL_POINTERS (fst (renegotiate a L)).
Proof. unfold renegotiate. destruct (js_lt _ _); reflexivity. Qed.

(** Distinct positions of the candidate set hold distinct image indices. *)
Lemma nodes_indices_NoDup (pixels : list StegPixel) (nodes : list (Z * StegPixel)) :
  NoDup (map index pixels) -> nodes_on pixels nodes ->
  NoDup (map index (map snd nodes)).
Proof.
  intros Hnd [Hpos Hall].
  assert (Hfst : map fst nodes = map (findIndex pixels) (map index (map snd nodes))).
  { clear Hpos. induction Hall as [| [p e] rest (Hp & original & Ho & Hi) _ IH];
      [reflexivity |].
    cbn [map fst snd] in *. rewrite <- IH. f_equal.
    rewrite Hi, (findIndex_nth pixels _ _ Hnd Ho). lia. }
  rewrite Hfst in Hpos. eapply NoDup_map_inv. exact Hpos.
Qed.

Section WalkLinks.
Context {C : CryptoES}.

(** Over pixels that hold the bytes of the nodes, the walk from the first
    node reads the bytes of the chain. *)
Lemma walk_chain_links (K : WordArray) (D : list StegPixel) :
  forall (nodes : list (Z * StegPixel)) (bs : list Z) (p : Z) (e : StegPixel)
         (rest : list (Z * StegPixel)),
    nodes = (p, e) :: rest ->
    chain_links K (Z.of_nat (length D)) nodes bs ->
    Forall (fun node =>
              0 <= fst node /\
              exists d, nth_error D (Z.to_nat (fst node)) = Some d /\
                        bytes d = bytes (snd node) /\ pixel_ok d) nodes ->
    walk_chain K D (length nodes) (nth_error D (Z.to_nat p)) = Returned bs.
Proof.
  induction nodes as [| [p0 e0] rest0 IH]; intros bs p e rest Heq Hlinks Hall; [discriminate |].
  injection Heq as -> -> ->. inversion Hall as [| ? ? (Hp & d & Hd & Hbytes & Hdok) Hrest]; subst.
  cbn [fst snd] in *. destruct bs as [| b bs]; [destruct Hlinks |].
  cbn [chain_links] in Hlinks. destruct Hlinks as (HR & Hnext & Hlinks).
  cbn [length walk_chain]. rewrite Hd.
  destruct rest as [| [q e1] rest1].
  - destruct bs; [| destruct Hlinks]. cbn [length walk_chain bind].
    rewrite Hbytes, HR. reflexivity.
  - unfold pixel_ok in Hdok. rewrite Hdok, Hbytes, Hnext.
    pose proof (Forall_inv Hrest) as (Hq & _). cbn [fst] in Hq.
    unfold array_at. replace (q <? 0) with false by (symmetry; apply Z.ltb_ge; exact Hq).
    rewrite (IH bs q e1 rest1 eq_refl Hlinks Hrest). cbn [bind].
    rewrite HR. reflexivity.
Qed.

End WalkLinks.

(* ================================================================== *)
(** * Decoding what was encoded *)

Section RoundTrip.
Context {C : CryptoES} {I : Isaac}.

(** What the decoder built from the key of a run selects and reads. *)
Lemma decoder_of_encode (fuel : nat) (enc : StegEncoder) (t' pos : Z) (idxs : list Z)
    (img1 : StegImage) :
  let K := enc_key enc in
  let L := Z.of_nat (length (aes_encrypt K (enc_message enc))) in
  let pixelCount := width (enc_image enc) * height (enc_image enc) in
  is_key256 K -> 1 <= t' < 65536 -> L < 65536 -> 0 <= pos ->
  65536 / t' <= pixelCount ->
  width img1 = width (enc_image enc) -> height img1 = height (enc_image enc) ->
  encoder_selection fuel enc = Returned (JInt t', idxs) ->
  exists dec,
    new_StegDecoder img1 (packageKey (mkStegKey K (JInt pos) (JInt t') (JInt L)))
      = Returned dec /\
    dec_image dec = img1 /\ dec_key dec = K /\
    dec_firstPixelIndex dec = JInt pos /\ dec_msgLength dec = JInt L /\
    decoder_selection fuel dec = Returned idxs.
Proof.
  intros K L pixelCount HK Ht HL Hpos Hfit Hw Hh Hsel.
  destruct (unpackageKey_packageKey K t' L pos HK ltac:(lia) ltac:(subst L; lia) Hpos)
    as (Hun & _).
  unfold new_StegDecoder. rewrite Hun. cbn [bind key aliasCount msgLength firstPixelIndex].
  eexists. split; [reflexivity |]. cbn [dec_image dec_key dec_firstPixelIndex dec_msgLength].
  repeat (split; [reflexivity |]).
  destruct (encoder_selection_returned fuel enc _ idxs Hsel) as (Ha & _ & Hs).
  fold K L pixelCount in Ha, Hs.
  unfold decoder_selection. cbn [dec_key dec_image dec_encodingPixelsCount].
  rewrite Hw, Hh. fold pixelCount.
  rewrite renegotiate_snd, <- Ha in Hs.
  rewrite Q_value in *. rewrite floor_div_pos in * by lia.
  cbn [js_min] in Hs. rewrite Z.min_l in Hs by exact Hfit. exact Hs.
Qed.


(** The pixels the decoder reads at the positions of the nodes. *)
Lemma decodable_nodes (img img1 : StegImage) (idxs : list Z) (pixels D : list StegPixel)
    (nodes : list (Z * StegPixel)) :
  image_ok img -> NoDup idxs -> map index pixels = idxs ->
  nodes_on pixels nodes ->
  write_pixels img (rev (map snd nodes)) = (Returned tt, img1) ->
  map_outcome (getPixelAt img1) idxs = Returned D ->
  Forall (fun node =>
            0 <= fst node /\
            exists d, nth_error D (Z.to_nat (fst node)) = Some d /\
                      bytes d = bytes (snd node) /\ pixel_ok d) nodes.
Proof.
  intros Hok Hnd Hidx Hon Hw HD.
  pose proof (nodes_indices_NoDup pixels nodes ltac:(rewrite Hidx; exact Hnd) Hon) as Hnd'.
  assert (Hndr : NoDup (map index (rev (map snd nodes)))).
  { rewrite map_rev. apply NoDup_rev. exact Hnd'. }
  pose proof (write_pixels_same _ img img1 Hok Hndr Hw) as Hread.
  destruct (map_outcome_nth _ _ _ HD) as [_ Hnth].
  destruct Hon as [_ Hall]. apply Forall_forall. intros [p e] Hin.
  rewrite Forall_forall in Hall. destruct (Hall _ Hin) as (Hp & original & Ho & Hi).
  cbn [fst snd] in *. split; [exact Hp |].
  assert (Hx : nth_error idxs (Z.to_nat p) = Some (index e)).
  { rewrite <- Hidx, nth_error_map, Ho. cbn. congruence. }
  destruct (Hnth _ _ Hx) as (d & Hd & Hget). exists d. split; [exact Hd |].
  rewrite Hread in Hget.
  - injection Hget as <-. split; reflexivity.
  - apply in_rev. rewrite rev_involutive. apply in_map_iff. exists (p, e). auto.
Qed.

Lemma roundtrip_ciphertext (fuel : nat) (enc : StegEncoder) (t' : Z) (packed : jsstring)
    (img' : StegImage) :
  let K := enc_key enc in
  let msg_e := aes_encrypt K (enc_message enc) in
  let L := Z.of_nat (length msg_e) in
  let pixelCount := width (enc_image enc) * height (enc_image enc) in
  is_key256 K -> image_ok (enc_image enc) ->
  fst (renegotiate (enc_aliasCount enc) L) = JInt t' -> 1 <= t' < 65536 -> L < 65536 ->
  65536 / t' <= pixelCount ->
  encode fuel enc = (Returned packed, img') ->
  (dec <- new_StegDecoder img' packed ;; extract fuel dec) = Returned msg_e /\
  (dec <- new_StegDecoder img' packed ;; decode fuel dec) = Returned (aes_decrypt K msg_e).
Proof.
  intros K msg_e L pixelCount HK Hok Heff Ht HL Hfit Henc.
  unfold encode in Henc.
  destruct (build_chain fuel enc) as [[[[pxs a] pos] len] | e |] eqn:Eb; try discriminate.
  destruct (build_chain_returned fuel enc pxs a pos len Eb) as ((idxs & Hsel) & Hlen & Hpos).
  destruct (encoder_selection_returned fuel enc a idxs Hsel) as (Ha & _).
  fold K msg_e L in Ha. rewrite Heff in Ha. subst a len.
  pose proof (write_pixels_dims pxs (enc_image enc)) as [Hw Hh].
  destruct (write_pixels (enc_image enc) pxs) as [[[] | e |] img1] eqn:Ew; try discriminate.
  injection Henc as <- <-. cbn [snd] in Hw, Hh.
  destruct (decoder_of_encode fuel enc t' pos idxs img1 HK Ht HL Hpos Hfit Hw Hh Hsel)
    as (dec & Hd & Himg & Hkey & Hfirst & Hmsg & Hdsel).
  fold K msg_e L in Hd, Hmsg. fold K. fold msg_e. fold L. rewrite Hd. cbn [bind].
  assert (Hextract : extract fuel dec = Returned msg_e);
    [| split; [exact Hextract | unfold decode; rewrite Hextract, Hkey; reflexivity]].
  unfold extract. rewrite Hdsel, Himg, Hkey, Hfirst, Hmsg. cbn [bind].
  (* the pixels the decoder reads *)
  assert (Hrange : Forall (in_image (width img1 * height img1)) idxs).
  { rewrite Hw, Hh. unfold build_chain in Eb. rewrite Hsel in Eb. cbn [bind fst snd] in Eb.
    destruct (map_outcome _ idxs) as [ps | |] eqn:Em; cbn [bind] in Eb; try discriminate.
    destruct (map_getPixelAt_returned _ _ _ Em) as (_ & _ & _ & Hr). exact Hr. }
  destruct (map_getPixelAt_total img1 idxs Hrange) as (D & HD). rewrite HD. cbn [bind].
  unfold typed_array_length.
  replace (L <? 0) with false by (symmetry; apply Z.ltb_ge; subst L; lia).
  cbn [bind]. subst L. rewrite Nat2Z.id.
  destruct (list_eq_dec Z.eq_dec msg_e []) as [Emsg | Emsg]; [rewrite Emsg; reflexivity |].
  destruct (build_chain_nodes fuel enc pxs (JInt t') pos _ Emsg Eb)
    as (idxs' & pixels & e & rest & Hsel' & Hnd & _ & Hidx & Hpxs & Hon & Hlinks & Hlen).
  rewrite Hsel in Hsel'. injection Hsel' as <-.
  fold K in Hlinks, Hlen. fold msg_e in Hlinks, Hlen.
  subst pxs.
  pose proof (decodable_nodes (enc_image enc) img1 idxs pixels D _ Hok Hnd Hidx Hon Ew HD)
    as Hall.
  destruct (map_outcome_nth _ _ _ HD) as [HlenD _].
  rewrite <- HlenD in Hlinks.
  unfold array_at. replace (pos <? 0) with false by (symmetry; apply Z.ltb_ge; exact Hpos).
  rewrite <- Hlen.
  exact (walk_chain_links K D _ _ pos e rest eq_refl Hlinks Hall).
Qed.

(** X1. Decoding what was just encoded. When the image has at least as
    many pixels as the candidate count [floor(Q / t')] of the effective
    alias count, and its buffer holds four channels per pixel, the decoder
    built from the stego image and the key that encode returned extracts
    exactly the ciphertext bytes of the run, and decode returns their
    decryption. *)
Theorem extract_of_encode (fuel : nat) (enc : StegEncoder) (t' : Z) (packed : jsstring)
    (img' : StegImage) :
  let K := enc_key enc in
  let msg_e := aes_encrypt K (enc_message enc) in
  let L := Z.of_nat (length msg_e) in
  let pixelCount := width (enc_image enc) * height (enc_image enc) in
  is_key256 K -> image_ok (enc_image enc) ->
  fst (renegotiate (enc_aliasCount enc) L) = JInt t' -> 1 <= t' < 65536 -> L < 65536 ->
  65536 / t' <= pixelCount ->
  encode fuel enc = (Returned packed, img') ->
  (dec <- new_StegDecoder img' packed ;; extract fuel dec) = Returned msg_e /\
  (dec <- new_StegDecoder img' packed ;; decode fuel dec) = Returned (aes_decrypt K msg_e).
Proof. exact (roundtrip_ciphertext fuel enc t' packed img'). Qed.

End RoundTrip.

(* ================================================================== *)
(** * The run of [Demo.enc_fit] *)

Lemma cover16_ok : image_ok Toy.cover16.
Proof. split; [cbn; lia | reflexivity]. Qed.

Lemma fit_encode_returns :
  exists pos img',
    0 <= pos < 256 /\
    @encode Toy.toy_crypto Toy.toy_isaac (Z.to_nat 3000) Demo.enc_fit =
      (Returned (packageKey (mkStegKey demo_key (JInt pos) (JInt 256) (JInt 2))), img').
Proof.
  assert (Hsel : exists idxs,
             @encoder_selection Toy.toy_crypto Toy.toy_isaac (Z.to_nat 3000) Demo.enc_fit
             = Returned (JInt 256, idxs)) by (vm_compute; eexists; reflexivity).
  destruct Hsel as (idxs & Hsel).
  destruct (encoder_selection_returned _ _ _ _ Hsel) as (_ & _ & Hs).
  change (js_min _ _) with (JInt 256) in Hs.
  change (width (enc_image Demo.enc_fit) * height (enc_image Demo.enc_fit)) with 256 in Hs.
  destruct (@select_indices_returned Toy.toy_isaac toy_isaac_unit 256 256 ltac:(lia)
              _ _ [] idxs (NoDup_nil _) (Forall_nil _) ltac:(cbn; lia) Hs)
    as (Hnd & Hrange & Hlen).
  destruct (@encode_total Toy.toy_crypto Toy.toy_isaac (Z.to_nat 3000) Demo.enc_fit
              (JInt 256) idxs Hsel Hnd Hrange ltac:(lia)
              ltac:(rewrite toy_aes_length; cbn [length Demo.enc_fit enc_message str
                      list_ascii_of_string]; lia)
              ltac:(apply toy_pointers_cover; lia))
    as (pos & img' & Hpos & Henc & _).
  rewrite toy_aes_length in Henc. exists pos, img'. split; [lia | exact Henc].
Qed.

Lemma extract_of_encode_witness :
  exists packed img',
    @encode Toy.toy_crypto Toy.toy_isaac (Z.to_nat 3000) Demo.enc_fit = (Returned packed, img') /\
    (dec <- new_StegDecoder img' packed ;;
     @extract Toy.toy_crypto Toy.toy_isaac (Z.to_nat 3000) dec) = Returned [104; 105].
Proof.
  destruct fit_encode_returns as (pos & img' & _ & Henc).
  exists (packageKey (mkStegKey demo_key (JInt pos) (JInt 256) (JInt 2))), img'.
  split; [exact Henc |].
  exact (proj1 (@extract_of_encode Toy.toy_crypto Toy.toy_isaac (Z.to_nat 3000) Demo.enc_fit
                  256 _ img' demo_key_256 cover16_ok eq_refl ltac:(lia)
                  ltac:(rewrite toy_aes_length; cbn; lia) ltac:(cbn; lia) Henc)).
Defined.

(* ================================================================== *)
(** * What encode leaves alone *)

Lemma setPixelAt_frame (img img' : StegImage) (px : StegPixel) (j : nat) :
  setPixelAt img px = Returned img' -> Z.of_nat (j / 4) <> index px ->
  typed_get (channels img') j = typed_get (channels img) j.
Proof.
  unfold setPixelAt.
  destruct (Z.ltb_spec (index px) 0); [discriminate |].
  destruct (Z.geb_spec (index px) (width img * height img)); [discriminate |].
  cbn [orb]. intros [= <-] Hne. cbn [channels].
  replace (Z.to_nat (index px * 4)) with (4 * Z.to_nat (index px))%nat by lia.
  assert (Hj : (j / 4 <> Z.to_nat (index px))%nat) by lia.
  assert (Hdiv : forall k, (k < 4)%nat -> ((4 * Z.to_nat (index px) + k) / 4 = Z.to_nat (index px))%nat).
  { intros k Hk. rewrite Nat.mul_comm, Nat.div_add_l by lia.
    rewrite (Nat.div_small k 4) by lia. lia. }
  rewrite !typed_get_set.
  repeat (match goal with
          | |- context [Nat.eqb j ?b] =>
              destruct (Nat.eqb_spec j b);
              [exfalso; apply Hj; subst j; apply Hdiv; lia |]; cbn [andb]
          end).
  reflexivity.
Qed.

Lemma write_pixels_frame (pixels : list StegPixel) (j : nat) :
  forall img,
    ~ In (Z.of_nat (j / 4)) (map index pixels) ->
    typed_get (channels (snd (write_pixels img pixels))) j = typed_get (channels img) j.
Proof.
  induction pixels as [| px rest IH]; intros img Hnot; cbn [write_pixels snd]; [reflexivity |].
  cbn [map In] in Hnot.
  destruct (setPixelAt img px) as [img1 | e |] eqn:E; cbn [snd]; try reflexivity.
  rewrite IH by (intros H; apply Hnot; right; exact H).
  apply (setPixelAt_frame img img1 px j E). intros Heq. apply Hnot. left. symmetry. exact Heq.
Qed.

Lemma write_pixels_length (pixels : list StegPixel) :
  forall img, length (channels (snd (write_pixels img pixels))) = length (channels img).
Proof.
  induction pixels as [| px rest IH]; intros img; cbn [write_pixels snd]; [reflexivity |].
  destruct (setPixelAt img px) as [img1 | e |] eqn:E; cbn [snd]; try reflexivity.
  rewrite IH. unfold setPixelAt in E. destruct (_ || _); [discriminate |].
  injection E as <-. cbn [channels]. rewrite !typed_set_length. reflexivity.
Qed.

Section Frame.
Context {C : CryptoES} {I : Isaac}.

Lemma chain_loop_length (K : WordArray) (pixels : list StegPixel) (bs : list Z) :
  forall pos used encoded r,
    chain_loop K pixels bs pos used encoded = Returned r ->
    length (snd r) = (length encoded + length bs)%nat.
Proof.
  induction bs as [| b rest IH]; intros pos used encoded r; cbn [chain_loop].
  - intros [= <-]. cbn. lia.
  - destruct (encode_step K pixels used pos b) as [[[px d] bpos] |]; [| discriminate].
    intros H. rewrite (IH _ _ _ _ H), length_app. cbn. lia.
Qed.

Lemma build_chain_length (fuel : nat) (enc : StegEncoder)
    (pxs : list StegPixel) (a : jsnum) (pos len : Z) :
  build_chain fuel enc = Returned (pxs, a, pos, len) ->
  Z.of_nat (length pxs) =
    Z.max 1 (Z.of_nat (length (aes_encrypt (enc_key enc) (enc_message enc)))).
Proof.
  unfold build_chain.
  destruct (encoder_selection fuel enc) as [[a' idxs] | |]; cbn [bind fst snd]; try discriminate.
  destruct (map_outcome _ idxs) as [ps | |]; cbn [bind]; try discriminate.
  destruct (stable_sort_by _ ps) as [| closest others]; [discriminate |].
  destruct (chain_loop _ _ _ _ _ _) as [r | |] eqn:Ec; cbn [bind]; try discriminate.
  intros [= <- <- <- <-]. rewrite (chain_loop_length _ _ _ _ _ _ _ Ec).
  rewrite length_rev. cbn [length].
  destruct (aes_encrypt (enc_key enc) (enc_message enc)) as [| b l] using rev_ind;
    [reflexivity |].
  rewrite removelast_last, length_app. cbn [length]. lia.
Qed.

(** X2. Whatever encode does, the image keeps its size; and every channel
    byte outside of at most [max(1, L)] pixels of the image keeps its
    value. *)
Theorem encode_frame (fuel : nat) (enc : StegEncoder) :
  let img := enc_image enc in
  let img' := snd (encode fuel enc) in
  let L := Z.of_nat (length (aes_encrypt (enc_key enc) (enc_message enc))) in
  width img' = width img /\ height img' = height img /\
  length (channels img') = length (channels img) /\
  exists touched : list Z,
    Z.of_nat (length touched) <= Z.max 1 L /\
    forall j : nat,
      ~ In (Z.of_nat (j / 4)) touched ->
      typed_get (channels img') j = typed_get (channels img) j.
Proof.
  intros img img' L. subst img'. unfold encode.
  destruct (build_chain fuel enc) as [[[[pxs a] pos] len] | e |] eqn:Eb; cbn [snd];
    try (repeat split; exists []; split; [cbn; lia | reflexivity]).
  pose proof (write_pixels_dims pxs (enc_image enc)) as [Hw Hh].
  pose proof (write_pixels_length pxs (enc_image enc)) as Hlen.
  pose proof (fun j => write_pixels_frame pxs j (enc_image enc)) as Hframe.
  pose proof (build_chain_length fuel enc pxs a pos len Eb) as Hcount.
  assert (Himg : snd (let (o, img0) := write_pixels (enc_image enc) pxs in
                      match o with
                      | Returned _ =>
                          (Returned (packageKey (mkStegKey (enc_key enc) (JInt pos) a (JInt len))),
                           img0)
                      | Thrown e => (Thrown e, img0)
                      | OutOfFuel => (OutOfFuel, img0)
                      end) = snd (write_pixels (enc_image enc) pxs)).
  { destruct (write_pixels (enc_image enc) pxs) as [[u | e |] img1]; reflexivity. }
  rewrite Himg. split; [exact Hw |]. split; [exact Hh |]. split; [exact Hlen |].
  exists (map index pxs). rewrite length_map. split; [fold L in Hcount; lia | exact Hframe].
Qed.

End Frame.

(* ================================================================== *)
(** * The statistics *)

(** ** One pixel *)

Lemma changed_channels_range (p : StegPixel) :
  0 <= changed_channels p <= 4 /\
  (modified p = true <-> 1 <= changed_channels p) /\
  (chA (bytes p) = chA (originalBytes p) -> changed_channels p <= 3).
Proof.
  unfold changed_channels, modified, pixel_channels.
  destruct (bytes p) as [r g b a], (originalBytes p) as [r0 g0 b0 a0].
  cbn [combine fold_left existsb fst snd chR chG chB chA].
  rewrite (Z.eqb_sym r r0), (Z.eqb_sym g g0), (Z.eqb_sym b b0), (Z.eqb_sym a a0).
  destruct (Z.eqb_spec r0 r), (Z.eqb_spec g0 g), (Z.eqb_spec b0 b), (Z.eqb_spec a0 a);
    cbn [negb orb]; repeat split; try lia; try discriminate; try reflexivity;
    intros; try lia; try congruence.
Qed.

(** ** Sums *)

Lemma fold_add_shift {A : Type} (f : A -> Z) (l : list A) (a : Z) :
  fold_left (fun acc p => acc + f p) l a = a + fold_left (fun acc p => acc + f p) l 0.
Proof.
  revert a. induction l as [| x l IH]; intros a; cbn [fold_left]; [lia |].
  rewrite (IH (a + f x)), (IH (0 + f x)). lia.
Qed.

Lemma fold_add_cons {A : Type} (f : A -> Z) (x : A) (l : list A) :
  fold_left (fun acc p => acc + f p) (x :: l) 0 =
  f x + fold_left (fun acc p => acc + f p) l 0.
Proof. cbn [fold_left]. rewrite fold_add_shift. lia. Qed.

Lemma fold_add_le {A : Type} (f g : A -> Z) (l : list A) :
  (forall x, In x l -> f x <= g x) ->
  fold_left (fun acc p => acc + f p) l 0 <= fold_left (fun acc p => acc + g p) l 0.
Proof.
  induction l as [| x l IH]; intros H; [cbn; lia |].
  rewrite !fold_add_cons. specialize (H x (or_introl eq_refl)) as Hx.
  specialize (IH (fun y Hy => H y (or_intror Hy))). lia.
Qed.

Lemma fold_add_scale {A : Type} (f : A -> Z) (c : Z) (l : list A) :
  fold_left (fun acc p => acc + c * f p) l 0 = c * fold_left (fun acc p => acc + f p) l 0.
Proof.
  induction l as [| x l IH]; [cbn; lia |]. rewrite !fold_add_cons, IH. lia.
Qed.

Lemma fold_count_filter {A : Type} (f : A -> bool) (l : list A) :
  fold_left (fun acc p => acc + (if f p then 1 else 0)) l 0 = Z.of_nat (length (filter f l)).
Proof.
  induction l as [| x l IH]; [reflexivity |].
  rewrite (fold_add_cons (fun p => if f p then 1 else 0)), IH. cbn [filter].
  destruct (f x); cbn [length]; lia.
Qed.

(** ** The map from index to pixel *)

Lemma map_set_keys (m : list (Z * StegPixel)) (k : Z) (v : StegPixel) :
  map fst (map_set m k v) = if existsb (Z.eqb k) (map fst m) then map fst m
                            else map fst m ++ [k].
Proof.
  induction m as [| [k' v'] m IH]; cbn [map_set map fst existsb]; [reflexivity |].
  rewrite (Z.eqb_sym k k'). destruct (Z.eqb_spec k' k) as [-> | Hne]; cbn [orb map fst].
  - reflexivity.
  - rewrite IH. destruct (existsb (Z.eqb k) (map fst m)); reflexivity.
Qed.

Lemma map_set_fresh (m : list (Z * StegPixel)) (k : Z) (v : StegPixel) :
  ~ In k (map fst m) -> map_set m k v = m ++ [(k, v)].
Proof.
  induction m as [| [k' v'] m IH]; cbn [map_set map fst In app]; [reflexivity |].
  intros Hnot. destruct (Z.eqb_spec k' k) as [-> | Hne]; [tauto |].
  rewrite IH by tauto. reflexivity.
Qed.

Lemma map_set_In (m : list (Z * StegPixel)) (k : Z) (v : StegPixel) (k0 : Z) (v0 : StegPixel) :
  NoDup (map fst m) ->
  (In (k0, v0) (map_set m k v) <-> (k0 = k /\ v0 = v) \/ (k0 <> k /\ In (k0, v0) m)).
Proof.
  induction m as [| [k' v'] m IH]; cbn [map_set map fst In]; intros Hnd.
  - split; [intros [[= <- <-] | []]; auto | intros [[-> ->] | [_ []]]; auto].
  - inversion Hnd as [| ? ? Hfresh Hnd']; subst.
    destruct (Z.eqb_spec k' k) as [-> | Hne]; cbn [In].
    + split.
      * intros [[= <- <-] | Hin]; [auto |].
        right. split; [| auto]. intros ->. apply Hfresh.
        apply in_map_iff. exists (k, v0). auto.
      * intros [[-> ->] | [Hk [[= <- <-] | Hin]]]; [auto | congruence | auto].
    + rewrite (IH Hnd'). split.
      * intros [[= <- <-] | [[-> ->] | [Hk Hin]]]; auto.
      * intros [[-> ->] | [Hk [[= <- <-] | Hin]]]; auto.
Qed.

Lemma index_map_snoc (pxs : list StegPixel) (x : StegPixel) :
  (fold_left (fun m p => map_set m (index p) p) (pxs ++ [x]) []) = map_set (fold_left (fun m p => map_set m (index p) p) pxs []) (index x) x.
Proof. rewrite fold_left_app. reflexivity. Qed.

Lemma index_map_keys (pxs : list StegPixel) :
  NoDup (map fst (fold_left (fun m p => map_set m (index p) p) pxs [])) /\
  forall k, In k (map fst (fold_left (fun m p => map_set m (index p) p) pxs [])) <-> In k (map index pxs).
Proof.
  induction pxs as [| x pxs [IHnd IHin]] using rev_ind.
  - split; [constructor | intros k; reflexivity].
  - rewrite index_map_snoc, map_set_keys, map_app. cbn [map].
    destruct (existsb (Z.eqb (index x)) (map fst (fold_left (fun m p => map_set m (index p) p) pxs []))) eqn:E.
    + split; [exact IHnd |]. intros k. rewrite in_app_iff, <- IHin. cbn [In].
      apply existsb_exists in E. destruct E as (y & Hy & Ey). apply Z.eqb_eq in Ey. subst y.
      split; [auto | intros [H | [<- | []]]; auto].
    + apply existsb_eqb_false in E. split.
      * apply NoDup_app; [exact IHnd | constructor; [intros [] | constructor] |].
        intros k Hk [<- | []]. auto.
      * intros k. rewrite !in_app_iff, IHin. reflexivity.
Qed.

(** Last write wins. *)
Lemma index_map_last (pxs : list StegPixel) (k : Z) (v : StegPixel) :
  In (k, v) (fold_left (fun m p => map_set m (index p) p) pxs []) <->
  exists pre post, pxs = pre ++ v :: post /\ index v = k /\ ~ In k (map index post).
Proof.
  revert k v. induction pxs as [| x pxs IH] using rev_ind; intros k v.
  - split; [intros [] | intros (pre & post & H & _); destruct pre; discriminate].
  - rewrite index_map_snoc, map_set_In by apply index_map_keys. split.
    + intros [[-> ->] | [Hk Hin]].
      * exists pxs, []. auto.
      * apply IH in Hin. destruct Hin as (pre & post & -> & Hv & Hpost).
        exists pre, (post ++ [x]). rewrite <- app_assoc. split; [reflexivity |].
        split; [exact Hv |]. rewrite map_app, in_app_iff. cbn. intuition congruence.
    + intros (pre & post & Heq & Hv & Hpost).
      destruct post as [| y post] using rev_ind.
      * apply app_inj_tail in Heq. destruct Heq as [_ <-]. auto.
      * clear IHpost. rewrite app_comm_cons, app_assoc in Heq.
        apply app_inj_tail in Heq. destruct Heq as [-> ->].
        rewrite map_app, in_app_iff in Hpost. cbn in Hpost.
        right. split; [intuition congruence |].
        apply IH. exists pre, post. intuition.
Qed.

Lemma index_map_NoDup (pxs : list StegPixel) :
  NoDup (map index pxs) -> map snd (fold_left (fun m p => map_set m (index p) p) pxs []) = pxs.
Proof.
  induction pxs as [| x pxs IH] using rev_ind; intros Hnd; [reflexivity |].
  rewrite map_app in Hnd. cbn [map] in Hnd.
  pose proof (NoDup_remove_2 _ _ _ Hnd) as Hfresh. rewrite app_nil_r in Hfresh.
  apply NoDup_remove_1 in Hnd. rewrite app_nil_r in Hnd.
  rewrite index_map_snoc, map_set_fresh.
  - rewrite map_app, IH by exact Hnd. reflexivity.
  - intros Hin. apply index_map_keys in Hin. contradiction.
Qed.


Lemma index_map_consistent (pxs : list StegPixel) :
  map index (map snd (fold_left (fun m p => map_set m (index p) p) pxs [])) =
  map fst (fold_left (fun m p => map_set m (index p) p) pxs []).
Proof.
  rewrite map_map. apply map_ext_in. intros [k v] Hin.
  apply index_map_last in Hin. destruct Hin as (_ & _ & _ & Hv & _). exact Hv.
Qed.

Lemma stats_bounds (image : StegImage) (encodedPixels : list StegPixel) :
  let s := computeEncodeStats image encodedPixels in
  let U := uniquePixels encodedPixels in
  (forall v, In v U <->
             exists pre post, encodedPixels = pre ++ v :: post /\
                              ~ In (index v) (map index post)) /\
  NoDup (map index U) /\
  pixelsTotal s = width image * height image /\
  pixelsEncoded s = Z.of_nat (length U) /\
  pixelsModified s = Z.of_nat (length (filter modified U)) /\
  pixelsModified s <= pixelsEncoded s <= Z.of_nat (length encodedPixels) /\
  pixelsModified s <= channelsModified s <= 4 * pixelsModified s /\
  bytesModified s = channelsModified s.
Proof.
  intros s U. subst s. unfold computeEncodeStats. fold U.
  cbn [pixelsTotal pixelsEncoded pixelsModified channelsModified bytesModified].
  rewrite fold_count_filter.
  assert (Hkeys : map index U = map fst (fold_left (fun m p => map_set m (index p) p)
                                           encodedPixels []))
    by apply index_map_consistent.
  destruct (index_map_keys encodedPixels) as [Hnd Hin].
  split; [| split; [| split; [| split; [| split; [| split; [| split]]]]]];
    try reflexivity.
  - intros v. unfold U, uniquePixels. rewrite in_map_iff. split.
    + intros ([k v'] & <- & Hkv). apply index_map_last in Hkv.
      destruct Hkv as (pre & post & Heq & Hv & Hpost). cbn [snd].
      exists pre, post. rewrite Hv. auto.
    + intros (pre & post & Heq & Hpost). exists (index v, v). split; [reflexivity |].
      apply index_map_last. exists pre, post. auto.
  - rewrite Hkeys. exact Hnd.
  - split.
    + pose proof (filter_length_le modified U). lia.
    + assert (Hle : (length (map index U) <= length (map index encodedPixels))%nat).
      { apply NoDup_incl_length; [rewrite Hkeys; exact Hnd |].
        intros k Hk. rewrite Hkeys in Hk. apply Hin. exact Hk. }
      rewrite !length_map in Hle. lia.
  - rewrite <- fold_count_filter. split.
    + apply fold_add_le. intros p _.
      destruct (changed_channels_range p) as (Hr & Hm & _).
      destruct (modified p); [apply Hm; reflexivity | lia].
    + rewrite <- fold_add_scale. apply fold_add_le. intros p _.
      destruct (changed_channels_range p) as (Hr & Hm & _).
      destruct (modified p) eqn:E; [lia |].
      destruct (Z_lt_le_dec (changed_channels p) 1) as [Hlt | Hge]; [lia |].
      apply Hm in Hge. discriminate.
Qed.

(** X3. The statistics of any list of encoded pixels. They count one
    pixel per distinct image index, the last one pushed with that index;
    no more modified pixels than counted pixels; between one and four
    modified channels for each modified pixel; and [bytesModified] is
    [channelsModified]. *)
Theorem computeEncodeStats_bounds (image : StegImage) (encodedPixels : list StegPixel) :
  let s := computeEncodeStats image encodedPixels in
  let U := uniquePixels encodedPixels in
  (forall v, In v U <->
             exists pre post, encodedPixels = pre ++ v :: post /\
                              ~ In (index v) (map index post)) /\
  NoDup (map index U) /\
  pixelsTotal s = width image * height image /\
  pixelsEncoded s = Z.of_nat (length U) /\
  pixelsModified s = Z.of_nat (length (filter modified U)) /\
  pixelsModified s <= pixelsEncoded s <= Z.of_nat (length encodedPixels) /\
  pixelsModified s <= channelsModified s <= 4 * pixelsModified s /\
  bytesModified s = channelsModified s.
Proof. exact (stats_bounds image encodedPixels). Qed.

(* ================================================================== *)
(** * The encoded pixels and the cover *)

Lemma getPixelAt_pixel_at (img : StegImage) (idx : Z) (px : StegPixel) :
  getPixelAt img idx = Returned px -> px = new_StegPixel (pixel_at img idx) idx.
Proof.
  unfold getPixelAt. destruct (_ || _); [discriminate |]. intros [= <-]. reflexivity.
Qed.

Lemma map_getPixelAt_fresh (img : StegImage) (idxs : list Z) (pxs : list StegPixel) :
  map_outcome (getPixelAt img) idxs = Returned pxs ->
  Forall (fun px => originalBytes px = pixel_at img (index px) /\ bytes px = originalBytes px) pxs.
Proof.
  revert pxs. induction idxs as [| idx rest IH]; intros pxs; cbn [map_outcome].
  - intros [= <-]. constructor.
  - destruct (getPixelAt img idx) as [px | |] eqn:E; cbn [bind]; try discriminate.
    destruct (map_outcome (getPixelAt img) rest) as [pxs' | |]; cbn [bind]; try discriminate.
    intros [= <-]. constructor; [| apply IH; reflexivity].
    apply getPixelAt_pixel_at in E. subst px. split; reflexivity.
Qed.

Section Encoded.
Context {C : CryptoES} {I : Isaac}.

(** Every pixel the loop pushes stems from a candidate: it has its index
    and its original bytes, and the alpha byte is the original one. *)
Lemma chain_loop_original (K : WordArray) (pixels : list StegPixel) :
  NoDup (map index pixels) -> Forall pixel_ok pixels ->
  let P := fun e : StegPixel =>
             exists original, In original pixels /\ index e = index original /\
                              originalBytes e = originalBytes original /\
                              chA (bytes e) = chA (originalBytes e) in
  forall (bs : list Z) (pos : Z) (used : list Z) (encoded : list StegPixel) r,
    Forall is_byte bs ->
    (forall q px, 0 <= q -> nth_error pixels (Z.to_nat q) = Some px ->
                  existsb (Z.eqb q) used = false -> bytes px = originalBytes px) ->
    Forall P encoded ->
    chain_loop K pixels bs pos used encoded = Returned r ->
    Forall P (snd r).
Proof.
  intros Hnd Hok P. induction bs as [| b bs IH]; intros pos used encoded r Hbs Hfresh Henc;
    cbn [chain_loop].
  - intros [= <-]. exact Henc.
  - inversion Hbs as [| ? ? Hb Hbs']; subst.
    destruct (encode_step K pixels used pos b) as [[[px d] bpos] |] eqn:Es; [| discriminate].
    destruct (encode_step_node K pixels used pos b px d bpos Hnd Hok Hb Es)
      as (Hpos & Hfree & (original & Horig & Hidx & HA & Hcase) & _).
    apply IH; [exact Hbs' | |].
    + intros q qx Hq Hqx Hu. cbn [existsb] in Hu. apply orb_false_iff in Hu.
      apply (Hfresh q qx Hq Hqx). tauto.
    + apply Forall_app. split; [exact Henc |]. constructor; [| constructor].
      pose proof (Hfresh bpos original ltac:(lia) Horig Hfree) as Hf.
      exists original. split; [eapply nth_error_In; exact Horig |]. split; [exact Hidx |].
      destruct Hcase as [-> | Hob].
      * split; [reflexivity | rewrite Hf; reflexivity].
      * split; [congruence |]. rewrite HA, Hob. reflexivity.
Qed.

(** The encoded pixels of a run: on distinct pixels of the image, each with
    the bytes of the cover as original bytes and the alpha byte of the
    cover. *)
Lemma build_chain_encoded (fuel : nat) (enc : StegEncoder)
    (pxs : list StegPixel) (a : jsnum) (pos len : Z) :
  build_chain fuel enc = Returned (pxs, a, pos, len) ->
  NoDup (map index pxs) /\
  Forall (fun e =>
            0 <= index e < width (enc_image enc) * height (enc_image enc) /\
            originalBytes e = pixel_at (enc_image enc) (index e) /\
            chA (bytes e) = chA (originalBytes e)) pxs.
Proof.
  unfold build_chain.
  destruct (encoder_selection fuel enc) as [[a' idxs] | |] eqn:Esel; cbn [bind fst snd];
    try discriminate.
  destruct (map_outcome _ idxs) as [ps | |] eqn:Em; cbn [bind]; try discriminate.
  destruct (map_getPixelAt_returned _ _ _ Em) as (Hidx & _ & Hpok & Hrange).
  pose proof (map_getPixelAt_fresh _ _ _ Em) as Hfresh0.
  set (msg_e := aes_encrypt (enc_key enc) (enc_message enc)).
  set (lastByte := nth_error msg_e (length msg_e - 1)).
  destruct (stable_sort_by (red_distance lastByte) ps) as [| closest others] eqn:Es;
    [discriminate |].
  set (currentPixel := setChannel closest RED match lastByte with Some b => b | None => 0 end).
  set (pixels := map (fun p => if same_object p closest then currentPixel else p) ps).
  destruct (chain_loop _ pixels _ _ _ _) as [r | |] eqn:Ec; cbn [bind]; try discriminate.
  intros [= <- <- <- <-].
  assert (Hclosest : In closest ps).
  { apply (stable_sort_by_In (red_distance lastByte)). rewrite Es. left. reflexivity. }
  assert (Hnd : NoDup idxs).
  { destruct (encoder_selection_returned fuel enc a' idxs Esel) as (_ & _ & Hs).
    eapply select_indices_NoDup; [constructor | exact Hs]. }
  assert (Hpidx : map index pixels = idxs).
  { subst pixels. rewrite map_map, <- Hidx. apply map_ext. intros p.
    destruct (same_object p closest) eqn:E; [| reflexivity].
    unfold same_object in E. apply Z.eqb_eq in E. cbn. symmetry. exact E. }
  assert (Hndp : NoDup (map index pixels)) by (rewrite Hpidx; exact Hnd).
  assert (Hok : Forall pixel_ok pixels).
  { subst pixels. apply Forall_forall. intros p Hp. apply in_map_iff in Hp.
    destruct Hp as (q & <- & Hq). destruct (same_object q closest); [reflexivity |].
    rewrite Forall_forall in Hpok. apply Hpok. exact Hq. }
  assert (Hbs : Forall is_byte (rev (removelast msg_e))).
  { apply Forall_rev. apply Forall_forall. intros x Hx.
    pose proof (wordArrayToUint8Array_bytes
                  (AES_encrypt (enc_key enc) (Utf8_parse (enc_message enc)))) as H.
    rewrite Forall_forall in H. apply H. fold (aes_encrypt (enc_key enc) (enc_message enc)).
    fold msg_e. destruct msg_e as [| x0 l] using rev_ind; [destruct Hx |].
    rewrite removelast_last in Hx. apply in_or_app. left. exact Hx. }
  assert (Hcur : In currentPixel pixels).
  { subst pixels. apply in_map_iff. exists closest. split; [| exact Hclosest].
    unfold same_object. rewrite Z.eqb_refl. reflexivity. }
  set (p0 := findIndex pixels (index currentPixel)) in *.
  assert (Hp0 : nth_error pixels (Z.to_nat p0) = Some currentPixel /\ 0 <= p0).
  { destruct (In_nth_error _ _ Hcur) as (k & Hk).
    assert (Hf : p0 = Z.of_nat k) by (subst p0; apply findIndex_nth; assumption).
    rewrite Hf, Nat2Z.id. split; [exact Hk | lia]. }
  (* the candidates keep the bytes of the cover *)
  assert (Horig : Forall (fun px => originalBytes px = pixel_at (enc_image enc) (index px))
                    pixels).
  { subst pixels. apply Forall_forall. intros p Hp. apply in_map_iff in Hp.
    destruct Hp as (q & <- & Hq). rewrite Forall_forall in Hfresh0.
    destruct (same_object q closest) eqn:E; [| apply Hfresh0; exact Hq].
    cbn. apply Hfresh0. exact Hclosest. }
  assert (Hfresh : forall q px, 0 <= q -> nth_error pixels (Z.to_nat q) = Some px ->
                     existsb (Z.eqb q) [p0] = false -> bytes px = originalBytes px).
  { intros q px Hq Hpx Hu. cbn [existsb] in Hu. rewrite orb_false_r in Hu.
    apply Z.eqb_neq in Hu. subst pixels. rewrite nth_error_map in Hpx.
    destruct (nth_error ps (Z.to_nat q)) as [c |] eqn:Ec'; [| discriminate].
    cbn in Hpx. injection Hpx as <-.
    destruct (same_object c closest) eqn:E.
    - exfalso. apply Hu. unfold same_object in E. apply Z.eqb_eq in E.
      assert (Hq' : findIndex (map (fun p => if same_object p closest then currentPixel else p) ps)
                      (index currentPixel) = Z.of_nat (Z.to_nat q)).
      { replace (index currentPixel) with
          (index (if same_object c closest then currentPixel else c)).
        - apply findIndex_nth; [exact Hndp |]. rewrite nth_error_map, Ec'. reflexivity.
        - unfold same_object. rewrite E, Z.eqb_refl. reflexivity. }
      fold p0 in Hq'. lia.
    - rewrite Forall_forall in Hfresh0. apply Hfresh0. eapply nth_error_In. exact Ec'. }
  destruct r as [pos' encoded'].
  (* distinct positions *)
  destruct (chain_loop_nodes (enc_key enc) pixels Hndp Hok (rev (removelast msg_e)) p0
              currentPixel [] [chR (bytes currentPixel)] pos' encoded' Hbs)
    as (e' & rest' & Henc & Hon & _).
  { split; [cbn; constructor; [intros [] | constructor] |].
    constructor; [| constructor]. cbn [fst snd]. split; [tauto |].
    exists currentPixel. split; [tauto | reflexivity]. }
  { cbn [chain_links]. auto. }
  { exact Ec. }
  cbn [snd]. split.
  - rewrite Henc, map_rev. apply NoDup_rev.
    apply (nodes_indices_NoDup pixels _ Hndp Hon).
  - pose proof (chain_loop_original (enc_key enc) pixels Hndp Hok (rev (removelast msg_e))
                  p0 [p0] [currentPixel] (pos', encoded') Hbs Hfresh) as Hall.
    cbn [snd] in Hall.
    eapply Forall_impl; [| apply Hall; [| exact Ec]].
    + intros e (original & Hin & Hi & Ho & HA). rewrite Forall_forall in Horig.
      split; [| split; [rewrite Ho, Hi; apply Horig; exact Hin | exact HA]].
      assert (Hio : In (index original) idxs)
        by (rewrite <- Hpidx; apply in_map; exact Hin).
      rewrite Forall_forall in Hrange. rewrite Hi. apply Hrange. exact Hio.
    + constructor; [| constructor]. exists currentPixel. split; [exact Hcur |].
      split; [reflexivity |]. split; [reflexivity |].
      rewrite Forall_forall in Hfresh0. destruct (Hfresh0 closest Hclosest) as [_ Hb].
      cbn. rewrite Hb. reflexivity.
Qed.

End Encoded.

(* ================================================================== *)
(** * The statistics of a run *)

Lemma NoDup_zrange (count : nat) (start : Z) : NoDup (zrange start count).
Proof.
  revert start. induction count as [| c IH]; intros start; cbn [zrange]; constructor.
  - intros Hin. apply In_zrange_inv in Hin. lia.
  - apply IH.
Qed.

Lemma NoDup_map_filter {A : Type} (f : A -> Z) (g : A -> bool) (l : list A) :
  NoDup (map f l) -> NoDup (map f (filter g l)).
Proof.
  induction l as [| x l IH]; cbn [map filter]; intros Hnd; [constructor |].
  inversion Hnd as [| ? ? Hx Hnd']; subst.
  destruct (g x); cbn [map]; [constructor |]; auto.
  intros Hin. apply Hx. apply in_map_iff in Hin. destruct Hin as (y & Hy & Hin).
  apply filter_In in Hin. apply in_map_iff. exists y. tauto.
Qed.

Lemma pixel_at_frame (pixels : list StegPixel) (img : StegImage) (idx : Z) :
  0 <= idx -> ~ In idx (map index pixels) ->
  pixel_at (snd (write_pixels img pixels)) idx = pixel_at img idx.
Proof.
  intros Hidx Hnot. unfold pixel_at.
  assert (Hdiv : forall k, (k < 4)%nat -> Z.of_nat ((Z.to_nat (idx * 4) + k) / 4) = idx).
  { intros k Hk. replace (Z.to_nat (idx * 4)) with (Z.to_nat idx * 4)%nat by lia.
    rewrite Nat.div_add_l by lia. rewrite (Nat.div_small k 4) by lia. lia. }
  rewrite !write_pixels_frame; [reflexivity | | | |]; rewrite Hdiv by lia; exact Hnot.
Qed.

Lemma pixel_at_written (pixels : list StegPixel) (img img' : StegImage) (e : StegPixel) :
  image_ok img -> NoDup (map index pixels) ->
  write_pixels img pixels = (Returned tt, img') -> In e pixels ->
  pixel_at img' (index e) = bytes e.
Proof.
  intros Hok Hnd Hw Hin.
  pose proof (write_pixels_same pixels img img' Hok Hnd Hw e Hin) as Hget.
  apply getPixelAt_pixel_at in Hget. injection Hget as Hb. symmetry. exact Hb.
Qed.

Section RunStats.
Context {C : CryptoES} {I : Isaac}.

Lemma encode_with_stats_of_encode (fuel : nat) (enc : StegEncoder) (k : jsstring)
    (img' : StegImage) :
  encode fuel enc = (Returned k, img') ->
  exists s, encode_with_stats fuel enc = (Returned (k, s), img').
Proof.
  unfold encode, encode_with_stats.
  destruct (build_chain fuel enc) as [[[[pxs a] pos] len] | e |]; try discriminate.
  destruct (write_pixels (enc_image enc) pxs) as [[u | e |] img1]; try discriminate.
  intros [= <- <-]. eexists. reflexivity.
Qed.

(** X4. The statistics encode returns are those of the run. On an image
    whose buffer holds four channels per pixel: [pixelsEncoded] is the
    number of chain nodes, [max(1, L)]; [pixelsModified] is the number of
    pixels on which the stego image differs from the cover; and no pixel
    has more than three modified channels, the alpha byte never being one. *)
Theorem encode_stats_truthful (fuel : nat) (enc : StegEncoder) (k : jsstring)
    (s : EncodeStats) (img' : StegImage) :
  let img := enc_image enc in
  let L := Z.of_nat (length (aes_encrypt (enc_key enc) (enc_message enc))) in
  image_ok img ->
  encode_with_stats fuel enc = (Returned (k, s), img') ->
  encode fuel enc = (Returned k, img') /\
  pixelsTotal s = width img * height img /\
  pixelsEncoded s = Z.max 1 L /\
  pixelsModified s = Z.of_nat (length (changed_pixels img img')) /\
  pixelsModified s <= channelsModified s <= 3 * pixelsModified s.
Proof.
  intros img L Hok. subst img L. unfold encode_with_stats, encode.
  destruct (build_chain fuel enc) as [[[[pxs a] pos] len] | e |] eqn:Eb; try discriminate.
  pose proof (write_pixels_dims pxs (enc_image enc)) as [Hw Hh].
  destruct (write_pixels (enc_image enc) pxs) as [[[] | e |] img1] eqn:Ew; try discriminate.
  cbn [snd] in Hw, Hh. intros [= <- <- <-].
  destruct (build_chain_encoded fuel enc pxs a pos len Eb) as [Hnd Hall].
  pose proof (build_chain_length fuel enc pxs a pos len Eb) as Hlen.
  destruct (stats_bounds img1 pxs) as (_ & _ & Ht & He & Hm & _ & [Hc1 _] & _).
  assert (HU : uniquePixels pxs = pxs) by (unfold uniquePixels; apply index_map_NoDup; exact Hnd).
  rewrite HU in He, Hm.
  split; [reflexivity |]. split; [rewrite Ht, Hw, Hh; reflexivity |].
  split; [rewrite He; exact Hlen |]. split; [| split; [exact Hc1 |]].
  - rewrite Hm. f_equal. rewrite <- (length_map index (filter modified pxs)).
    apply Permutation_length. apply NoDup_Permutation.
    + apply NoDup_map_filter. exact Hnd.
    + unfold changed_pixels. apply NoDup_filter, NoDup_zrange.
    + intros idx. unfold changed_pixels. rewrite filter_In, in_map_iff. split.
      * intros (e & <- & He'). apply filter_In in He'. destruct He' as [Hin Hmod].
        rewrite Forall_forall in Hall. destruct (Hall e Hin) as (Hr & Ho & _).
        split; [apply In_zrange; lia |].
        rewrite (pixel_at_written pxs _ img1 e Hok Hnd Ew Hin).
        rewrite <- Ho. exact Hmod.
      * intros [Hr Hdiff]. apply In_zrange_inv in Hr.
        destruct (in_dec Z.eq_dec idx (map index pxs)) as [Hin | Hnot].
        -- apply in_map_iff in Hin. destruct Hin as (e & <- & Hin).
           exists e. split; [reflexivity |]. apply filter_In. split; [exact Hin |].
           rewrite Forall_forall in Hall. destruct (Hall e Hin) as (_ & Ho & _).
           rewrite (pixel_at_written pxs _ img1 e Hok Hnd Ew Hin) in Hdiff.
           rewrite <- Ho in Hdiff. exact Hdiff.
        -- exfalso.
           replace img1 with (snd (write_pixels (enc_image enc) pxs)) in Hdiff
             by (rewrite Ew; reflexivity).
           rewrite pixel_at_frame in Hdiff by (lia || exact Hnot).
           revert Hdiff. generalize (pixel_at (enc_image enc) idx). intros [r g b al].
           cbn. rewrite !Z.eqb_refl. discriminate.
  - unfold computeEncodeStats. rewrite HU.
    cbn [channelsModified pixelsModified].
    rewrite <- fold_add_scale. apply fold_add_le. intros p Hp.
    rewrite Forall_forall in Hall. destruct (Hall p Hp) as (_ & _ & HA).
    destruct (changed_channels_range p) as (Hr & Hmd & H3). specialize (H3 HA).
    destruct (modified p) eqn:E; [lia |].
    destruct (Z_lt_le_dec (changed_channels p) 1) as [Hlt | Hge]; [lia |].
    apply Hmd in Hge. discriminate.
Qed.

End RunStats.

(* ================================================================== *)
(** * Renegotiation, once more *)

Lemma renegotiate_cases (t L : Z) :
  1 <= t -> 1 <= L <= 65536 ->
  exists t',
    renegotiate (JInt t) L = (JInt t', JInt (65536 / t')) /\
    1 <= t' <= t /\ L <= 65536 / t' /\
    (L <= 65536 / t -> t' = t) /\
    (65536 / t < L -> t' < t /\ forall u, 1 <= u -> L <= 65536 / u -> u <= t') /\
    renegotiate (JInt t') L = (JInt t', JInt (65536 / t')).
Proof.
  intros Ht HL.
  assert (Hkeep : forall u, 1 <= u -> L <= 65536 / u ->
                            renegotiate (JInt u) L = (JInt u, JInt (65536 / u))).
  { intros u Hu Hfit. unfold renegotiate. rewrite Q_value, floor_div_pos by lia.
    cbn [js_lt]. replace (65536 / u <? L) with false by (symmetry; apply Z.ltb_ge; lia).
    reflexivity. }
  destruct (Z_lt_le_dec (65536 / t) L) as [Hlt | Hge].
  - destruct (renegotiate_lowers t L Ht Hlt ltac:(lia)) as (Hren & Ht1 & HLt & _).
    set (t' := Z.max 1 (65536 / L)) in *.
    assert (HQL : 1 <= 65536 / L) by (apply Z.div_le_lower_bound; lia).
    assert (Ht' : t' = 65536 / L) by (subst t'; lia).
    assert (Hlt' : t' < t).
    { rewrite Ht'. apply Z.div_lt_upper_bound; [lia |].
      assert (65536 < t * (65536 / t + 1)).
      { pose proof (Z.mul_succ_div_gt 65536 t ltac:(lia)). lia. }
      nia. }
    exists t'. split; [exact Hren |]. split; [lia |]. split; [exact HLt |].
    split; [lia |]. split; [| apply Hkeep; [lia | exact HLt]].
    intros _. split; [exact Hlt' |]. intros u Hu Hfit. rewrite Ht'.
    apply Z.div_le_lower_bound; [lia |].
    pose proof (Z.mul_div_le 65536 u ltac:(lia)). nia.
  - exists t. split; [apply Hkeep; lia |]. split; [lia |]. split; [exact Hge |].
    split; [reflexivity |]. split; [lia | apply Hkeep; lia].
Qed.

(** X5. For a ciphertext of [1 <= L <= Q] bytes and a caller's alias
    count [t >= 1], the alias count encode goes on with is an integer
    [t'] with [1 <= t' <= t] that provides at least [L] positions. It is
    [t] itself when [t] already provides them; otherwise it is smaller
    than [t] and the greatest alias count that provides [L] positions.
    Renegotiating from [t'] changes nothing. *)
Theorem renegotiate_greatest (t L : Z) :
  1 <= t -> 1 <= L <= 65536 ->
  exists t',
    renegotiate (JInt t) L = (JInt t', JInt (65536 / t')) /\
    1 <= t' <= t /\ L <= 65536 / t' /\
    (L <= 65536 / t -> t' = t) /\
    (65536 / t < L -> t' < t /\ forall u, 1 <= u -> L <= 65536 / u -> u <= t') /\
    renegotiate (JInt t') L = (JInt t', JInt (65536 / t')).
Proof. exact (renegotiate_cases t L). Qed.

Lemma renegotiate_greatest_witness :
  renegotiate (JInt 32) 5000 = (JInt 13, JInt 5041) /\
  renegotiate (JInt 13) 5000 = (JInt 13, JInt 5041).
Proof.
  destruct (renegotiate_greatest 32 5000 ltac:(lia) ltac:(lia))
    as (t' & Hren & _ & _ & _ & _ & Hagain).
  assert (Ht' : t' = 13).
  { change (renegotiate (JInt 32) 5000) with (JInt 13, JInt 5041) in Hren.
    injection Hren as Ht' _. symmetry. exact Ht'. }
  subst t'. split; [exact Hren | exact Hagain].
Defined.

(* ================================================================== *)
(** * Keys the decoder accepts but cannot use *)

Lemma new_StegDecoder_count (img : StegImage) (packed : jsstring) (dec : StegDecoder) :
  new_StegDecoder img packed = Returned dec ->
  dec_image dec = img /\
  dec_encodingPixelsCount dec = floor_div DEFAULT_TOTAL_POINTERS (dec_aliasCount dec) /\
  dec_aliasCount dec = parseInt16 (slice 64 68 (trim packed)) /\
  dec_msgLength dec = parseInt16 (slice 68 72 (trim packed)) /\
  dec_firstPixelIndex dec = parseInt16 (slice_from 72 (trim packed)).
Proof.
  unfold new_StegDecoder, unpackageKey. destruct (_ <? _)%nat; cbn [bind]; [discriminate |].
  intros [= <-]. cbn. repeat split; reflexivity.
Qed.

Section KeyEdges.
Context {C : CryptoES} {I : Isaac}.

Lemma select_indices_unbounded (fuel : nat) (pixelCount : Z) :
  forall (g : rng_state) (seen : list Z),
    select_indices fuel JPosInf pixelCount g seen = OutOfFuel.
Proof.
  induction fuel as [| f IH]; intros g seen; cbn [select_indices js_lt]; [reflexivity |].
  destruct (isaac_random g) as [r g']. apply IH.
Qed.

Lemma walk_chain_undefined (K : WordArray) (pixels : list StegPixel) (n : nat) :
  (1 <= n)%nat -> walk_chain K pixels n None = Thrown UndefinedAccess.
Proof. destruct n; [lia | reflexivity]. Qed.

(** X6. The alias field of a key the constructor accepted. If it reads
    as 0 the candidate count is infinite and decode never ends, whatever
    the image. If it does not read as a number, or reads as a negative
    number or one above Q, the candidate set is empty, and extracting a
    message of at least one byte reads a property of [undefined]. *)
Theorem decode_alias_field (img : StegImage) (packed : jsstring) (dec : StegDecoder) :
  new_StegDecoder img packed = Returned dec ->
  (dec_aliasCount dec = JInt 0 -> forall fuel, decode fuel dec = OutOfFuel) /\
  (dec_aliasCount dec = JNaN \/
   (exists t, dec_aliasCount dec = JInt t /\ (t < 0 \/ 65536 < t)) ->
   forall fuel,
     decoder_selection fuel dec = Returned [] /\
     forall L, dec_msgLength dec = JInt L -> 1 <= L ->
               decode fuel dec = Thrown UndefinedAccess).
Proof.
  intros Hdec. destruct (new_StegDecoder_count _ _ _ Hdec) as (_ & Hcount & _).
  split.
  - intros H0 fuel. unfold decode, extract, decoder_selection.
    rewrite Hcount, H0. cbn [floor_div]. rewrite select_indices_unbounded. reflexivity.
  - intros Hbad fuel.
    assert (Hsel : decoder_selection fuel dec = Returned []).
    { unfold decoder_selection. rewrite Hcount.
      destruct Hbad as [-> | (t & -> & Ht)].
      - destruct fuel; reflexivity.
      - rewrite Q_value, floor_div_pos by lia.
        assert (Hq : 65536 / t <= 0).
        { destruct Ht as [Hneg | Hbig].
          - pose proof (Z.div_mod 65536 t ltac:(lia)) as Hdm.
            pose proof (Z.mod_neg_bound 65536 t Hneg) as Hr. nia.
          - rewrite Z.div_small by lia. lia. }
        destruct fuel; cbn [select_indices js_lt length Z.of_nat];
          replace (0 <? 65536 / t) with false by (symmetry; apply Z.ltb_ge; exact Hq);
          reflexivity. }
    split; [exact Hsel |]. intros L HL HL1.
    unfold decode, extract. rewrite Hsel. cbn [bind map_outcome].
    rewrite HL. unfold typed_array_length.
    replace (L <? 0) with false by (symmetry; apply Z.ltb_ge; lia). cbn [bind].
    replace (array_at [] (dec_firstPixelIndex dec)) with (@None StegPixel).
    + rewrite walk_chain_undefined by lia. reflexivity.
    + unfold array_at. destruct (dec_firstPixelIndex dec) as [z | | | |]; try reflexivity.
      * destruct (z <? 0); [reflexivity | destruct (Z.to_nat z); reflexivity].
Qed.

(** X7. The first-position field of a key the constructor accepted. A
    key of exactly 72 characters has none, and it reads as [NaN]. When
    the first position is [NaN], negative, or not below the size of the
    candidate set, extracting a message of at least one byte reads a
    property of [undefined]: decode throws a [TypeError], whatever the
    image holds. *)
Theorem decode_first_position (img : StegImage) (packed : jsstring) (dec : StegDecoder) :
  new_StegDecoder img packed = Returned dec ->
  (length (trim packed) = 72%nat -> dec_firstPixelIndex dec = JNaN) /\
  forall (fuel : nat) (idxs : list Z) (pxs : list StegPixel) (L : Z),
    decoder_selection fuel dec = Returned idxs ->
    map_outcome (getPixelAt img) idxs = Returned pxs ->
    dec_msgLength dec = JInt L -> 1 <= L ->
    (dec_firstPixelIndex dec = JNaN \/
     exists pos0, dec_firstPixelIndex dec = JInt pos0 /\
                  (pos0 < 0 \/ Z.of_nat (length pxs) <= pos0)) ->
    decode fuel dec = Thrown UndefinedAccess.
Proof.
  intros Hdec. destruct (new_StegDecoder_count _ _ _ Hdec) as (Himg & _ & _ & _ & Hfirst).
  split.
  - intros Hlen. rewrite Hfirst. unfold slice_from. rewrite skipn_all2 by lia. reflexivity.
  - intros fuel idxs pxs L Hsel Hpxs HL HL1 Hpos.
    unfold decode, extract. rewrite Hsel, Himg. cbn [bind]. rewrite Hpxs. cbn [bind].
    rewrite HL. unfold typed_array_length.
    replace (L <? 0) with false by (symmetry; apply Z.ltb_ge; lia). cbn [bind].
    replace (array_at pxs (dec_firstPixelIndex dec)) with (@None StegPixel).
    + rewrite walk_chain_undefined by lia. reflexivity.
    + destruct Hpos as [-> | (pos0 & -> & Hp)]; [reflexivity |]. unfold array_at.
      destruct (Z.ltb_spec pos0 0); [reflexivity |]. symmetry. apply nth_error_None. lia.
Qed.

End KeyEdges.

Lemma decode_alias_field_witness :
  @decode Toy.toy_crypto Toy.toy_isaac (Z.to_nat 1000)
    (mkStegDecoder Toy.cover16 demo_key (JInt 5) (JInt 0) (JInt 2) JPosInf) = OutOfFuel.
Proof.
  assert (Hdec : new_StegDecoder Toy.cover16
                   (packageKey (mkStegKey demo_key (JInt 5) (JInt 0) (JInt 2)))
                 = Returned (mkStegDecoder Toy.cover16 demo_key (JInt 5) (JInt 0) (JInt 2)
                               JPosInf)) by (vm_compute; reflexivity).
  exact (proj1 (@decode_alias_field Toy.toy_crypto Toy.toy_isaac _ _ _ Hdec) eq_refl (Z.to_nat 1000)).
Defined.

Lemma decode_first_position_witness :
  @decode Toy.toy_crypto Toy.toy_isaac (Z.to_nat 3000) Toy.dec_out_of_range
    = Thrown UndefinedAccess.
Proof.
  assert (Hdec : new_StegDecoder Toy.cover16
                   (packageKey (mkStegKey demo_key (JInt 256) (JInt 256) (JInt 2)))
                 = Returned Toy.dec_out_of_range) by (vm_compute; reflexivity).
  assert (Hsel : exists idxs pxs,
             @decoder_selection Toy.toy_isaac (Z.to_nat 3000) Toy.dec_out_of_range
               = Returned idxs /\
             map_outcome (getPixelAt Toy.cover16) idxs = Returned pxs /\
             Z.of_nat (length pxs) = 256).
  { vm_compute. do 2 eexists. split; [reflexivity | split; reflexivity]. }
  destruct Hsel as (idxs & pxs & Hsel & Hpxs & Hlen).
  refine (proj2 (@decode_first_position Toy.toy_crypto Toy.toy_isaac _ _ _ Hdec)
            (Z.to_nat 3000) idxs pxs 2 Hsel Hpxs eq_refl ltac:(lia) _).
  right. exists 256. split; [reflexivity | right; lia].
Defined.

(* ================================================================== *)
(** * The outcomes of encode *)

Section Outcomes.
Context {C : CryptoES} {I : Isaac} {HI : IsaacUnit I}.

(** X8. The candidate sets agree when the image is large enough. After a
    run of encode on an image with at least [floor(Q / t')] pixels, the
    decoder built from the stego image and the returned key selects, with
    the same fuel, the very indices the encoder selected, in the same
    order: [floor(Q / t')] distinct pixels of the image. *)
Theorem candidate_sets_agree (fuel : nat) (enc : StegEncoder) (t' : Z) (packed : jsstring)
    (img' : StegImage) :
  let K := enc_key enc in
  let L := Z.of_nat (length (aes_encrypt K (enc_message enc))) in
  let pixelCount := width (enc_image enc) * height (enc_image enc) in
  is_key256 K ->
  fst (renegotiate (enc_aliasCount enc) L) = JInt t' -> 1 <= t' < 65536 -> L < 65536 ->
  65536 / t' <= pixelCount ->
  encode fuel enc = (Returned packed, img') ->
  exists dec idxs,
    new_StegDecoder img' packed = Returned dec /\
    encoder_selection fuel enc = Returned (JInt t', idxs) /\
    decoder_selection fuel dec = Returned idxs /\
    NoDup idxs /\ Forall (in_image pixelCount) idxs /\
    Z.of_nat (length idxs) = 65536 / t'.
Proof.
  intros K L pixelCount HK Heff Ht HL Hfit Henc.
  unfold encode in Henc.
  destruct (build_chain fuel enc) as [[[[pxs a] pos] len] | e |] eqn:Eb; try discriminate.
  destruct (build_chain_returned fuel enc pxs a pos len Eb) as ((idxs & Hsel) & Hlen & Hpos).
  destruct (encoder_selection_returned fuel enc a idxs Hsel) as (Ha & _ & Hs).
  fold K L pixelCount in Ha, Hs. rewrite Heff in Ha. subst a len.
  pose proof (write_pixels_dims pxs (enc_image enc)) as [Hw Hh].
  destruct (write_pixels (enc_image enc) pxs) as [[[] | e |] img1] eqn:Ew; try discriminate.
  injection Henc as <- <-. cbn [snd] in Hw, Hh.
  destruct (decoder_of_encode fuel enc t' pos idxs img1 HK Ht HL Hpos Hfit Hw Hh Hsel)
    as (dec & Hd & _ & _ & _ & _ & Hdsel).
  exists dec, idxs. split; [exact Hd |]. split; [exact Hsel |]. split; [exact Hdsel |].
  rewrite renegotiate_snd, Heff, Q_value, floor_div_pos in Hs by lia.
  cbn [js_min] in Hs. rewrite Z.min_l in Hs by exact Hfit.
  assert (H1 : 1 <= 65536 / t') by (apply Z.div_le_lower_bound; lia).
  apply (select_indices_returned (65536 / t') pixelCount ltac:(lia) fuel _ [] idxs
           (NoDup_nil _) (Forall_nil _) ltac:(cbn; lia) Hs).
Qed.

(** X9. The outcomes of encode on a message that fits. For a caller's
    alias count [t >= 1] and a ciphertext of [1 <= L <= Q] bytes that is
    no longer than the pixel count, encode throws neither a [RangeError]
    nor a [TypeError]: it returns, or it is still drawing indices when
    the fuel ends, or it throws the invariant error; in the last two
    cases the image is as it was. The invariant error means that some
    position of the candidate set is the target of no pointer. *)
Theorem encode_outcomes (fuel : nat) (enc : StegEncoder) (t t' : Z) :
  let K := enc_key enc in
  let L := Z.of_nat (length (aes_encrypt K (enc_message enc))) in
  let pixelCount := width (enc_image enc) * height (enc_image enc) in
  enc_aliasCount enc = JInt t -> 1 <= t ->
  1 <= L <= 65536 -> L <= pixelCount ->
  fst (renegotiate (JInt t) L) = JInt t' ->
  (exists k img', encode fuel enc = (Returned k, img')) \/
  encode fuel enc = (OutOfFuel, enc_image enc) \/
  (encode fuel enc = (Thrown InvariantViolated, enc_image enc) /\
   ~ pointers_cover K (Z.min (65536 / t') pixelCount)).
Proof.
  intros K L pixelCount Halias Ht HL Hfit Heff.
  destruct (renegotiate_cases t L Ht HL) as (t2 & Hren & Ht2 & HLt & _).
  rewrite Hren in Heff. cbn [fst] in Heff. injection Heff as ->.
  assert (Hsel : encoder_selection fuel enc =
                 (uniqueIndices <- select_indices fuel (JInt (Z.min (65536 / t') pixelCount))
                                     pixelCount (isaac_seed (Hex_stringify K)) [] ;;
                  Returned (JInt t', uniqueIndices))).
  { unfold encoder_selection. fold K L pixelCount. rewrite Halias, Hren.
    replace (L >? pixelCount) with false
      by (symmetry; rewrite Z.gtb_ltb; apply Z.ltb_ge; lia).
    reflexivity. }
  destruct (select_indices fuel (JInt (Z.min (65536 / t') pixelCount)) pixelCount
              (isaac_seed (Hex_stringify K)) []) as [idxs | e |] eqn:Es; cbn [bind] in Hsel.
  2:{ exfalso. eapply select_indices_never_throws. exact Es. }
  2:{ right. left. unfold encode, build_chain. rewrite Hsel. reflexivity. }
  destruct (select_indices_returned (Z.min (65536 / t') pixelCount) pixelCount ltac:(lia)
              fuel _ [] idxs (NoDup_nil _) (Forall_nil _) ltac:(cbn; lia) Es)
    as (Hnd & Hrange & Hlen).
  assert (Hcov : pointers_cover K (Z.min (65536 / t') pixelCount) ->
                 exists k img', encode fuel enc = (Returned k, img')).
  { intros Hcover.
    destruct (encode_total fuel enc (JInt t') idxs Hsel Hnd Hrange ltac:(lia)
                ltac:(fold K; lia) ltac:(fold K; rewrite Hlen; exact Hcover))
      as (pos & img' & _ & Henc & _).
    eexists _, img'. exact Henc. }
  unfold encode in *.
  destruct (build_chain fuel enc) as [[[[pxs a] pos] len] | e' |] eqn:Eb.
  - left. destruct (build_chain_encoded fuel enc pxs a pos len Eb) as [_ Hall].
    destruct (write_pixels_total pxs (enc_image enc)) as (img' & Hw & _).
    { eapply Forall_impl; [| exact Hall]. intros px (Hr & _). exact Hr. }
    rewrite Hw. eexists _, img'. reflexivity.
  - right. right.
    assert (He : e' = InvariantViolated).
    { unfold build_chain in Eb. rewrite Hsel in Eb. cbn [bind fst snd] in Eb.
      destruct (map_getPixelAt_total (enc_image enc) idxs Hrange) as (ps & Hps).
      rewrite Hps in Eb. cbn [bind] in Eb.
      destruct (map_outcome_nth _ _ _ Hps) as [Hlps _].
      destruct (stable_sort_by _ ps) as [| closest others] eqn:Esort.
      { exfalso.
        pose proof (Permutation_length (stable_sort_by_perm
                      (red_distance (nth_error (aes_encrypt K (enc_message enc))
                         (length (aes_encrypt K (enc_message enc)) - 1))) ps)) as Hp.
        fold K in Esort. rewrite Esort in Hp. cbn in Hp. lia. }
      destruct (chain_loop _ _ _ _ _ _) as [r | e2 |] eqn:Ec; cbn [bind] in Eb;
        try discriminate.
      injection Eb as <-. eapply chain_loop_throws. exact Ec. }
    subst e'. split; [reflexivity |].
    intros Hcover. destruct (Hcov Hcover) as (k & img' & Hk). discriminate.
  - right. left. reflexivity.
Qed.

End Outcomes.

(* ================================================================== *)
(** * The run of [Demo.enc_fit], continued *)

Lemma fit_length :
  Z.of_nat (length (@aes_encrypt Toy.toy_crypto (enc_key Demo.enc_fit)
                      (enc_message Demo.enc_fit))) = 2.
Proof. rewrite toy_aes_length. reflexivity. Qed.

Lemma encode_stats_truthful_witness :
  exists k s img',
    @encode_with_stats Toy.toy_crypto Toy.toy_isaac (Z.to_nat 3000) Demo.enc_fit
      = (Returned (k, s), img') /\
    pixelsEncoded s = 2 /\
    pixelsModified s = Z.of_nat (length (changed_pixels Toy.cover16 img')).
Proof.
  destruct fit_encode_returns as (pos & img' & _ & Henc).
  destruct (encode_with_stats_of_encode _ _ _ _ Henc) as (s & Hs).
  exists (packageKey (mkStegKey demo_key (JInt pos) (JInt 256) (JInt 2))), s, img'.
  split; [exact Hs |].
  destruct (@encode_stats_truthful Toy.toy_crypto Toy.toy_isaac (Z.to_nat 3000) Demo.enc_fit
              _ s img' cover16_ok Hs) as (_ & _ & He & Hm & _).
  rewrite fit_length in He. split; [exact He | exact Hm].
Defined.

Lemma candidate_sets_agree_witness :
  exists packed img' dec idxs,
    @encode Toy.toy_crypto Toy.toy_isaac (Z.to_nat 3000) Demo.enc_fit = (Returned packed, img') /\
    new_StegDecoder img' packed = Returned dec /\
    @decoder_selection Toy.toy_isaac (Z.to_nat 3000) dec = Returned idxs /\
    Z.of_nat (length idxs) = 256.
Proof.
  destruct fit_encode_returns as (pos & img' & _ & Henc).
  destruct (@candidate_sets_agree Toy.toy_crypto Toy.toy_isaac toy_isaac_unit
              (Z.to_nat 3000) Demo.enc_fit 256 _ img' demo_key_256
              ltac:(rewrite fit_length; reflexivity) ltac:(lia)
              ltac:(rewrite fit_length; lia) ltac:(cbn; lia) Henc)
    as (dec & idxs & Hd & _ & Hs & _ & _ & Hlen).
  exists (packageKey (mkStegKey demo_key (JInt pos) (JInt 256) (JInt 2))), img', dec, idxs.
  auto.
Defined.

Lemma encode_outcomes_witness :
  (exists k img',
      @encode Toy.toy_crypto Toy.toy_isaac (Z.to_nat 3000) Demo.enc_fit = (Returned k, img')) \/
  @encode Toy.toy_crypto Toy.toy_isaac (Z.to_nat 3000) Demo.enc_fit = (OutOfFuel, Toy.cover16) \/
  (@encode Toy.toy_crypto Toy.toy_isaac (Z.to_nat 3000) Demo.enc_fit
     = (Thrown InvariantViolated, Toy.cover16) /\
   ~ @pointers_cover Toy.toy_crypto demo_key (Z.min (65536 / 256) 256)).
Proof.
  exact (@encode_outcomes Toy.toy_crypto Toy.toy_isaac toy_isaac_unit (Z.to_nat 3000)
           Demo.enc_fit 256 256 eq_refl ltac:(lia)
           ltac:(rewrite fit_length; lia) ltac:(rewrite fit_length; cbn; lia)
           ltac:(rewrite fit_length; reflexivity)).
Defined.

(* ================================================================== *)
(** * The decoder never reads the alpha channel *)

Lemma map_getPixelAt_rgb (img img' : StegImage) (idxs : list Z) :
  width img' = width img -> height img' = height img ->
  (forall idx, 0 <= idx < width img * height img ->
     chR (pixel_at img' idx) = chR (pixel_at img idx) /\
     chG (pixel_at img' idx) = chG (pixel_at img idx) /\
     chB (pixel_at img' idx) = chB (pixel_at img idx)) ->
  match map_outcome (getPixelAt img) idxs, map_outcome (getPixelAt img') idxs with
  | Returned pxs, Returned pxs' =>
      Forall2 (fun p p' => chR (bytes p') = chR (bytes p) /\ pointer p' = pointer p) pxs pxs'
  | Thrown e, Thrown e' => e = e'
  | OutOfFuel, OutOfFuel => True
  | _, _ => False
  end.
Proof.
  intros Hw Hh Hrgb. induction idxs as [| idx rest IH]; cbn [map_outcome]; [constructor |].
  set (m := map_outcome (getPixelAt img) rest) in *.
  set (m' := map_outcome (getPixelAt img') rest) in *.
  unfold getPixelAt. rewrite Hw, Hh.
  destruct (Z.ltb_spec idx 0); cbn [orb bind]; [reflexivity |].
  destruct (Z.geb_spec idx (width img * height img)); cbn [bind]; [reflexivity |].
  destruct m as [pxs | e |], m' as [pxs' | e' |]; cbn [bind];
    try exact IH; try contradiction.
  constructor; [| exact IH].
  destruct (Hrgb idx ltac:(lia)) as (HR & HG & HB). unfold pixel_at in HR, HG, HB.
  cbn [chR chG chB] in HR, HG, HB.
  cbn [new_StegPixel bytes pointer StegPointer_of_pixel chR chG chB].
  rewrite HR, HG, HB. split; reflexivity.
Qed.

Section AlphaBlind.
Context {C : CryptoES} {I : Isaac}.

Lemma walk_chain_rgb (K : WordArray) (pxs pxs' : list StegPixel) :
  Forall2 (fun p p' => chR (bytes p') = chR (bytes p) /\ pointer p' = pointer p) pxs pxs' ->
  forall (n : nat) (pos : jsnum),
    walk_chain K pxs' n (array_at pxs' pos) = walk_chain K pxs n (array_at pxs pos).
Proof.
  intros Hall.
  assert (Hlen : length pxs' = length pxs) by (symmetry; eapply Forall2_length; exact Hall).
  assert (Hat : forall pos,
             match array_at pxs pos, array_at pxs' pos with
             | Some p, Some p' => chR (bytes p') = chR (bytes p) /\ pointer p' = pointer p
             | None, None => True
             | _, _ => False
             end).
  { assert (Hnth : forall k,
               match nth_error pxs k, nth_error pxs' k with
               | Some p, Some p' => chR (bytes p') = chR (bytes p) /\ pointer p' = pointer p
               | None, None => True
               | _, _ => False
               end).
    { clear Hlen. induction Hall as [| p p' l l' Hp _ IH]; intros [| k]; cbn [nth_error];
        [exact Logic.I | exact Logic.I | exact Hp | apply IH]. }
    intros pos. unfold array_at.
    destruct pos as [z | | | |]; [| apply Hnth | exact Logic.I ..].
    destruct (z <? 0); [exact Logic.I | apply Hnth]. }
  induction n as [| n IH]; intros pos; cbn [walk_chain]; [reflexivity |].
  specialize (Hat pos).
  destruct (array_at pxs pos) as [p |], (array_at pxs' pos) as [p' |]; try contradiction;
    [| reflexivity].
  destruct Hat as [HR Hptr]. rewrite Hptr, Hlen, IH, HR. reflexivity.
Qed.

(** X10. The decoder never reads the alpha channel: on two images of the
    same size whose pixels agree on R, G and B, a decoder extracts the
    same bytes and decode gives the same result, be it a value or an
    error. *)
Theorem decode_ignores_alpha (fuel : nat) (dec : StegDecoder) (img' : StegImage) :
  let img := dec_image dec in
  let dec' := mkStegDecoder img' (dec_key dec) (dec_firstPixelIndex dec) (dec_aliasCount dec)
                (dec_msgLength dec) (dec_encodingPixelsCount dec) in
  width img' = width img -> height img' = height img ->
  (forall idx, 0 <= idx < width img * height img ->
     chR (pixel_at img' idx) = chR (pixel_at img idx) /\
     chG (pixel_at img' idx) = chG (pixel_at img idx) /\
     chB (pixel_at img' idx) = chB (pixel_at img idx)) ->
  extract fuel dec' = extract fuel dec /\ decode fuel dec' = decode fuel dec.
Proof.
  intros img dec' Hw Hh Hrgb.
  assert (Hex : extract fuel dec' = extract fuel dec);
    [| split; [exact Hex | unfold decode; rewrite Hex; reflexivity]].
  unfold extract, decoder_selection. subst dec'.
  cbn [dec_image dec_key dec_firstPixelIndex dec_msgLength dec_encodingPixelsCount].
  fold img. rewrite Hw, Hh.
  destruct (select_indices fuel _ _ _ []) as [idxs | e |]; cbn [bind]; try reflexivity.
  pose proof (map_getPixelAt_rgb img img' idxs Hw Hh Hrgb) as Hmap.
  destruct (map_outcome (getPixelAt img) idxs) as [pxs | e |],
           (map_outcome (getPixelAt img') idxs) as [pxs' | e' |]; cbn [bind];
    try contradiction; try reflexivity; [| congruence].
  destruct (typed_array_length (dec_msgLength dec)) as [n | e |]; cbn [bind]; try reflexivity.
  apply walk_chain_rgb. exact Hmap.
Qed.

End AlphaBlind.

Lemma decode_ignores_alpha_witness :
  @extract Toy.toy_crypto Toy.toy_isaac (Z.to_nat 100)
    (mkStegDecoder Demo.two_pixels_alpha demo_key (JInt 0) (JInt 32768) (JInt 1) (JInt 2))
  = @extract Toy.toy_crypto Toy.toy_isaac (Z.to_nat 100) Demo.dec_two.
Proof.
  refine (proj1 (@decode_ignores_alpha Toy.toy_crypto Toy.toy_isaac (Z.to_nat 100)
                   Demo.dec_two Demo.two_pixels_alpha eq_refl eq_refl _)).
  intros idx Hidx.
  change (width (dec_image Demo.dec_two) * height (dec_image Demo.dec_two)) with 2 in Hidx.
  assert (Hcases : idx = 0 \/ idx = 1) by lia.
  destruct Hcases as [-> | ->]; repeat split.
Defined.

(* ================================================================== *)
(** * The histograms *)

Lemma increment_length (arr : list Z) (j : nat) : length (increment arr j) = length arr.
Proof.
  revert j. induction arr as [| x arr IH]; intros [| j]; cbn; try reflexivity.
  rewrite IH. reflexivity.
Qed.

Lemma increment_nth (arr : list Z) (j k : nat) :
  nth k (increment arr j) 0 =
  nth k arr 0 + (if (k =? j)%nat && (j <? length arr)%nat then 1 else 0).
Proof.
  revert j k. induction arr as [| x arr IH]; intros j k.
  - cbn. rewrite andb_false_r. destruct j, k; cbn; lia.
  - destruct j as [| j], k as [| k]; cbn [increment nth length]; try (cbn; lia).
    rewrite IH. reflexivity.
Qed.

Lemma increment_total (arr : list Z) (j : nat) :
  total (increment arr j) = total arr + (if (j <? length arr)%nat then 1 else 0).
Proof.
  unfold total. revert j. induction arr as [| x arr IH]; intros [| j]; cbn [increment fold_right length];
    try (cbn; lia).
  rewrite IH. change (S j <? S (length arr))%nat with (j <? length arr)%nat. lia.
Qed.

Lemma bump_byte (arr : list Z) (v : Z) :
  length arr = 256%nat -> is_byte v ->
  length (bump arr (Some v)) = 256%nat /\
  total (bump arr (Some v)) = total arr + 1 /\
  forall w, 0 <= w < 256 ->
    nth (Z.to_nat w) (bump arr (Some v)) 0 =
    nth (Z.to_nat w) arr 0 + (if v =? w then 1 else 0).
Proof.
  intros Hlen Hv. unfold is_byte in Hv. unfold bump.
  replace (v <? 0) with false by (symmetry; apply Z.ltb_ge; lia).
  rewrite increment_length, increment_total, Hlen.
  replace (Z.to_nat v <? 256)%nat with true by (symmetry; apply Nat.ltb_lt; lia).
  split; [reflexivity | split; [reflexivity |]].
  intros w Hw. rewrite increment_nth, Hlen.
  replace (Z.to_nat v <? 256)%nat with true by (symmetry; apply Nat.ltb_lt; lia).
  rewrite andb_true_r.
  destruct (Nat.eqb_spec (Z.to_nat w) (Z.to_nat v)), (Z.eqb_spec v w); try lia.
Qed.

Lemma count_channels_spec (n : nat) :
  forall (data : list Z) (h : HistogramData),
    length data = (4 * n)%nat -> Forall is_byte data ->
    length (hist_r h) = 256%nat -> length (hist_g h) = 256%nat ->
    length (hist_b h) = 256%nat ->
    let h' := count_channels data h in
    (length (hist_r h') = 256%nat /\ length (hist_g h') = 256%nat /\
     length (hist_b h') = 256%nat) /\
    (total (hist_r h') = total (hist_r h) + Z.of_nat n /\
     total (hist_g h') = total (hist_g h) + Z.of_nat n /\
     total (hist_b h') = total (hist_b h) + Z.of_nat n) /\
    forall w, 0 <= w < 256 ->
      nth (Z.to_nat w) (hist_r h') 0 =
        nth (Z.to_nat w) (hist_r h) 0 + Z.of_nat (count_occ Z.eq_dec (channel_of 0 data) w) /\
      nth (Z.to_nat w) (hist_g h') 0 =
        nth (Z.to_nat w) (hist_g h) 0 + Z.of_nat (count_occ Z.eq_dec (channel_of 1 data) w) /\
      nth (Z.to_nat w) (hist_b h') 0 =
        nth (Z.to_nat w) (hist_b h) 0 + Z.of_nat (count_occ Z.eq_dec (channel_of 2 data) w).
Proof.
  induction n as [| n IH]; intros data h Hlen Hbytes Hr Hg Hb.
  - destruct data; [| cbn [length] in Hlen; lia]. cbn.
    repeat split; try assumption; lia.
  - destruct data as [| r [| g [| b [| a rest]]]]; try (cbn [length] in Hlen; lia).
    pose proof (Forall_inv Hbytes) as Hrb.
    pose proof (Forall_inv (Forall_inv_tail Hbytes)) as Hgb.
    pose proof (Forall_inv (Forall_inv_tail (Forall_inv_tail Hbytes))) as Hbb.
    pose proof (Forall_inv_tail (Forall_inv_tail (Forall_inv_tail (Forall_inv_tail Hbytes))))
      as Hrest.
    destruct (bump_byte (hist_r h) r Hr Hrb) as (Lr & Tr & Nr).
    destruct (bump_byte (hist_g h) g Hg Hgb) as (Lg & Tg & Ng).
    destruct (bump_byte (hist_b h) b Hb Hbb) as (Lb & Tb & Nb).
    set (h1 := mkHistogramData (bump (hist_r h) (Some r)) (bump (hist_g h) (Some g))
                 (bump (hist_b h) (Some b))).
    assert (Hstep : count_channels (r :: g :: b :: a :: rest) h = count_channels rest h1).
    { cbn [count_channels nth_error]. reflexivity. }
    intros h'. subst h'. rewrite Hstep.
    destruct (IH rest h1 ltac:(cbn [length] in Hlen; lia) Hrest Lr Lg Lb)
      as (Hl & (Ht1 & Ht2 & Ht3) & Hn).
    split; [exact Hl |]. split.
    + cbn [hist_r hist_g hist_b h1] in Ht1, Ht2, Ht3. lia.
    + intros w Hw. destruct (Hn w Hw) as (H1r & H1g & H1b).
      cbn [hist_r hist_g hist_b h1] in H1r, H1g, H1b.
      rewrite H1r, H1g, H1b, (Nr w Hw), (Ng w Hw), (Nb w Hw).
      cbn [channel_of nth count_occ].
      destruct (Z.eq_dec r w), (Z.eq_dec g w), (Z.eq_dec b w);
        repeat (match goal with
                | |- context [?x =? w] =>
                    destruct (Z.eqb_spec x w); try contradiction
                end);
        repeat split; lia.
Qed.

Lemma histogram_spec (data : list Z) (n : nat) :
  length data = (4 * n)%nat -> Forall is_byte data ->
  let h := histogram_of data in
  (length (hist_r h) = 256%nat /\ length (hist_g h) = 256%nat /\
   length (hist_b h) = 256%nat) /\
  (total (hist_r h) = Z.of_nat n /\ total (hist_g h) = Z.of_nat n /\
   total (hist_b h) = Z.of_nat n) /\
  forall w, 0 <= w < 256 ->
    nth (Z.to_nat w) (hist_r h) 0 = Z.of_nat (count_occ Z.eq_dec (channel_of 0 data) w) /\
    nth (Z.to_nat w) (hist_g h) 0 = Z.of_nat (count_occ Z.eq_dec (channel_of 1 data) w) /\
    nth (Z.to_nat w) (hist_b h) 0 = Z.of_nat (count_occ Z.eq_dec (channel_of 2 data) w).
Proof.
  intros Hlen Hbytes h. subst h. unfold histogram_of.
  destruct (count_channels_spec n data
              (mkHistogramData (repeat 0 256) (repeat 0 256) (repeat 0 256))
              Hlen Hbytes (repeat_length _ _) (repeat_length _ _) (repeat_length _ _))
    as (Hl & (Ht1 & Ht2 & Ht3) & Hn).
  cbn [hist_r hist_g hist_b] in Ht1, Ht2, Ht3, Hn.
  assert (Hz : total (repeat 0 256) = 0) by reflexivity.
  assert (Hnz : forall w, 0 <= w < 256 -> nth (Z.to_nat w) (repeat 0 256) 0 = 0).
  { intros w Hw. apply nth_repeat. }
  split; [exact Hl |]. split; [rewrite Hz in *; lia |].
  intros w Hw. destruct (Hn w Hw) as (H1 & H2 & H3). rewrite (Hnz w Hw) in *. lia.
Qed.

(** X11. The histogram of RGBA data of [n] pixels: each of the three
    arrays has 256 counters; the counter of intensity [w] is the number
    of pixels whose byte of that channel is [w]; and the counters of each
    array add up to [n]. The alpha channel is not counted. *)
Theorem histogram_of_counts (data : list Z) (n : nat) :
  length data = (4 * n)%nat -> Forall is_byte data ->
  let h := histogram_of data in
  (length (hist_r h) = 256%nat /\ length (hist_g h) = 256%nat /\
   length (hist_b h) = 256%nat) /\
  (total (hist_r h) = Z.of_nat n /\ total (hist_g h) = Z.of_nat n /\
   total (hist_b h) = Z.of_nat n) /\
  forall w, 0 <= w < 256 ->
    nth (Z.to_nat w) (hist_r h) 0 = Z.of_nat (count_occ Z.eq_dec (channel_of 0 data) w) /\
    nth (Z.to_nat w) (hist_g h) 0 = Z.of_nat (count_occ Z.eq_dec (channel_of 1 data) w) /\
    nth (Z.to_nat w) (hist_b h) 0 = Z.of_nat (count_occ Z.eq_dec (channel_of 2 data) w).
Proof. exact (histogram_spec data n). Qed.

Lemma histogram_of_counts_witness :
  histogram_of [10; 20; 30; 255; 10; 50; 60; 255] =
    mkHistogramData (bump (bump (repeat 0 256) (Some 10)) (Some 10))
                    (bump (bump (repeat 0 256) (Some 20)) (Some 50))
                    (bump (bump (repeat 0 256) (Some 30)) (Some 60)) /\
  nth 10 (hist_r (histogram_of [10; 20; 30; 255; 10; 50; 60; 255])) 0 = 2.
Proof.
  split; [reflexivity |].
  assert (Hb : Forall is_byte [10; 20; 30; 255; 10; 50; 60; 255])
    by (repeat constructor; unfold is_byte; lia).
  exact (proj1 (proj2 (proj2 (histogram_of_counts [10; 20; 30; 255; 10; 50; 60; 255] 2
                                eq_refl Hb)) 10 ltac:(lia))).
Defined.

(* ================================================================== *)
(** * The chart *)

Lemma total_map_sub {A : Type} (f g : A -> Z) (l : list A) :
  total (map (fun i => f i - g i) l) = total (map f l) - total (map g l).
Proof. unfold total. induction l as [| x l IH]; cbn [map fold_right]; lia. Qed.

Lemma map_nth_seq (l : list Z) : map (fun i => nth i l 0) (seq 0 (length l)) = l.
Proof. apply map_seq_nth. intros; reflexivity. Qed.

Lemma zrange_seq (count : nat) (start : nat) :
  zrange (Z.of_nat start) count = map Z.of_nat (seq start count).
Proof.
  revert start. induction count as [| c IH]; intros start; cbn [zrange seq map]; [reflexivity |].
  f_equal. rewrite <- IH. f_equal. lia.
Qed.

Lemma chartData_intensity (o m : option HistogramData) (ch : channel_choice) (vm : view_mode) :
  map intensity (chartData o m ch vm) = zrange 0 256.
Proof.
  unfold chartData. rewrite map_map. rewrite <- (map_id (zrange 0 256)) at 2.
  apply map_ext. intros i. destruct o, m, vm; reflexivity.
Qed.

Lemma chartData_rDiff (o m : HistogramData) :
  length (hist_r o) = 256%nat -> length (hist_r m) = 256%nat ->
  map rDiff (chartData (Some o) (Some m) ch_rgb difference) =
  map (fun d => Some (JInt d))
    (map (fun i => nth i (hist_r m) 0 - nth i (hist_r o) 0) (seq 0 256)).
Proof.
  intros Ho Hm. unfold chartData. change (zrange 0 256) with (zrange (Z.of_nat 0) 256).
  rewrite zrange_seq, !map_map. apply map_ext_in. intros i Hi. apply in_seq in Hi.
  cbn [rDiff]. rewrite Nat2Z.id.
  rewrite (nth_error_nth' (hist_r m) 0) by lia.
  rewrite (nth_error_nth' (hist_r o) 0) by lia. reflexivity.
Qed.

Lemma chartData_gDiff (o m : HistogramData) :
  length (hist_g o) = 256%nat -> length (hist_g m) = 256%nat ->
  map gDiff (chartData (Some o) (Some m) ch_rgb difference) =
  map (fun d => Some (JInt d))
    (map (fun i => nth i (hist_g m) 0 - nth i (hist_g o) 0) (seq 0 256)).
Proof.
  intros Ho Hm. unfold chartData. change (zrange 0 256) with (zrange (Z.of_nat 0) 256).
  rewrite zrange_seq, !map_map. apply map_ext_in. intros i Hi. apply in_seq in Hi.
  cbn [gDiff]. rewrite Nat2Z.id.
  rewrite (nth_error_nth' (hist_g m) 0) by lia.
  rewrite (nth_error_nth' (hist_g o) 0) by lia. reflexivity.
Qed.

Lemma chartData_bDiff (o m : HistogramData) :
  length (hist_b o) = 256%nat -> length (hist_b m) = 256%nat ->
  map bDiff (chartData (Some o) (Some m) ch_rgb difference) =
  map (fun d => Some (JInt d))
    (map (fun i => nth i (hist_b m) 0 - nth i (hist_b o) 0) (seq 0 256)).
Proof.
  intros Ho Hm. unfold chartData. change (zrange 0 256) with (zrange (Z.of_nat 0) 256).
  rewrite zrange_seq, !map_map. apply map_ext_in. intros i Hi. apply in_seq in Hi.
  cbn [bDiff]. rewrite Nat2Z.id.
  rewrite (nth_error_nth' (hist_b m) 0) by lia.
  rewrite (nth_error_nth' (hist_b o) 0) by lia. reflexivity.
Qed.

Lemma total_diff (l1 l2 : list Z) :
  length l1 = 256%nat -> length l2 = 256%nat ->
  total (map (fun i => nth i l2 0 - nth i l1 0) (seq 0 256)) = total l2 - total l1.
Proof.
  intros H1 H2. rewrite (total_map_sub (fun i => nth i l2 0) (fun i => nth i l1 0)).
  pose proof (map_nth_seq l1) as E1. pose proof (map_nth_seq l2) as E2.
  rewrite H1 in E1. rewrite H2 in E2. rewrite E1, E2. reflexivity.
Qed.

Lemma nth_map_seq (f : nat -> Z) (n w : nat) :
  (w < n)%nat -> nth w (map f (seq 0 n)) 0 = f w.
Proof.
  intros H. rewrite (nth_indep _ 0 (f O)) by (rewrite length_map, length_seq; exact H).
  rewrite map_nth, seq_nth by exact H. reflexivity.
Qed.

(** X12. The difference chart of two images of the same size. With all
    channels shown there are 256 rows, one per intensity in increasing
    order; each row holds, per channel, the count of the modified image
    minus that of the original; and the differences of each channel add
    up to zero. *)
Theorem chartData_difference (original modified_data : list Z) (n : nat) :
  length original = (4 * n)%nat -> length modified_data = (4 * n)%nat ->
  Forall is_byte original -> Forall is_byte modified_data ->
  let o := histogram_of original in
  let m := histogram_of modified_data in
  let rows := chartData (Some o) (Some m) ch_rgb difference in
  map intensity rows = zrange 0 256 /\
  exists rs gs bs : list Z,
    map rDiff rows = map (fun d => Some (JInt d)) rs /\
    map gDiff rows = map (fun d => Some (JInt d)) gs /\
    map bDiff rows = map (fun d => Some (JInt d)) bs /\
    total rs = 0 /\ total gs = 0 /\ total bs = 0 /\
    forall w : nat, (w < 256)%nat ->
      nth w rs 0 = nth w (hist_r m) 0 - nth w (hist_r o) 0 /\
      nth w gs 0 = nth w (hist_g m) 0 - nth w (hist_g o) 0 /\
      nth w bs 0 = nth w (hist_b m) 0 - nth w (hist_b o) 0.
Proof.
  intros H1 H2 Hb1 Hb2 o m rows.
  destruct (histogram_spec original n H1 Hb1) as ((Lr1 & Lg1 & Lb1) & (Tr1 & Tg1 & Tb1) & _).
  destruct (histogram_spec modified_data n H2 Hb2)
    as ((Lr2 & Lg2 & Lb2) & (Tr2 & Tg2 & Tb2) & _).
  fold o in Lr1, Lg1, Lb1, Tr1, Tg1, Tb1. fold m in Lr2, Lg2, Lb2, Tr2, Tg2, Tb2.
  split; [apply chartData_intensity |].
  exists (map (fun i => nth i (hist_r m) 0 - nth i (hist_r o) 0) (seq 0 256)),
         (map (fun i => nth i (hist_g m) 0 - nth i (hist_g o) 0) (seq 0 256)),
         (map (fun i => nth i (hist_b m) 0 - nth i (hist_b o) 0) (seq 0 256)).
  split; [apply chartData_rDiff; assumption |].
  split; [apply chartData_gDiff; assumption |].
  split; [apply chartData_bDiff; assumption |].
  rewrite !total_diff by assumption.
  split; [lia |]. split; [lia |]. split; [lia |].
  intros w Hw. rewrite !nth_map_seq by exact Hw. repeat split.
Qed.

Lemma chartData_difference_witness :
  map rDiff (chartData (Some (histogram_of [10; 20; 30; 255]))
               (Some (histogram_of [11; 20; 30; 255])) ch_rgb difference)
  = map (fun d => Some (JInt d))
      (map (fun i => nth i (hist_r (histogram_of [11; 20; 30; 255])) 0
                     - nth i (hist_r (histogram_of [10; 20; 30; 255])) 0) (seq 0 256)) /\
  map intensity (chartData (Some (histogram_of [10; 20; 30; 255]))
                   (Some (histogram_of [11; 20; 30; 255])) ch_rgb difference)
  = zrange 0 256.
Proof.
  assert (Hb1 : Forall is_byte [10; 20; 30; 255]) by (repeat constructor; unfold is_byte; lia).
  assert (Hb2 : Forall is_byte [11; 20; 30; 255]) by (repeat constructor; unfold is_byte; lia).
  split; [reflexivity |].
  exact (proj1 (chartData_difference [10; 20; 30; 255] [11; 20; 30; 255] 1
                  eq_refl eq_refl Hb1 Hb2)).
Defined.

(* ================================================================== *)
(** * The recommended alias count *)

(** X13. Whatever the double arithmetic returns for the desired number
    of positions, the recommended alias count is an integer between 1 and
    Q; it is the default, 32, for an empty message. When the desired
    number [d] is between 1 and Q, the recommendation is [floor(Q / d)],
    the page shows at least [d] encodable positions for it, and encode
    keeps it for every ciphertext of at most [d] bytes. *)
Theorem computeRecommendedAliasCount_range (ceil_scaled : Z -> jsnum -> jsnum)
    (msgLen : Z) (overhead : jsnum) :
  exists a,
    computeRecommendedAliasCount ceil_scaled msgLen overhead = JInt a /\
    1 <= a <= 65536 /\
    (msgLen <= 0 -> a = 32) /\
    forall d,
      0 < msgLen -> ceil_scaled msgLen overhead = JInt d -> 1 <= d <= 65536 ->
      a = 65536 / d /\
      encodingPixelsCount true (JInt a) (JInt a) = JInt (65536 / a) /\
      d <= 65536 / a /\
      forall L, 1 <= L <= d -> renegotiate (JInt a) L = (JInt a, JInt (65536 / a)).
Proof.
  unfold computeRecommendedAliasCount. rewrite Q_value.
  destruct (Z.leb_spec msgLen 0) as [Hle | Hgt].
  - exists 32. split; [reflexivity |]. split; [lia |]. split; [reflexivity |]. lia.
  - destruct (ceil_scaled msgLen overhead) as [z | | | |] eqn:Ec; cbn [js_max1].
    + assert (Hd : 1 <= Z.max 1 z) by lia.
      rewrite floor_div_pos by lia. cbn [is_finite negb orb js_lt].
      assert (Hq : 0 <= 65536 / Z.max 1 z <= 65536).
      { split; [apply Z.div_pos; lia | apply Z.div_le_upper_bound; lia]. }
      destruct (Z.ltb_spec (65536 / Z.max 1 z) 1) as [Hsmall | Hbig].
      * exists 1. cbn [js_lt]. split; [reflexivity |]. split; [lia |]. split; [lia |].
        intros d _ [= <-] Hdr. rewrite Z.max_r in Hsmall by lia.
        assert (1 <= 65536 / z) by (apply Z.div_le_lower_bound; lia). lia.
      * exists (65536 / Z.max 1 z). cbn [js_lt].
        replace (65536 <? 65536 / Z.max 1 z) with false by (symmetry; apply Z.ltb_ge; lia).
        split; [reflexivity |]. split; [lia |]. split; [lia |].
        intros d _ [= <-] Hdr. rewrite Z.max_r in * by lia.
        assert (Hfit : z <= 65536 / (65536 / z)).
        { apply Z.div_le_lower_bound; [lia |].
          rewrite Z.mul_comm. apply Z.mul_div_le. lia. }
        split; [reflexivity |]. split; [| split; [exact Hfit |]].
        -- unfold encodingPixelsCount. cbn [js_max1]. rewrite Q_value.
           rewrite Z.max_r by lia. apply floor_div_pos. lia.
        -- intros L HL. unfold renegotiate. rewrite Q_value, floor_div_pos by lia.
           cbn [js_lt].
           replace (65536 / (65536 / z) <? L) with false by (symmetry; apply Z.ltb_ge; lia).
           reflexivity.
    + exists 65536. cbn. split; [reflexivity |]. split; [lia |]. split; [lia |].
      intros d _ [=].
    + exists 1. cbn. split; [reflexivity |]. split; [lia |]. split; [lia |].
      intros d _ [=].
    + exists 1. cbn. split; [reflexivity |]. split; [lia |]. split; [lia |].
      intros d _ [=].
    + exists 65536. cbn. split; [reflexivity |]. split; [lia |]. split; [lia |].
      intros d _ [=].
Qed.

(* ================================================================== *)
(** * Word arrays, once more *)

Lemma aligned_roundtrip (wa : WordArray) :
  sigBytes wa = 4 * Z.of_nat (length (words wa)) -> Forall is_int32 (words wa) ->
  uint8ArrayToWordArray (wordArrayToUint8Array wa) = wa.
Proof.
  intros Hsig Hwords. destruct wa as [ws sb]. cbn [words sigBytes] in *. subst sb.
  set (n := length ws) in *.
  pose proof (wordArrayToUint8Array_bytes (mkWordArray ws (4 * Z.of_nat n))) as Hbytes.
  unfold uint8ArrayToWordArray.
  assert (Hl : length (wordArrayToUint8Array (mkWordArray ws (4 * Z.of_nat n))) = (4 * n)%nat).
  { unfold wordArrayToUint8Array. rewrite length_map, length_seq. cbn [sigBytes]. lia. }
  assert (Hnth : forall i, (i < 4 * n)%nat ->
            nth i (wordArrayToUint8Array (mkWordArray ws (4 * Z.of_nat n))) 0 = word_byte ws i).
  { intros i Hi. unfold wordArrayToUint8Array. cbn [words sigBytes].
    rewrite (nth_indep _ 0 (word_byte ws O)) by (rewrite length_map, length_seq; lia).
    rewrite map_nth, seq_nth by lia. reflexivity. }
  remember (wordArrayToUint8Array (mkWordArray ws (4 * Z.of_nat n))) as u8 eqn:Eu8. clear Eu8.
  rewrite Hl. f_equal; [| lia].
  set (W := pack_bytes_from 0 u8 []).
  assert (HWl : length W = n).
  { subst W. rewrite pack_bytes_from_length.
    destruct u8 as [| b u8']; [cbn in Hl |- *; lia |]. rewrite Hl. cbn [length].
    assert (((0 + 4 * n - 1) / 4 = n - 1)%nat).
    { destruct n as [| m]; [cbn in Hl; lia |].
      symmetry. apply Nat.div_unique with (r := 3%nat); lia. }
    destruct n; [cbn in Hl; lia | lia]. }
  assert (HW32 : Forall is_int32 W) by (apply pack_bytes_from_int32; constructor).
  assert (HWb : forall i, (i < 4 * n)%nat -> word_byte W i = word_byte ws i).
  { intros i Hi. subst W. rewrite word_byte_pack_bytes_from
      by (auto; intros; apply word_byte_nil).
    cbn [Nat.ltb Nat.leb]. rewrite Nat.sub_0_r. apply Hnth. exact Hi. }
  apply nth_ext with (d := 0) (d' := 0); [exact HWl |].
  intros j Hj. rewrite HWl in Hj.
  apply word_bytes_inj.
  - rewrite Forall_forall in HW32. apply HW32, nth_In. lia.
  - rewrite Forall_forall in Hwords. apply Hwords, nth_In. exact Hj.
  - intros k Hk.
    assert (Hm : exists m, (m < 4)%nat /\ k = 24 - Z.of_nat m * 8).
    { destruct Hk as [-> | [-> | [-> | ->]]];
        [exists 3%nat | exists 2%nat | exists 1%nat | exists 0%nat]; lia. }
    destruct Hm as (m & Hm & ->).
    specialize (HWb (4 * j + m)%nat ltac:(lia)). unfold word_byte, array_get in HWb.
    replace ((4 * j + m) / 4)%nat with j in HWb
      by (apply Nat.div_unique with (r := m); lia).
    replace ((4 * j + m) mod 4)%nat with m in HWb
      by (apply Nat.mod_unique with (q := j); lia).
    exact HWb.
Qed.

(** X14. A word array whose significant bytes fill its 32-bit words (as
    a block-aligned ciphertext does) survives the conversion to bytes and
    back: the decryptor receives the words the encryptor produced. *)
Theorem wordArray_bytes_roundtrip (wa : WordArray) :
  sigBytes wa = 4 * Z.of_nat (length (words wa)) -> Forall is_int32 (words wa) ->
  uint8ArrayToWordArray (wordArrayToUint8Array wa) = wa.
Proof. exact (aligned_roundtrip wa). Qed.

Lemma wordArray_bytes_roundtrip_witness :
  uint8ArrayToWordArray (wordArrayToUint8Array (mkWordArray [-559038737; 16777216] 8)) =
  mkWordArray [-559038737; 16777216] 8.
Proof.
  apply wordArray_bytes_roundtrip; [reflexivity |].
  repeat constructor; unfold is_int32; lia.
Defined.

Section Plaintext.
Context {C : CryptoES} {I : Isaac}.

(** X15. The plaintext comes back. Under the conditions of the round
    trip of the ciphertext, if the ciphertext word array is block-aligned
    and the decryptor of the library undoes its encryptor on this
    message, decode returns the UTF-8 word array of the message. *)
Theorem decode_of_encode_plaintext (fuel : nat) (enc : StegEncoder) (t' : Z)
    (packed : jsstring) (img' : StegImage) :
  let K := enc_key enc in
  let pt := Utf8_parse (enc_message enc) in
  let ct := AES_encrypt K pt in
  let L := Z.of_nat (length (aes_encrypt K (enc_message enc))) in
  let pixelCount := width (enc_image enc) * height (enc_image enc) in
  is_key256 K -> image_ok (enc_image enc) ->
  fst (renegotiate (enc_aliasCount enc) L) = JInt t' -> 1 <= t' < 65536 -> L < 65536 ->
  65536 / t' <= pixelCount ->
  sigBytes ct = 4 * Z.of_nat (length (words ct)) -> Forall is_int32 (words ct) ->
  AES_decrypt K ct = pt ->
  encode fuel enc = (Returned packed, img') ->
  (dec <- new_StegDecoder img' packed ;; decode fuel dec) = Returned pt.
Proof.
  intros K pt ct L pixelCount HK Hok Heff Ht HL Hfit Hsig Hwords Hlaw Henc.
  destruct (roundtrip_ciphertext fuel enc t' packed img' HK Hok Heff Ht HL Hfit Henc) as [_ Hdec].
  rewrite Hdec. f_equal. unfold aes_decrypt, aes_encrypt. fold K. fold pt. fold ct.
  rewrite (aligned_roundtrip ct Hsig Hwords). exact Hlaw.
Qed.

End Plaintext.

(* ================================================================== *)
(** * Pixel objects *)

Lemma Pixel_eq_dec (a b : Pixel) : {a = b} + {a <> b}.
Proof. decide equality; apply Z.eq_dec. Qed.

Lemma modified_iff (p : StegPixel) : modified p = true <-> bytes p <> originalBytes p.
Proof.
  unfold modified, pixel_channels.
  destruct (bytes p) as [r g b a], (originalBytes p) as [r0 g0 b0 a0].
  cbn [combine existsb fst snd chR chG chB chA].
  destruct (Z.eqb_spec r r0), (Z.eqb_spec g g0), (Z.eqb_spec b b0), (Z.eqb_spec a a0);
    cbn [negb orb]; split; intros H; try reflexivity; try discriminate; try congruence.
Qed.

Lemma StegPixel_equals_iff (a b : StegPixel) :
  StegPixel_equals a b = true <-> bytes a = bytes b.
Proof.
  unfold StegPixel_equals, pixel_channels.
  destruct (bytes a) as [r g b0 al], (bytes b) as [r' g' b' al'].
  cbn [combine forallb fst snd chR chG chB chA].
  rewrite !andb_true_iff, !Z.eqb_eq. split.
  - intros (-> & -> & -> & -> & _). reflexivity.
  - intros [= -> -> -> ->]. auto.
Qed.

Lemma squares_zero (a b c d : Z) :
  a ^ 2 + b ^ 2 + c ^ 2 + d ^ 2 = 0 <-> a = 0 /\ b = 0 /\ c = 0 /\ d = 0.
Proof.
  rewrite !Z.pow_2_r. split.
  - intros H.
    pose proof (Z.square_nonneg a). pose proof (Z.square_nonneg b).
    pose proof (Z.square_nonneg c). pose proof (Z.square_nonneg d).
    assert (Ha : a * a = 0) by lia. assert (Hb : b * b = 0) by lia.
    assert (Hc : c * c = 0) by lia. assert (Hd : d * d = 0) by lia.
    apply Z.mul_eq_0 in Ha, Hb, Hc, Hd. lia.
  - intros (-> & -> & -> & ->). reflexivity.
Qed.

(** X16. Distances and equality. The distance between two pixels is
    symmetric and is zero exactly when [equals] holds, that is when their
    four bytes agree; the same for pointers and their two bytes; and a
    pixel is [modified] exactly when it is at a non-zero distance from a
    pixel that holds its original bytes. *)
Theorem similarity_equals (a b : StegPixel) (p q : StegPointer) :
  similarity_sq a b = similarity_sq b a /\
  (similarity_sq a b = 0 <-> StegPixel_equals a b = true) /\
  (StegPixel_equals a b = true <-> bytes a = bytes b) /\
  StegPointer_similarity_sq p q = StegPointer_similarity_sq q p /\
  (StegPointer_similarity_sq p q = 0 <-> StegPointer_equals p q = true) /\
  (StegPointer_equals p q = true <-> p = q) /\
  (modified a = true <->
   similarity_sq a (new_StegPixel (originalBytes a) (index a)) <> 0).
Proof.
  assert (Hsim : forall x y : StegPixel, similarity_sq x y = 0 <-> bytes x = bytes y).
  { intros x y. unfold similarity_sq. rewrite squares_zero.
    destruct (bytes x) as [r g b0 al], (bytes y) as [r' g' b' al']. cbn [chR chG chB chA].
    split; [intros (? & ? & ? & ?); f_equal; lia | intros [= -> -> -> ->]; lia]. }
  split; [unfold similarity_sq; rewrite !Z.pow_2_r; ring |].
  split; [rewrite Hsim, StegPixel_equals_iff; reflexivity |].
  split; [apply StegPixel_equals_iff |].
  split; [unfold StegPointer_similarity_sq; rewrite !Z.pow_2_r; ring |].
  split.
  - rewrite StegPointer_equals_eq. unfold StegPointer_similarity_sq.
    destruct p as [h l], q as [h' l']. cbn [ptr_hi ptr_lo]. split.
    + intros H. pose proof (proj1 (squares_zero (h - h') (l - l') 0 0)) as Hz.
      destruct Hz as (? & ? & _); [change (0 ^ 2) with 0; lia | f_equal; lia].
    + intros [= -> ->]. rewrite !Z.sub_diag. reflexivity.
  - split; [apply StegPointer_equals_eq |].
    rewrite modified_iff, Hsim. cbn [new_StegPixel bytes]. reflexivity.
Qed.

(** X17. The invariants of a pixel object. Whatever sequence of
    [setChannel] and [setPointer] calls (with pointers of two bytes) is
    applied to a pixel built from four channels, its [pointer] is the one
    its channels 1 and 2 spell, its index and its original bytes are
    those it was built with, and [modified] tells whether its bytes
    differ from them. *)
Theorem pixel_ops_invariant (pixel : Pixel) (idx : Z) (ops : list pixel_op) :
  Forall op_ok ops ->
  let p := fold_left apply_op ops (new_StegPixel pixel idx) in
  pixel_ok p /\ index p = idx /\ originalBytes p = pixel /\
  (modified p = true <-> bytes p <> pixel).
Proof.
  intros Hops p.
  assert (H : pixel_ok p /\ index p = idx /\ originalBytes p = pixel).
  { subst p.
    assert (H0 : pixel_ok (new_StegPixel pixel idx) /\ index (new_StegPixel pixel idx) = idx /\
                 originalBytes (new_StegPixel pixel idx) = pixel) by (repeat split).
    revert H0. generalize (new_StegPixel pixel idx).
    induction Hops as [| op ops Hop _ IH]; intros s Hs; [exact Hs |].
    cbn [fold_left]. apply IH. destruct Hs as (Hok & Hi & Ho).
    destruct op as [channel value | ptr]; cbn [apply_op op_ok] in *.
    - repeat split; assumption.
    - split; [| split; assumption].
      unfold pixel_ok, setPointer. cbn [pointer bytes].
      unfold pointer_ok, pointer_bytes in Hop.
      pose proof (Forall_inv Hop) as Hhi.
      pose proof (Forall_inv (Forall_inv_tail Hop)) as Hlo.
      unfold StegPointer_of_pixel. cbn [set_channel chG chB].
      rewrite !clamp8_byte by assumption. destruct ptr; reflexivity. }
  destruct H as (Hok & Hi & Ho). repeat split; try assumption.
  - rewrite modified_iff, Ho. auto.
  - rewrite modified_iff, Ho. auto.
Qed.

Lemma pixel_ops_invariant_witness :
  pixel_ok (setPointer (setChannel (new_StegPixel (mkPixel 1 2 3 255) 7) RED 300)
              (mkStegPointer 9 8)) /\
  modified (setPointer (setChannel (new_StegPixel (mkPixel 1 2 3 255) 7) RED 300)
              (mkStegPointer 9 8)) = true.
Proof.
  assert (Hops : Forall op_ok [op_setChannel RED 300; op_setPointer (mkStegPointer 9 8)]).
  { constructor; [exact Logic.I |]. constructor; [| constructor].
    unfold op_ok, pointer_ok, pointer_bytes. cbn [ptr_hi ptr_lo].
    constructor; [unfold is_byte; lia |]. constructor; [unfold is_byte; lia | constructor]. }
  destruct (pixel_ops_invariant (mkPixel 1 2 3 255) 7 _ Hops) as (Hok & _ & _ & _).
  split; [exact Hok | reflexivity].
Defined.

(** X18. The constructors on arrays of any length. A pointer is built
    from two bytes or more, and not from fewer; from the bytes of a
    pointer it is that pointer, and from the four channels of a pixel it
    is channels 1 and 2. A pixel is built under the same condition; from
    four channels it is the pixel of those channels, consistent with its
    pointer; from any other length its bytes are four zeros while its
    pointer still comes from the array. *)
Theorem constructors_by_length (from : list Z) (idx : Z) :
  (new_StegPointer from = None <-> (length from < 2)%nat) /\
  (new_StegPixel_of from idx = None <-> (length from < 2)%nat) /\
  (forall ptr, new_StegPointer (pointer_bytes ptr) = Some ptr) /\
  (forall px,
      new_StegPointer (pixel_channels px) = Some (StegPointer_of_pixel px) /\
      new_StegPixel_of (pixel_channels px) idx = Some (new_StegPixel px idx)) /\
  (forall p, new_StegPixel_of from idx = Some p -> length from <> 4%nat ->
      bytes p = mkPixel 0 0 0 0 /\ originalBytes p = mkPixel 0 0 0 0 /\ index p = idx /\
      new_StegPointer from = Some (pointer p) /\
      (pixel_ok p <-> pointer p = mkStegPointer 0 0)).
Proof.
  assert (Hptr : new_StegPointer from = None <-> (length from < 2)%nat).
  { destruct from as [| a [| b [| c rest]]]; cbn; split; intros H; try reflexivity;
      try discriminate; try lia. }
  split; [exact Hptr |]. split; [| split; [| split]].
  - unfold new_StegPixel_of. destruct (new_StegPointer from) eqn:E.
    + split; [discriminate |]. intros H. apply Hptr in H. discriminate.
    + split; [intros _; apply Hptr; reflexivity | reflexivity].
  - intros [h l]. reflexivity.
  - intros [r g b a]. split; reflexivity.
  - intros p Hp Hlen. unfold new_StegPixel_of in Hp.
    destruct (new_StegPointer from) as [ptr |] eqn:E; [| discriminate].
    injection Hp as <-. cbn [bytes originalBytes index pointer].
    assert (Hb : match from with
                 | [r; g; b; a] => mkPixel r g b a
                 | _ => mkPixel 0 0 0 0
                 end = mkPixel 0 0 0 0).
    { destruct from as [| a [| b [| c [| d [| e rest]]]]]; try reflexivity.
      cbn in Hlen. congruence. }
    rewrite Hb. repeat split; try reflexivity.
    + unfold pixel_ok. cbn. auto.
    + unfold pixel_ok. cbn. auto.
Qed.

(** * The image *)

Lemma typed_set_same (arr : list Z) (j : nat) : typed_set arr j (typed_get arr j) = arr.
Proof.
  unfold typed_get. revert j. induction arr as [| x arr IH]; intros [| j]; cbn; try reflexivity.
  rewrite IH. reflexivity.
Qed.

(** X19. Storing and reading pixels. On an image whose buffer holds four
    channels per pixel: [setPixelAt] throws exactly when the index of the
    pixel is outside the image; otherwise the image keeps its size and
    shape, the pixel at that index reads back with the bytes stored and
    every other pixel reads as before; and storing a pixel that was just
    read leaves the image as it is. *)
Theorem setPixelAt_getPixelAt (img : StegImage) (px : StegPixel) :
  image_ok img ->
  (setPixelAt img px = Thrown PixelIndexOutOfRange <->
   ~ 0 <= index px < width img * height img) /\
  (forall img', setPixelAt img px = Returned img' ->
     image_ok img' /\ width img' = width img /\ height img' = height img /\
     forall idx, getPixelAt img' idx =
                 if idx =? index px then Returned (new_StegPixel (bytes px) idx)
                 else getPixelAt img idx) /\
  (forall idx p, getPixelAt img idx = Returned p -> setPixelAt img p = Returned img).
Proof.
  intros Hok. split; [| split].
  - unfold setPixelAt.
    destruct (Z.ltb_spec (index px) 0); cbn [orb]; [split; [lia | reflexivity] |].
    destruct (Z.geb_spec (index px) (width img * height img));
      [split; [lia | reflexivity] | split; [discriminate | lia]].
  - intros img' Hset. split; [eapply setPixelAt_image_ok; eassumption |].
    destruct (setPixelAt_dims _ _ _ Hset) as [Hw Hh]. split; [exact Hw |]. split; [exact Hh |].
    intros idx. destruct (Z.eqb_spec idx (index px)) as [-> | Hne].
    + apply (getPixelAt_setPixelAt_same img img' px Hok Hset).
    + apply (getPixelAt_setPixelAt_other img img' px idx Hok Hset Hne).
  - intros idx p Hget. pose proof (getPixelAt_pixel_at _ _ _ Hget) as ->.
    unfold getPixelAt in Hget. unfold setPixelAt. cbn [index bytes new_StegPixel].
    destruct (_ || _); [discriminate |]. unfold pixel_at. cbn [chR chG chB chA].
    f_equal. destruct img as [w h ch]. cbn [width height channels]. f_equal.
    set (c := Z.to_nat (idx * 4)).
    rewrite typed_set_same.
    replace (typed_get ch (c + 1)) with (typed_get (typed_set ch (c + 0) (typed_get ch (c + 0))) (c + 1))
      by (rewrite typed_set_same; reflexivity).
    rewrite !typed_set_same. reflexivity.
Qed.

Lemma setPixelAt_getPixelAt_witness :
  setPixelAt Demo.two_pixels (new_StegPixel (mkPixel 1 2 3 4) 2) = Thrown PixelIndexOutOfRange.
Proof.
  assert (Hok : image_ok Demo.two_pixels) by (split; [cbn; lia | reflexivity]).
  apply (proj1 (setPixelAt_getPixelAt Demo.two_pixels (new_StegPixel (mkPixel 1 2 3 4) 2) Hok)).
  cbn. lia.
Defined.

(* ================================================================== *)
(** * The run of [Demo.enc_fit4] *)

Lemma fit4_encode_returns :
  exists pos img',
    0 <= pos < 256 /\
    @encode Toy.toy_crypto Toy.toy_isaac (Z.to_nat 3000) Demo.enc_fit4 =
      (Returned (packageKey (mkStegKey demo_key (JInt pos) (JInt 256) (JInt 4))), img').
Proof.
  assert (Hsel : exists idxs,
             @encoder_selection Toy.toy_crypto Toy.toy_isaac (Z.to_nat 3000) Demo.enc_fit4
             = Returned (JInt 256, idxs)) by (vm_compute; eexists; reflexivity).
  destruct Hsel as (idxs & Hsel).
  destruct (encoder_selection_returned _ _ _ _ Hsel) as (_ & _ & Hs).
  change (js_min _ _) with (JInt 256) in Hs.
  change (width (enc_image Demo.enc_fit4) * height (enc_image Demo.enc_fit4)) with 256 in Hs.
  destruct (@select_indices_returned Toy.toy_isaac toy_isaac_unit 256 256 ltac:(lia)
              _ _ [] idxs (NoDup_nil _) (Forall_nil _) ltac:(cbn; lia) Hs)
    as (Hnd & Hrange & Hlen).
  destruct (@encode_total Toy.toy_crypto Toy.toy_isaac (Z.to_nat 3000) Demo.enc_fit4
              (JInt 256) idxs Hsel Hnd Hrange ltac:(lia)
              ltac:(rewrite toy_aes_length; cbn [length Demo.enc_fit4 enc_message str
                      list_ascii_of_string]; lia)
              ltac:(apply toy_pointers_cover; lia))
    as (pos & img' & Hpos & Henc & _).
  rewrite toy_aes_length in Henc. exists pos, img'. split; [lia | exact Henc].
Qed.

Lemma decode_of_encode_plaintext_witness :
  exists packed img',
    @encode Toy.toy_crypto Toy.toy_isaac (Z.to_nat 3000) Demo.enc_fit4 = (Returned packed, img') /\
    (dec <- new_StegDecoder img' packed ;;
     @decode Toy.toy_crypto Toy.toy_isaac (Z.to_nat 3000) dec)
    = Returned (mkWordArray [1751742817] 4).
Proof.
  destruct fit4_encode_returns as (pos & img' & _ & Henc).
  exists (packageKey (mkStegKey demo_key (JInt pos) (JInt 256) (JInt 4))), img'.
  split; [exact Henc |].
  exact (@decode_of_encode_plaintext Toy.toy_crypto Toy.toy_isaac (Z.to_nat 3000)
           Demo.enc_fit4 256 _ img' demo_key_256 cover16_ok
           ltac:(rewrite toy_aes_length; reflexivity) ltac:(lia)
           ltac:(rewrite toy_aes_length; cbn; lia) ltac:(cbn; lia)
           eq_refl
           ltac:(change (Forall is_int32 [1751742817]);
                 constructor; [unfold is_int32; lia | constructor])
           eq_refl Henc).
Defined.

(* ================================================================== *)
(** * The length field of a key *)

Section LengthField.
Context {C : CryptoES} {I : Isaac}.

(** X20. The length field of a key the constructor accepted, once the
    candidate pixels are read. If it does not read as a number, or reads
    as 0, nothing is extracted and decode returns the decryption of no
    bytes, whatever the first position is. If it reads as a negative
    number, allocating the byte array throws a [RangeError]. *)
Theorem decode_length_field (img : StegImage) (packed : jsstring) (dec : StegDecoder)
    (fuel : nat) (idxs : list Z) (pxs : list StegPixel) :
  new_StegDecoder img packed = Returned dec ->
  decoder_selection fuel dec = Returned idxs ->
  map_outcome (getPixelAt img) idxs = Returned pxs ->
  (dec_msgLength dec = JNaN \/ dec_msgLength dec = JInt 0 ->
   decode fuel dec = Returned (aes_decrypt (dec_key dec) [])) /\
  (forall L, dec_msgLength dec = JInt L -> L < 0 ->
             decode fuel dec = Thrown InvalidArrayLength).
Proof.
  intros Hdec Hsel Hpxs. destruct (new_StegDecoder_count _ _ _ Hdec) as (Himg & _).
  split.
  - intros HL. unfold decode, extract. rewrite Hsel, Himg. cbn [bind]. rewrite Hpxs.
    cbn [bind]. destruct HL as [-> | ->]; reflexivity.
  - intros L HL Hneg. unfold decode, extract. rewrite Hsel, Himg. cbn [bind]. rewrite Hpxs.
    cbn [bind]. rewrite HL. unfold typed_array_length.
    replace (L <? 0) with true by (symmetry; apply Z.ltb_lt; exact Hneg). reflexivity.
Qed.

End LengthField.

Lemma decode_length_field_witness :
  @decode Toy.toy_crypto Toy.toy_isaac (Z.to_nat 100)
    (mkStegDecoder Demo.two_pixels demo_key (JInt 0) (JInt 32768) (JInt (-1)) (JInt 2))
  = Thrown InvalidArrayLength.
Proof.
  assert (Hdec : new_StegDecoder Demo.two_pixels
                   (Hex_stringify demo_key ++ str "8000-0010")
                 = Returned (mkStegDecoder Demo.two_pixels demo_key (JInt 0) (JInt 32768)
                               (JInt (-1)) (JInt 2))) by (vm_compute; reflexivity).
  assert (Hsel : exists idxs pxs,
             @decoder_selection Toy.toy_isaac (Z.to_nat 100)
               (mkStegDecoder Demo.two_pixels demo_key (JInt 0) (JInt 32768)
                  (JInt (-1)) (JInt 2)) = Returned idxs /\
             map_outcome (getPixelAt Demo.two_pixels) idxs = Returned pxs).
  { vm_compute. do 2 eexists. split; reflexivity. }
  destruct Hsel as (idxs & pxs & Hsel & Hpxs).
  exact (proj2 (@decode_length_field Toy.toy_crypto Toy.toy_isaac _ _ _ (Z.to_nat 100) idxs pxs
                  Hdec Hsel Hpxs) (-1) eq_refl ltac:(lia)).
Defined.

(** * Membership in arrays of pixels *)

(** X21. The static helpers of [StegPixel]. [includesIndex] holds
    exactly when some pixel of the array has that index, which is when
    [findIndex] finds one; [includedInPixelArray] holds exactly when some
    pixel of the array has the same four bytes as the item, whatever
    their indices; the two [excluded] helpers are their negations. *)
Theorem pixel_array_membership (array : list StegPixel) (item : StegPixel) (idx : Z) :
  (includesIndex array idx = true <-> exists p, In p array /\ index p = idx) /\
  (includesIndex array idx = negb (findIndex array idx =? -1)) /\
  excludesIndex array idx = negb (includesIndex array idx) /\
  (includedInPixelArray array item = true <->
   exists p, In p array /\ bytes p = bytes item) /\
  excludedFromPixelArray array item = negb (includedInPixelArray array item).
Proof.
  split; [| split; [| split; [reflexivity | split; [| reflexivity]]]].
  - unfold includesIndex. rewrite existsb_exists. split.
    + intros (p & Hin & E). apply Z.eqb_eq in E. eauto.
    + intros (p & Hin & E). exists p. split; [exact Hin | apply Z.eqb_eq; exact E].
  - unfold includesIndex, findIndex.
    assert (H : forall i, 0 <= i ->
              existsb (fun pixel => index pixel =? idx) array
              = negb (findIndex_from i array idx =? -1)).
    { induction array as [| p rest IH]; intros i Hi; cbn [existsb findIndex_from];
        [reflexivity |].
      destruct (index p =? idx); cbn [orb].
      - symmetry. apply negb_true_iff. apply Z.eqb_neq. lia.
      - apply IH. lia. }
    apply H. lia.
  - unfold includedInPixelArray.
    destruct (find (fun pixel => StegPixel_equals pixel item) array) as [p |] eqn:E.
    + apply find_some in E. destruct E as [Hin Heq]. apply StegPixel_equals_iff in Heq.
      split; [intros _; eauto | reflexivity].
    + split; [discriminate |]. intros (p & Hin & Hb).
      pose proof (find_none _ _ E p Hin) as Hn. cbn beta in Hn.
      apply StegPixel_equals_iff in Hb. congruence.
Qed.

(** * The bytes of a word array *)


(* ================================================================== *)
(** * White space around a key *)





